(** * PML (Polymer Module Loader): a shallow embedding of [pml.js]

    The development follows the layout of the source file:

    - JavaScript values, truthiness and error objects;
    - a small backtracking matcher for the three regular expressions the
      loader uses, and the string helpers [split] / [join];
    - [_resolveRelativeId];
    - the loader state (the registry [_modules], the closure records of
      [_runFactory], the scripts appended by [loadScript]) and a state and
      exception monad over it;
    - [_inferModuleId], [_require], [_runFactory], [define] and the [onload]
      handler installed by [loadScript];
    - the properties of the loader. *)

From Stdlib Require Import ZArith Ascii String.
From stdpp Require Import base option list gmap strings.

Local Open Scope string_scope.
Local Open Scope list_scope.
Local Open Scope nat_scope.

(** ** Strings

    JavaScript strings are modelled as [string], a sequence of 8-bit
    characters. *)

Module Str.

Definition slash : ascii := "/"%char.
Definition backslash : ascii := "\"%char.
Definition dot : ascii := "."%char.
Definition LF : ascii := ascii_of_nat 10.
Definition CR : ascii := ascii_of_nat 13.

(** [s.indexOf(c) !== -1] *)
Fixpoint contains (c : ascii) (s : string) : bool :=
  match s with
  | EmptyString => false
  | String d r => if Ascii.eqb c d then true else contains c r
  end.

(** [s[0]]: [None] stands for [undefined]. *)
Definition first (s : string) : option ascii :=
  match s with
  | EmptyString => None
  | String c _ => Some c
  end.

(** The first [n] characters of [s]. *)
Fixpoint take (n : nat) (s : string) : string :=
  match n, s with
  | S m, String c r => String c (take m r)
  | _, _ => EmptyString
  end.

(** [s.split('/')]. The result is never empty: the empty string splits
    into one empty term. *)
Fixpoint split (s : string) : list string :=
  match s with
  | EmptyString => [EmptyString]
  | String c r =>
      if Ascii.eqb c slash then EmptyString :: split r
      else match split r with
           | h :: t => String c h :: t
           | [] => [String c EmptyString]
           end
  end.

(** [terms.join('/')] *)
Fixpoint join (terms : list string) : string :=
  match terms with
  | [] => EmptyString
  | [t] => t
  | t :: rest => t +:+ String slash (join rest)
  end.

End Str.

(** ** Regular expressions

    The loader uses three regular expressions, all anchored at both ends
    and all built from character classes, greedy and lazy repetition of a
    character class, an optional group and capturing groups. The matcher
    below is the usual backtracking one in continuation-passing style: the
    continuation is what remains to be matched. *)

Module Regex.

Inductive regex :=
| Class (p : ascii -> bool)          (* one character of the class *)
| Star (p : ascii -> bool)           (* [p*], greedy *)
| Plus (p : ascii -> bool)           (* [p+], greedy *)
| LazyStar (p : ascii -> bool)       (* [p*?] *)
| Cat (r1 r2 : regex)
| Opt (r : regex)                    (* [r?], greedy *)
| Group (n : nat) (r : regex).       (* the n-th capturing group *)

(** The captures of a match; a group that did not take part has no
    entry ([undefined] in JavaScript). *)
Definition captures := list (nat * string).

Fixpoint group (n : nat) (caps : captures) : option string :=
  match caps with
  | [] => None
  | (m, s) :: rest => if Nat.eqb n m then Some s else group n rest
  end.

Section Matcher.
Context {A : Type}.

Fixpoint star_greedy (p : ascii -> bool) (s : string)
    (k : string -> option A) : option A :=
  match s with
  | String c r =>
      if p c then
        match star_greedy p r k with
        | Some a => Some a
        | None => k s
        end
      else k s
  | EmptyString => k s
  end.

Fixpoint star_lazy (p : ascii -> bool) (s : string)
    (k : string -> option A) : option A :=
  match k s with
  | Some a => Some a
  | None =>
      match s with
      | String c r => if p c then star_lazy p r k else None
      | EmptyString => None
      end
  end.
End Matcher.

(** What [s] lost to reach [rest]. *)
Definition consumed (s rest : string) : string :=
  Str.take (String.length s - String.length rest) s.

Fixpoint run (r : regex) (s : string) (caps : captures)
    (k : string -> captures -> option captures) : option captures :=
  match r with
  | Class p =>
      match s with
      | String c rest => if p c then k rest caps else None
      | EmptyString => None
      end
  | Star p => star_greedy p s (fun rest => k rest caps)
  | Plus p =>
      match s with
      | String c rest =>
          if p c then star_greedy p rest (fun rest' => k rest' caps) else None
      | EmptyString => None
      end
  | LazyStar p => star_lazy p s (fun rest => k rest caps)
  | Cat r1 r2 => run r1 s caps (fun rest caps' => run r2 rest caps' k)
  | Opt r1 =>
      match run r1 s caps k with
      | Some c => Some c
      | None => k s caps
      end
  | Group n r1 =>
      run r1 s caps (fun rest caps' => k rest ((n, consumed s rest) :: caps'))
  end.

(** [s.match(/^r$/)]: [None] stands for [null]. *)
Definition exec (r : regex) (s : string) : option captures :=
  run r s [] (fun rest caps =>
    match rest with EmptyString => Some caps | _ => None end).

(** [.] matches anything but a line terminator; of the four JavaScript
    knows, line feed and carriage return are 8-bit characters. *)
Definition any (c : ascii) : bool :=
  negb (Ascii.eqb c Str.LF || Ascii.eqb c Str.CR).
(** [[^\/]] *)
Definition not_slash (c : ascii) : bool := negb (Ascii.eqb c Str.slash).
(** [\/] *)
Definition is_slash (c : ascii) : bool := Ascii.eqb c Str.slash.

(** [/^(.*?)[^\/]*$/] of [define] *)
Definition re_dirname : regex :=
  Cat (Group 1 (LazyStar any)) (Star not_slash).

(** [/^([^\/]*\/\/[^\/]+\/)?(.*?)\/?$/] of [_resolveRelativeId] *)
Definition re_base : regex :=
  Cat (Opt (Group 1 (Cat (Star not_slash)
                    (Cat (Class is_slash)
                    (Cat (Class is_slash)
                    (Cat (Plus not_slash) (Class is_slash)))))))
      (Cat (Group 2 (LazyStar any)) (Opt (Class is_slash))).

(** [/^\/?(.*?)\/?$/] of [_resolveRelativeId] *)
Definition re_terms : regex :=
  Cat (Opt (Class is_slash))
      (Cat (Group 1 (LazyStar any)) (Opt (Class is_slash))).

End Regex.


(** ** Values and errors *)

(** Numbers are integers (no [NaN]). Arrays hold strings: the only arrays
    the loader is given are dependency lists, [Array<string>] in its
    documentation. Objects and functions are references: an object is an
    address into the heap, a function is the name under which the
    environment knows its behaviour. *)
Inductive value :=
| VUndefined
| VNull
| VBool (b : bool)
| VNum (n : Z)
| VStr (s : string)
| VArr (xs : list string)
| VObj (l : nat)
| VFun (f : nat).

(** ToBoolean *)
Definition truthy (v : value) : bool :=
  match v with
  | VUndefined | VNull => false
  | VBool b => b
  | VNum n => negb (n =? 0)%Z
  | VStr s => negb (String.eqb s "")
  | VArr _ | VObj _ | VFun _ => true
  end.

(** [a || b] *)
Definition js_or (a b : value) : value := if truthy a then a else b.

(** [typeof v === 'function'] *)
Definition is_function (v : value) : bool :=
  match v with VFun _ => true | _ => false end.

(** What can be thrown. The first three are the error objects the loader
    builds itself; the next three are raised by the engine; the last is
    whatever a factory throws. *)
Inductive exn :=
| TypeError (msg : string)
| Error (msg : string)
| ReferenceError (msg : string)
| NullDereference               (* TypeError: property read on null / undefined *)
| NotDefined (name : string)    (* ReferenceError: unbound identifier *)
| InvalidURL                    (* TypeError of the URL constructor *)
| Raised (v : value).

Inductive completion (A : Type) :=
| Normal (a : A)
| Throw (e : exn).
Arguments Normal {A} a.
Arguments Throw {A} e.

(** ** _resolveRelativeId *)

(** The loop body of [_resolveRelativeId]: one term of the id against the
    terms of the base. [terms.pop()] on an empty array leaves it empty. *)
Definition walk (terms : list string) (idTerm : string) : list string :=
  if String.eqb idTerm "." then terms
  else if String.eqb idTerm ".." then removelast terms
  else terms ++ [idTerm].

Definition _resolveRelativeId (base id : string) : completion string :=
  if negb (bool_decide (Str.first id = Some Str.dot)) then Normal id
  else
    match Regex.exec Regex.re_base base with
    | None => Throw NullDereference
    | Some m =>
        let prefix := default "" (Regex.group 1 m) in
        let terms :=
          match Regex.group 2 m with
          | Some g => if String.eqb g "" then [] else Str.split g
          | None => []
          end in
        match Regex.exec Regex.re_terms id with
        | None => Throw NullDereference
        | Some m' =>
            match Regex.group 1 m' with
            | None => Throw NullDereference
            | Some g =>
                let idTerms := Str.split g in
                Normal (prefix +:+ Str.join (fold_left walk idTerms terms))
            end
        end
    end.

(** [inferredId.match(/^(.*?)[^\/]*$/)[1]] of [define] *)
Definition dirname (inferredId : string) : completion string :=
  match Regex.exec Regex.re_dirname inferredId with
  | None => Throw NullDereference
  | Some m =>
      match Regex.group 1 m with
      | Some g => Normal g
      | None => Throw NullDereference
      end
  end.


(** ** The loader state *)

(** The variables one call of [_runFactory] closes over. The callbacks it
    hands to [_require] outlive the call, so the record lives in the state;
    [var] declarations are hoisted, hence one record per call. *)
Record closure := {
  c_moduleId : string;
  c_base : string;
  c_dependencies : list string;
  c_factory : value;
  unresolvedDependencies : Z;
  modules : list (option value);   (* a JavaScript array; [None] is a hole *)
  requireError : bool
}.

(** A script appended by [loadScript] whose [onload] has not fired yet,
    with what its handler closes over: the arguments of the [_require] call
    that issued it, and the callback of that call, which is determined by
    the [_runFactory] call [r_call] and the position [r_index]. *)
Record request := {
  r_src : string;
  r_id : string;
  r_moduleId : string;
  r_call : nat;
  r_index : nat
}.

(** What an observer of the loader sees, oldest first. *)
Inductive event :=
| Log (msg : string)                                      (* console.log *)
| ScriptAppended (src : string)                           (* loadScript *)
| Settled (k i : nat) (error : option exn) (dependency : value)
    (* the callback given to [_require] for dependency [i] of call [k] runs *)
| Applied (k : nat) (factory : value) (args : list value) (* factory.apply *)
| Completed (k : nat) (error : option exn) (module : value)
    (* the callback given to call [k] of [_runFactory] runs *)
| Written (k : nat) (id : string) (module : value)        (* _modules[id] = module *)
| Uncaught (e : exn).

Record state := {
  _modules : gmap string value;
  heap : list (list (string * value));
  calls : list closure;
  scripts : list (option request);
  trace : list event
}.

Definition init : state :=
  {| _modules := ∅; heap := []; calls := []; scripts := []; trace := [] |}.

Definition set_modules (f : gmap string value → gmap string value) (st : state) : state :=
  {| _modules := f (_modules st); heap := heap st; calls := calls st;
     scripts := scripts st; trace := trace st |}.
Definition set_heap (f : list (list (string * value)) → list (list (string * value)))
    (st : state) : state :=
  {| _modules := _modules st; heap := f (heap st); calls := calls st;
     scripts := scripts st; trace := trace st |}.
Definition set_calls (f : list closure → list closure) (st : state) : state :=
  {| _modules := _modules st; heap := heap st; calls := f (calls st);
     scripts := scripts st; trace := trace st |}.
Definition set_scripts (f : list (option request) → list (option request))
    (st : state) : state :=
  {| _modules := _modules st; heap := heap st; calls := calls st;
     scripts := f (scripts st); trace := trace st |}.
Definition set_trace (f : list event → list event) (st : state) : state :=
  {| _modules := _modules st; heap := heap st; calls := calls st;
     scripts := scripts st; trace := f (trace st) |}.

Definition set_requireError (b : bool) (c : closure) : closure :=
  {| c_moduleId := c_moduleId c; c_base := c_base c;
     c_dependencies := c_dependencies c; c_factory := c_factory c;
     unresolvedDependencies := unresolvedDependencies c;
     modules := modules c; requireError := b |}.

(** [modules[i] = v]: JavaScript extends the array when [i] is past its end,
    leaving holes. *)
Definition array_set (l : list (option value)) (i : nat) (v : value) : list (option value) :=
  if decide (i < length l) then <[i := Some v]> l
  else l ++ replicate (i - length l) None ++ [Some v].

(** The argument list [apply] makes of an array: holes read as [undefined]. *)
Definition arguments (l : list (option value)) : list value :=
  default VUndefined <$> l.

(** [modules[dependencyIndex] = dependency; unresolvedDependencies -= 1] *)
Definition resolve_slot (i : nat) (v : value) (c : closure) : closure :=
  {| c_moduleId := c_moduleId c; c_base := c_base c;
     c_dependencies := c_dependencies c; c_factory := c_factory c;
     unresolvedDependencies := unresolvedDependencies c - 1;
     modules := array_set (modules c) i v; requireError := requireError c |}.

(** ** A state and exception monad

    A throw keeps the state reached so far: JavaScript has no rollback. *)

Definition M (A : Type) : Type := state → completion A * state.

Definition ret {A} (a : A) : M A := λ st, (Normal a, st).
Definition bind {A B} (f : A → M B) (m : M A) : M B :=
  λ st, match m st with
        | (Normal a, st') => f a st'
        | (Throw e, st') => (Throw e, st')
        end.
Definition throw {A} (e : exn) : M A := λ st, (Throw e, st).
Definition gets {A} (f : state → A) : M A := λ st, (Normal (f st), st).
Definition modify (f : state → state) : M unit := λ st, (Normal tt, f st).
Definition lift {A} (c : completion A) : M A := λ st, (c, st).

#[global] Instance M_ret : MRet M := @ret.
#[global] Instance M_bind : MBind M := @bind.

Definition emit (e : event) : M unit := modify (set_trace (λ t, t ++ [e])).

(** [console.log] *)
Definition log (msg : string) : M unit := emit (Log msg).

(** An object literal: a fresh address holding the given properties. *)
Definition new_object (props : list (string * value)) : M value :=
  l ← gets (λ st, length (heap st));
  modify (set_heap (λ h, h ++ [props]));;
  mret (VObj l).

(** [dependencies.forEach(f)] *)
Fixpoint forEach {A} (f : A → nat → M unit) (xs : list A) (i : nat) : M unit :=
  match xs with
  | [] => mret tt
  | x :: rest => f x i;; forEach f rest (S i)
  end.

(** ** The host document *)

Record document := {
  baseURI : option string              (* [None] is [null] *)
}.

(** A [<script>] element: its [as] and [src] attributes when present, and
    its [ownerDocument]. *)
Record script := {
  attr_as : option string;
  attr_src : option string;
  ownerDocument : option document
}.

(** What [define] reads of the document it is called in. *)
Record host := {
  _currentScript : option script;      (* document._currentScript *)
  currentScript : option script;       (* document.currentScript *)
  doc : document
}.

(** ** The loader *)

Definition quote : string := String (ascii_of_nat 34) EmptyString.

Definition delimiter_error : exn :=
  TypeError "Please use / as module path delimiters".
Definition already_defined (id : string) : exn :=
  Error ("The module " +:+ quote +:+ id +:+ quote +:+ " has already been defined").
Definition no_baseURI : exn :=
  Error "Unable to determine a module id: No baseURI for the document".
(** ['The module "' + id + '" has not been loaded' +
     (moduleId ? ' for ' + moduleId : '')] *)
Definition not_loaded (id moduleId : string) : exn :=
  ReferenceError
    ("The module " +:+ quote +:+ id +:+ quote +:+ " has not been loaded" +:+
     (if negb (String.eqb moduleId "") then " for " +:+ moduleId else "")).

Definition reserved (dependencyId : string) : bool :=
  String.eqb dependencyId "exports" || String.eqb dependencyId "require"
  || String.eqb dependencyId "module".

Section Loader.

(** The environment: [new URL(src, base).toString()], [None] when the
    constructor throws, and the behaviour of the functions handed to
    [define] as factories. A factory is taken to return or throw without
    calling back into the loader; the calls of [define] that loaded
    scripts make are actions of their own (see [action] below). *)
Variable URL : string → string → option string.
Variable call : nat → list value → completion value.

Definition _inferModuleId (h : host) : completion string :=
  let script :=
    match _currentScript h with
    | Some s => Some s
    | None => currentScript h
    end in
  match script with
  | None => Throw NullDereference
  | Some script =>
      match attr_as script with
      | Some alias => Normal alias
      | None =>
          let doc := default (doc h) (ownerDocument script) in
          match baseURI doc with
          | None => Throw no_baseURI
          | Some base =>
              if String.eqb base "" then Throw no_baseURI
              else
                match attr_src script with
                | Some src =>
                    match URL src base with
                    | Some u => Normal u
                    | None => Throw InvalidURL
                    end
                | None => Normal base
                end
          end
      end
  end.

(** [loadScript(src, callback)]: the script element is appended to the
    document; its [onload] handler runs later, if ever. *)
Definition loadScript (q : request) : M unit :=
  emit (ScriptAppended (r_src q));;
  modify (set_scripts (λ l, l ++ [Some q])).

(** [factory.apply(null, modules)]. It is only reached with a function
    for [factory]: [_runFactory] returns early otherwise. *)
Definition apply (k : nat) (factory : value) (args : list value) : M value :=
  emit (Applied k factory args);;
  match factory with
  | VFun f => lift (call f args)
  | _ => throw (TypeError "factory.apply is not a function")
  end.

(** The callback [define] gives to [_runFactory]; [id] is the [id] of that
    call of [define], and [k] numbers the call of [_runFactory]. *)
Definition define_callback (k : nat) (id : string)
    (error : option exn) (module : value) : M unit :=
  emit (Completed k error module);;
  match error with
  | Some e => throw e
  | None =>
      emit (Written k id module);;
      modify (set_modules (λ m, <[id := module]> m))
  end.

(** The callback [_runFactory] gives to [_require] for the dependency at
    [dependencyIndex]; [k] addresses the variables it closes over, and
    always names a record (the callback is made by the call that made the
    record). *)
Definition on_dependency (k dependencyIndex : nat) (dependencyId : string)
    (error : option exn) (dependency : value) : M unit :=
  emit (Settled k dependencyIndex error dependency);;
  c ← gets (λ st, calls st !! k);
  match c with
  | None => mret tt
  | Some c =>
      if requireError c then mret tt
      else
        match error with
        | Some e =>
            modify (set_calls (λ l, <[k := set_requireError true c]> l));;
            define_callback k (c_moduleId c) (Some e) VUndefined
        | None =>
            log ("Loaded " +:+ dependencyId);;
            let c' := resolve_slot dependencyIndex dependency c in
            modify (set_calls (λ l, <[k := c']> l));;
            if (unresolvedDependencies c' =? 0)%Z then
              log ("All dependencies resolved for " +:+ c_moduleId c);;
              module ← apply k (c_factory c) (arguments (modules c'));
              define_callback k (c_moduleId c) None module
            else mret tt
        end
  end.

Definition _require (id moduleId : string) (k i : nat) : M unit :=
  if String.eqb id "exports" then
    o ← new_object [];
    on_dependency k i id None o
  else if String.eqb id "require" then
    throw (NotDefined "calback")
  else if String.eqb id "module" then
    o ← new_object [("id", VStr moduleId)];
    on_dependency k i id None o
  else
    m ← gets _modules;
    match m !! id with
    | None =>
        loadScript {| r_src := "components/jquery/dist/" +:+ id +:+ ".js";
                      r_id := id; r_moduleId := moduleId;
                      r_call := k; r_index := i |}
    | Some module => on_dependency k i id None module
    end.

(** The handler [_require] installs through [loadScript], run when the
    [r]-th appended script has loaded. It runs at most once. *)
Definition onload (r : nat) : M unit :=
  q ← gets (λ st, scripts st !! r);
  match q with
  | Some (Some q) =>
      modify (set_scripts (λ l, <[r := None]> l));;
      m ← gets _modules;
      let module := default VUndefined (m !! r_id q) in
      if truthy module then
        on_dependency (r_call q) (r_index q) (r_id q) None module
      else
        on_dependency (r_call q) (r_index q) (r_id q)
          (Some (not_loaded (r_id q) (r_moduleId q))) VUndefined
  | _ => mret tt
  end.

(** The head of the body of the [forEach] of [_runFactory]: relative
    ids are resolved, reserved ones are left alone. *)
Definition resolve_dependency (base dependencyId : string) : completion string :=
  if negb (reserved dependencyId) then _resolveRelativeId base dependencyId
  else Normal dependencyId.

(** The body of the [forEach] of [_runFactory]. *)
Definition request_dependency (k : nat) (moduleId base : string)
    (dependencyId : string) (dependencyIndex : nat) : M unit :=
  dependencyId ← lift (resolve_dependency base dependencyId);
  _require dependencyId moduleId k dependencyIndex.

Definition _runFactory (moduleId base : string) (dependencies : list string)
    (factory : value) : M unit :=
  k ← gets (λ st, length (calls st));
  modify (set_calls (λ l, l ++ [
    {| c_moduleId := moduleId; c_base := base;
       c_dependencies := dependencies; c_factory := factory;
       unresolvedDependencies := Z.of_nat (length dependencies);
       modules := []; requireError := false |}]));;
  if negb (is_function factory) then
    define_callback k moduleId None factory
  else if (Z.of_nat (length dependencies) =? 0)%Z then
    module ← apply k factory (arguments []);
    define_callback k moduleId None module
  else
    forEach (request_dependency k moduleId base) dependencies 0.

Definition define (h : host) (id dependencies factory : value) : M unit :=
  let factory := js_or (js_or factory dependencies) id in
  let dependencies :=
    match dependencies with
    | VArr d => d
    | _ => match id with VArr d => d | _ => [] end
    end in
  inferredId ← lift (_inferModuleId h);
  let id := match id with VStr s => s | _ => inferredId end in
  if Str.contains Str.backslash id then throw delimiter_error
  else
    m ← gets _modules;
    if bool_decide (is_Some (m !! id)) then throw (already_defined id)
    else
      base ← lift (dirname inferredId);
      _runFactory id base dependencies factory.

(** ** Runs of the loader

    JavaScript runs one piece of code to completion at a time: a call of
    [define] made by a script of the page, or the [onload] handler of a
    script appended by [loadScript]. An exception that leaves it is
    reported and the next one runs on the state that was reached. *)
Inductive action :=
| Define (h : host) (id dependencies factory : value)
| Onload (r : nat).

Definition perform (a : action) : M unit :=
  match a with
  | Define h id dependencies factory => define h id dependencies factory
  | Onload r => onload r
  end.

Definition step (st : state) (a : action) : state :=
  match perform a st with
  | (Normal _, st') => st'
  | (Throw e, st') => set_trace (λ t, t ++ [Uncaught e]) st'
  end.

Definition run (st : state) (acts : list action) : state :=
  fold_left step acts st.

End Loader.

(** ** What the trace says about one call of [_runFactory] *)

(** The settlements of the dependencies of call [k]: position, error and
    value, oldest first. *)
Definition settled (k : nat) (tr : list event) : list (nat * (option exn * value)) :=
  omap (λ e, match e with
             | Settled k' i err v =>
                 if decide (k' = k) then Some (i, (err, v)) else None
             | _ => None
             end) tr.

(** The invocations of the factory of call [k]. *)
Definition applied (k : nat) (tr : list event) : list (value * list value) :=
  omap (λ e, match e with
             | Applied k' f args => if decide (k' = k) then Some (f, args) else None
             | _ => None
             end) tr.

(** The invocations of the completion callback of call [k]. *)
Definition completed (k : nat) (tr : list event) : list (option exn * value) :=
  omap (λ e, match e with
             | Completed k' err m => if decide (k' = k) then Some (err, m) else None
             | _ => None
             end) tr.

(** The registry writes of call [k]. *)
Definition written (k : nat) (tr : list event) : list (string * value) :=
  omap (λ e, match e with
             | Written k' id m => if decide (k' = k) then Some (id, m) else None
             | _ => None
             end) tr.

(** The positions of the dependencies of call [k] whose script has been
    appended and has not loaded yet. *)
Definition pending (k : nat) (ss : list (option request)) : list nat :=
  omap (λ q, match q with
             | Some q => if decide (r_call q = k) then Some (r_index q) else None
             | None => None
             end) ss.

Arguments settled : simpl never.
Arguments applied : simpl never.
Arguments completed : simpl never.
Arguments written : simpl never.
Arguments pending : simpl never.

(** The errors among settlements, oldest first. *)
Definition errors (S : list (nat * (option exn * value))) : list exn :=
  omap (λ s, s.2.1) S.

(** [modules[i]] when the slot is filled. *)
Definition read (l : list (option value)) (i : nat) : option value :=
  match l !! i with
  | Some (Some v) => Some v
  | _ => None
  end.

(** ** The invariant of the loader *)

(** How many dependencies a call may ever request: all of them when the
    factory is a function, none otherwise. *)
Definition frontier (c : closure) : nat :=
  if is_function (c_factory c) then length (c_dependencies c) else 0.

(** The invariant of one call, over its record [c], the number [J] of
    dependencies requested so far at most, its settlements [S], its pending
    positions [P], and the invocations [A] of its factory, [C] of its
    completion callback and [W] of the registry write. *)
Record call_inv (c : closure) (J : nat)
    (S : list (nat * (option exn * value))) (P : list nat)
    (A : list (value * list value)) (C : list (option exn * value))
    (W : list (string * value)) : Prop := {
  inv_frontier : J ≤ frontier c;
  inv_nodup : NoDup (S.*1 ++ P);
  inv_bound : ∀ i, i ∈ S.*1 ++ P → i < J;
  inv_length : length (modules c) ≤ length (c_dependencies c);
  inv_ok :
    requireError c = false →
    errors S = [] ∧
    (∀ i v, read (modules c) i = Some v ↔ (i, (None, v)) ∈ S) ∧
    unresolvedDependencies c
      = (Z.of_nat (length (c_dependencies c)) - Z.of_nat (length S))%Z ∧
    (is_function (c_factory c) = true → length S < length (c_dependencies c) →
     A = [] ∧ C = [] ∧ W = []) ∧
    (0 < length (c_dependencies c) → length S = length (c_dependencies c) →
     A = [(c_factory c, arguments (modules c))]);
  inv_failed :
    requireError c = true →
    ∃ e, head (errors S) = Some e ∧ A = [] ∧ C = [(Some e, VUndefined)] ∧ W = []
}.

(** While the [forEach] of call [k0] is at position [j], that call has
    requested [j] dependencies at most. *)
Definition bound (o : option (nat * nat)) (k : nat) (c : closure) : nat :=
  match o with
  | Some (k0, j) => if decide (k = k0) then j else frontier c
  | None => frontier c
  end.

(** Nothing is known of calls that have not been made. *)
Definition fresh_above (st : state) : Prop :=
  ∀ k, length (calls st) ≤ k →
    settled k (trace st) = [] ∧ pending k (scripts st) = [] ∧
    applied k (trace st) = [] ∧ completed k (trace st) = [] ∧
    written k (trace st) = [].

Definition loader_inv (o : option (nat * nat)) (st : state) : Prop :=
  fresh_above st ∧
  ∀ k c, calls st !! k = Some c →
    call_inv c (bound o k c) (settled k (trace st)) (pending k (scripts st))
      (applied k (trace st)) (completed k (trace st)) (written k (trace st)).

(** What one settlement does to the record of its call and to what is
    observed of it: [c'] is the record afterwards, [A], [C] and [W] are the
    new invocations of the factory, of the completion callback and of the
    registry write. *)
Definition settle_case (c : closure) (i : nat) (err : option exn) (v : value)
    (c' : closure) (A : list (value * list value))
    (C : list (option exn * value)) (W : list (string * value)) : Prop :=
  if requireError c then c' = c ∧ A = [] ∧ C = [] ∧ W = []
  else
    match err with
    | Some e =>
        c' = set_requireError true c ∧ A = [] ∧ C = [(Some e, VUndefined)] ∧ W = []
    | None =>
        c' = resolve_slot i v c ∧
        if (unresolvedDependencies c' =? 0)%Z
        then A = [(c_factory c, arguments (modules c'))]
        else A = [] ∧ C = [] ∧ W = []
    end.

(** Every script the loader appends comes from the fixed directory. *)
Definition well_sourced (e : event) : Prop :=
  match e with
  | ScriptAppended src =>
      ∃ id, src = "components/jquery/dist/" +:+ id +:+ ".js" ∧ reserved id = false
  | _ => True
  end.

(** ** Relations between states *)

Definition static (c : closure) : string * string * list string * value :=
  (c_moduleId c, c_base c, c_dependencies c, c_factory c).

(** No record is added, and no record changes its static part. *)
Definition keeps_calls (st st' : state) : Prop :=
  length (calls st') = length (calls st) ∧
  ∀ k c, calls st !! k = Some c →
         ∃ c', calls st' !! k = Some c' ∧ static c' = static c.

(** An event that is neither a settlement, nor an invocation of a factory
    or of a completion callback, nor a registry write, changes nothing of
    what is observed of the calls. *)
Definition silent (e : event) : Prop :=
  match e with
  | Log _ | ScriptAppended _ | Uncaught _ => True
  | _ => False
  end.

(** The events of a call that runs its factory without requesting
    anything. *)
Definition direct_event (k : nat) (e : event) : Prop :=
  match e with
  | Applied k' _ _ | Completed k' _ _ | Written k' _ _ => k' = k
  | Settled _ _ _ _ => False
  | _ => True
  end.

(** From [st] to [st'] the trace has gained events, all satisfying [P]. *)
Definition trace_grows (P : event → Prop) (st st' : state) : Prop :=
  ∃ tr, trace st' = trace st ++ tr ∧ Forall P tr.


(** ** An example page *)

(** [new URL(src, base).toString()] for a relative [src]: the directory of
    [base] followed by [src]. *)
Definition relative_URL (src base : string) : option string :=
  match dirname base with
  | Normal dir => Some (dir +:+ src)
  | Throw _ => None
  end.

(** Factory 0 answers with its first argument, factory 1 with the number of
    its arguments, factory 2 with the number zero, the others throw. *)
Definition factories (f : nat) (args : list value) : completion value :=
  match f with
  | 0 => Normal (default VUndefined (head args))
  | 1 => Normal (VNum (Z.of_nat (length args)))
  | 2 => Normal (VNum 0)
  | _ => Throw (Raised (VStr "factory failed"))
  end.

(** An inline script of the document at [location]. *)
Definition inline_script (location : option string) : host :=
  {| _currentScript := None;
     currentScript :=
       Some {| attr_as := None; attr_src := None; ownerDocument := None |};
     doc := {| baseURI := location |} |}.

(** The script [src] of the document at [location], such as the scripts
    [loadScript] appends. *)
Definition external_script (src : string) (location : option string) : host :=
  {| _currentScript := None;
     currentScript :=
       Some {| attr_as := None; attr_src := Some src; ownerDocument := None |};
     doc := {| baseURI := location |} |}.

Definition example_page : host := inline_script (Some "http://x.com/a/b.html").

Definition app : option string := Some "http://h/app/index.html".
Definition app_page : host := inline_script app.

(** [y] has loaded without defining anything; [x] is defined and loads
    afterwards. *)
Definition failing_run : list action :=
  [Define app_page (VStr "m") (VArr ["./x"; "./y"]) (VFun 1); Onload 1].
Definition late_success : list action :=
  [Define (external_script "components/jquery/dist/http://h/app/x.js" app)
     (VStr "http://h/app/x") (VNum 7) VUndefined;
   Onload 0].

(** The dependency declared second settles first. *)
Definition out_of_order_run : list action :=
  [Define app_page (VStr "m") (VArr ["a"; "b"]) (VFun 0);
   Define (external_script "components/jquery/dist/b.js" app)
     (VStr "b") (VNum 2) VUndefined;
   Onload 1;
   Define (external_script "components/jquery/dist/a.js" app)
     (VStr "a") (VNum 1) VUndefined;
   Onload 0].

(** A second definition of [m] arrives while the first waits for [x]. *)
Definition racing_run : list action :=
  [Define app_page (VStr "m") (VArr ["x"]) (VFun 0);
   Define app_page (VStr "m") (VNum 42) VUndefined;
   Define (external_script "components/jquery/dist/x.js" app)
     (VStr "x") (VNum 7) VUndefined;
   Onload 0].

(** [x] is defined by a factory that returns zero. *)
Definition falsy_export_run : list action :=
  [Define app_page (VStr "m") (VArr ["x"]) (VFun 1);
   Define (external_script "components/jquery/dist/x.js" app)
     (VStr "x") (VArr []) (VFun 2);
   Onload 0].

(** The values written to the registry under [id], oldest first. *)
Definition writes (id : string) (tr : list event) : list value :=
  omap (λ e, match e with
             | Written _ id' m => if decide (id' = id) then Some m else None
             | _ => None
             end) tr.

Definition uncaught (tr : list event) : list exn :=
  omap (λ e, match e with Uncaught e => Some e | _ => None end) tr.


(** The records of the calls the examples look at. *)
Definition out_of_order_closure : closure :=
  {| c_moduleId := "m"; c_base := "http://h/app/"; c_dependencies := ["a"; "b"];
     c_factory := VFun 0; unresolvedDependencies := 0;
     modules := [Some (VNum 1); Some (VNum 2)]; requireError := false |}.

Definition widget_closure : closure :=
  {| c_moduleId := "widget"; c_base := "http://x.com/a/";
     c_dependencies := ["./c.html"]; c_factory := VFun 1;
     unresolvedDependencies := 1; modules := []; requireError := false |}.

Definition nested_closure : closure :=
  {| c_moduleId := "a/b/c"; c_base := "a/b/"; c_dependencies := ["../d"];
     c_factory := VFun 1; unresolvedDependencies := 1; modules := [];
     requireError := false |}.


(** ** Auxiliary notions for the further properties *)

(** Line feed and carriage return, which [.] does not match. *)
Definition line_terminator (c : ascii) : bool :=
  Ascii.eqb c Str.LF || Ascii.eqb c Str.CR.

Fixpoint has_line_terminator (s : string) : bool :=
  match s with
  | EmptyString => false
  | String c r => line_terminator c || has_line_terminator r
  end.

(** The longest prefix of [s] that ends in a slash, empty when [s] has no
    slash. *)
Fixpoint directory (s : string) : string :=
  match s with
  | EmptyString => EmptyString
  | String c r => if Str.contains Str.slash s then String c (directory r) else EmptyString
  end.

(** A regular expression without capturing group. *)
Fixpoint plain (r : Regex.regex) : bool :=
  match r with
  | Regex.Class _ | Regex.Star _ | Regex.Plus _ | Regex.LazyStar _ => true
  | Regex.Cat r1 r2 => plain r1 && plain r2
  | Regex.Opt r1 => plain r1
  | Regex.Group _ _ => false
  end.

(** What follows the capturing groups in the three regular expressions:
    the end of the subject. *)
Definition at_end (rest : string) (caps : Regex.captures) : option Regex.captures :=
  match rest with EmptyString => Some caps | _ => None end.

(** The dependency [d], resolved against [base], is registered in [st] with
    the export [v]. *)
Definition registered (base : string) (st : state) (d : string) (v : value) : Prop :=
  ∃ target, resolve_dependency base d = Normal target ∧ reserved target = false ∧
            _modules st !! target = Some v.

(** What a call of [define] answers when its factory has answered [res]. *)
Definition answer (res : completion value) : completion unit :=
  match res with
  | Normal _ => Normal tt
  | Throw e => Throw e
  end.

(** The registry after the factory of the module [id] has answered [res]. *)
Definition commit (id : string) (res : completion value)
    (registry : gmap string value) : gmap string value :=
  match res with
  | Normal module => <[id := module]> registry
  | Throw _ => registry
  end.

(** A script with an alias, in a document without base URI. *)
Definition aliased_script : host :=
  {| _currentScript := None;
     currentScript :=
       Some {| attr_as := Some "lib/thingy"; attr_src := Some "thingo.js";
               ownerDocument := None |};
     doc := {| baseURI := None |} |}.

Definition aliased_closure : closure :=
  {| c_moduleId := "lib/thingy"; c_base := "lib/"; c_dependencies := ["./x"];
     c_factory := VFun 1; unresolvedDependencies := 1; modules := [];
     requireError := false |}.

(** A state in which [a] and [http://h/app/b] are registered. *)
Definition stocked : state :=
  run relative_URL factories init
    [Define app_page (VStr "a") (VNum 1) VUndefined;
     Define app_page (VStr "http://h/app/b") (VNum 2) VUndefined].

(** ** The steps of the loader

    Every change the loader makes to its state is one of these. The
    registry is only ever changed by a write under the id of a call that
    has been made, and the id of a call holds no backslash. *)
Inductive change : state → state → Prop :=
| change_emit st e :
    (∀ k id m, e ≠ Written k id m) →
    change st (set_trace (λ t, t ++ [e]) st)
| change_heap st props :
    change st (set_heap (λ h, h ++ [props]) st)
| change_append st q :
    change st (set_scripts (λ l, l ++ [Some q]) st)
| change_loaded st r :
    change st (set_scripts (λ l, <[r := None]> l) st)
| change_call st c :
    Str.contains Str.backslash (c_moduleId c) = false →
    change st (set_calls (λ l, l ++ [c]) st)
| change_slot st k c c' :
    calls st !! k = Some c → static c' = static c →
    change st (set_calls (λ l, <[k := c']> l) st)
| change_write st k c m :
    calls st !! k = Some c →
    change st
      (set_modules (λ r, <[c_moduleId c := m]> r)
         (set_trace (λ t, t ++ [Written k (c_moduleId c) m]) st)).

Definition evolves : state → state → Prop := rtc change.

(** The registry holds under each id the value written last. *)
Definition registry_reflects (st : state) : Prop :=
  ∀ id, _modules st !! id = last (writes id (trace st)).

(** No id of a call and no registered id holds a backslash. *)
Definition clean_ids (st : state) : Prop :=
  (∀ k c, calls st !! k = Some c → Str.contains Str.backslash (c_moduleId c) = false) ∧
  (∀ id, is_Some (_modules st !! id) → Str.contains Str.backslash id = false).

(** ** The outcome of a call

    What can be observed of one call of [_runFactory], with record [c]:
    the invocations [A] of its factory, [C] of its completion callback and
    [W] of the registry write. *)
Inductive outcome (call : nat → list value → completion value) (c : closure) :
    list (value * list value) → list (option exn * value) →
    list (string * value) → Prop :=
| outcome_pending :
    outcome call c [] [] []
| outcome_failed e :
    outcome call c [] [(Some e, VUndefined)] []
| outcome_value :
    is_function (c_factory c) = false →
    outcome call c [] [(None, c_factory c)] [(c_moduleId c, c_factory c)]
| outcome_threw f args e :
    c_factory c = VFun f → call f args = Throw e →
    outcome call c [(VFun f, args)] [] []
| outcome_defined f args module :
    c_factory c = VFun f → call f args = Normal module →
    outcome call c [(VFun f, args)] [(None, module)] [(c_moduleId c, module)].

Definition outcomes (call : nat → list value → completion value) (st : state) : Prop :=
  ∀ k c, calls st !! k = Some c →
    outcome call c (applied k (trace st)) (completed k (trace st))
      (written k (trace st)).

(** What one settlement adds to the observations of its call. *)
Inductive settlement (call : nat → list value → completion value) (c : closure)
    (err : option exn) (c' : closure) :
    list (value * list value) → list (option exn * value) →
    list (string * value) → Prop :=
| settlement_silent :
    settlement call c err c' [] [] []
| settlement_failed e :
    requireError c = false → err = Some e →
    settlement call c err c' [] [(Some e, VUndefined)] []
| settlement_stuck args :
    requireError c = false → is_function (c_factory c) = false →
    settlement call c err c' [(c_factory c, args)] [] []
| settlement_threw f args e :
    requireError c = false → c_factory c = VFun f → call f args = Throw e →
    settlement call c err c' [(VFun f, args)] [] []
| settlement_defined f args module :
    requireError c = false → c_factory c = VFun f → call f args = Normal module →
    settlement call c err c' [(VFun f, args)] [(None, module)]
      [(c_moduleId c, module)].

(** ** Where settlements and scripts come from *)

(** What the dependency of a module [moduleId] that resolved to [target]
    may settle with: a fresh object for [exports] and [module], a value that
    was written to the registry under [target], or the error that names
    [target]. *)
Definition delivered (st : state) (target moduleId : string)
    (err : option exn) (v : value) : Prop :=
  match err with
  | Some e =>
      reserved target = false ∧ e = not_loaded target moduleId ∧ v = VUndefined
  | None =>
      if String.eqb target "exports" then
        ∃ l, v = VObj l ∧ heap st !! l = Some []
      else if String.eqb target "module" then
        ∃ l, v = VObj l ∧ heap st !! l = Some [("id", VStr moduleId)]
      else
        reserved target = false ∧ v ∈ writes target (trace st)
  end.

(** The script [q] was requested for a dependency of the call with record
    [c]. *)
Definition script_for (c : closure) (q : request) : Prop :=
  ∃ d, c_dependencies c !! r_index q = Some d ∧
       resolve_dependency (c_base c) d = Normal (r_id q) ∧
       reserved (r_id q) = false ∧ r_moduleId q = c_moduleId c ∧
       r_src q = "components/jquery/dist/" +:+ r_id q +:+ ".js".

Definition settled_for (st : state) (k i : nat) (err : option exn) (v : value) : Prop :=
  ∃ c d target,
    calls st !! k = Some c ∧ c_dependencies c !! i = Some d ∧
    resolve_dependency (c_base c) d = Normal target ∧
    delivered st target (c_moduleId c) err v.

Definition sourced (st : state) : Prop :=
  (∀ r q, scripts st !! r = Some (Some q) →
          ∃ c, calls st !! r_call q = Some c ∧ script_for c q) ∧
  (∀ k i err v, (i, (err, v)) ∈ settled k (trace st) → settled_for st k i err v).

(** From [st] to [st'] the trace and the heap have only gained entries, and
    no record has changed its static part. *)
Definition grown (st st' : state) : Prop :=
  (∃ tr, trace st' = trace st ++ tr) ∧
  (∃ h, heap st' = heap st ++ h) ∧
  (∀ k c, calls st !! k = Some c →
          ∃ c', calls st' !! k = Some c' ∧ static c' = static c).


(** ** Auxiliary notions for [_resolveRelativeId] *)

(** [s] less one trailing slash, when it has one. *)
Fixpoint chop_slash (s : string) : string :=
  match s with
  | EmptyString => EmptyString
  | String c r =>
      match r with
      | EmptyString => if Ascii.eqb c Str.slash then EmptyString else s
      | _ => String c (chop_slash r)
      end
  end.

(** [base] starts with a scheme, two slashes, a host and a slash, which
    make up [prefix]; [path] is what follows. *)
Definition has_authority (base prefix path : string) : Prop :=
  ∃ scheme host,
    prefix = scheme +:+ "//" +:+ host +:+ "/" ∧ base = prefix +:+ path ∧
    Str.contains Str.slash scheme = false ∧ Str.contains Str.slash host = false ∧
    host ≠ "".

(** The two parts [_resolveRelativeId] sees in a base: the scheme and
    authority, when the base starts with them, and the path. *)
Definition base_parts (base prefix path : string) : Prop :=
  has_authority base prefix path ∨
  (prefix = "" ∧ path = base ∧ ∀ p q, ¬ has_authority base p q).

(** The name of a file or directory: not empty, without slash, and neither
    [.] nor [..]. *)
Definition is_name (d : string) : Prop :=
  d ≠ "" ∧ Str.contains Str.slash d = false ∧ d ≠ "." ∧ d ≠ "..".

(** The first segment of [s], and what follows it (from the first slash
    on). *)
Fixpoint segment (s : string) : string :=
  match s with
  | EmptyString => EmptyString
  | String c r => if Ascii.eqb c Str.slash then EmptyString else String c (segment r)
  end.

Fixpoint after_segment (s : string) : string :=
  match s with
  | EmptyString => EmptyString
  | String c r => if Ascii.eqb c Str.slash then s else after_segment r
  end.

(** The scheme and authority [base] starts with ([scheme//host/], empty
    when [base] does not start so), and the path that follows. *)
Definition authority_and_path (base : string) : string * string :=
  match after_segment base with
  | String _ (String b r) =>
      if Ascii.eqb b Str.slash then
        match segment r, after_segment r with
        | String x host, String _ path =>
            (segment base +:+ "//" +:+ String x host +:+ "/", path)
        | _, _ => (EmptyString, base)
        end
      else (EmptyString, base)
  | _ => (EmptyString, base)
  end.

Definition authority (base : string) : string := (authority_and_path base).1.
Definition path_of (base : string) : string := (authority_and_path base).2.

(** The script [_require] appends for the dependency at position [i] of
    call [k], made by the module [moduleId], once it has resolved to
    [target]. *)
Definition script_of (target moduleId : string) (k i : nat) : request :=
  {| r_src := "components/jquery/dist/" +:+ target +:+ ".js";
     r_id := target; r_moduleId := moduleId; r_call := k; r_index := i |}.

(** What a call of [define] that has returned has done about a dependency
    that resolved to [target], a non-reserved id: looked it up in the
    registry as it was before the call, and either settled the position
    with what it found or appended a script for [target]. *)
Definition requested (st st' : state) (target moduleId : string) (k i : nat) : Prop :=
  match _modules st !! target with
  | Some v => Settled k i None v ∈ trace st'
  | None => Some (script_of target moduleId k i) ∈ scripts st'
  end.


(** * Properties *)

(** ** Stepping through monadic code *)

Ltac munfold :=
  unfold mbind, M_bind, bind, mret, M_ret, ret, throw, gets, modify, lift,
    emit, log in *.
Ltac msimpl := repeat (munfold; cbn in *).


(** ** Strings and the directory regular expression *)

Lemma take_append (p rest : string) :
  Str.take (String.length p) (p +:+ rest) = p.
Proof. induction p as [|c p IH]; simpl; [by destruct rest | by rewrite IH]. Qed.

Lemma length_append (p rest : string) :
  String.length (p +:+ rest) = String.length p + String.length rest.
Proof. induction p as [|c p IH]; simpl; [done | by rewrite IH]. Qed.

Lemma consumed_append (p rest : string) : Regex.consumed (p +:+ rest) rest = p.
Proof.
  unfold Regex.consumed. rewrite length_append.
  replace (String.length p + String.length rest - String.length rest)
    with (String.length p) by lia.
  apply take_append.
Qed.

Lemma not_slash_eq (c : ascii) :
  Regex.not_slash c = negb (Ascii.eqb Str.slash c).
Proof. unfold Regex.not_slash. by rewrite Ascii.eqb_sym. Qed.

(** [[^\/]*$] succeeds exactly on the strings without a slash. *)
Lemma star_not_slash_end {A} (s : string) (a : A) :
  Regex.star_greedy Regex.not_slash s
    (λ rest, match rest with EmptyString => Some a | _ => None end)
  = if Str.contains Str.slash s then None else Some a.
Proof.
  induction s as [|c s IH]; [done |].
  cbn [Regex.star_greedy Str.contains]. rewrite not_slash_eq.
  destruct (Ascii.eqb Str.slash c); cbn [negb]; [done |].
  rewrite IH. by destruct (Str.contains Str.slash s).
Qed.

(** [(.*?)] followed by something that succeeds exactly on the slash-free
    strings stops right after the last slash. *)
Lemma star_lazy_last_slash {A} (F : string → A) (t : string) (a : A) :
  Regex.star_lazy Regex.any t
    (λ rest, if Str.contains Str.slash rest then None else Some (F rest)) = Some a →
  ∃ p rest, t = p +:+ rest ∧ a = F rest ∧ Str.contains Str.slash rest = false ∧
            (p = "" ∨ ∃ p', p = p' +:+ "/").
Proof.
  induction t as [|c t IH]; cbn [Regex.star_lazy Str.contains].
  - intros [= <-]. exists "", "". auto.
  - destruct (Ascii.eqb Str.slash c) eqn:Hc.
    + destruct (Regex.any c); [|done]. intros H.
      destruct (IH H) as (p & rest & -> & -> & Hrest & Hp).
      exists (String c p), rest. repeat split; [done |]. right.
      destruct Hp as [-> | [p' ->]].
      * apply Ascii.eqb_eq in Hc as <-. by exists "".
      * by exists (String c p').
    + destruct (Str.contains Str.slash t) eqn:Ht.
      * destruct (Regex.any c); [|done]. intros H.
        destruct (IH H) as (p & rest & -> & -> & Hrest & Hp).
        exists (String c p), rest. repeat split; [done |]. right.
        destruct Hp as [-> | [p' ->]].
        -- change (Str.contains Str.slash rest = true) in Ht. congruence.
        -- by exists (String c p').
      * intros [= <-]. exists "", (String c t).
        cbn [Str.contains]. rewrite Hc, Ht. auto.
Qed.

Lemma star_lazy_ext {A} (p : ascii → bool) (s : string) (k k' : string → option A) :
  (∀ rest, k rest = k' rest) → Regex.star_lazy p s k = Regex.star_lazy p s k'.
Proof.
  intros Hk. induction s as [|c s IH]; cbn [Regex.star_lazy]; rewrite Hk; [done |].
  by rewrite IH.
Qed.

(** The base [define] computes is everything of the inferred id up to and
    including its last slash. *)
Lemma dirname_spec (inferredId base : string) :
  dirname inferredId = Normal base →
  ∃ rest, inferredId = base +:+ rest ∧ Str.contains Str.slash rest = false ∧
          (base = "" ∨ ∃ p, base = p +:+ "/").
Proof.
  unfold dirname, Regex.exec, Regex.re_dirname.
  cbn [Regex.run].
  rewrite (star_lazy_ext _ _ _
    (λ rest, if Str.contains Str.slash rest then None
             else Some [(1, Regex.consumed inferredId rest)]))
    by (intros rest; apply star_not_slash_end).
  destruct (Regex.star_lazy _ _ _) as [m|] eqn:Hm; [|done].
  apply (star_lazy_last_slash (λ rest, [(1, Regex.consumed inferredId rest)]))
    in Hm as (p & rest & -> & -> & Hrest & Hp).
  rewrite consumed_append. cbn. intros [= <-]. eauto.
Qed.

(** The resolution of the README's example, of an opaque id, of an id that
    climbs past the start of the base (the extra [..] is dropped), and of a
    base with an authority. *)
Example resolve_sibling :
  _resolveRelativeId "http://example.com/squid/" "./tentacles.html"
    = Normal "http://example.com/squid/tentacles.html".
Proof. by vm_compute. Qed.

Example resolve_opaque : _resolveRelativeId "http://example.com/squid/" "ink" = Normal "ink".
Proof. by vm_compute. Qed.

Example resolve_past_start : _resolveRelativeId "a/" "../../x" = Normal "x".
Proof. by vm_compute. Qed.

Example resolve_keeps_authority :
  _resolveRelativeId "http://example.com/squid/" "../../../ink"
    = Normal "http://example.com/ink".
Proof. by vm_compute. Qed.

Example dirname_of_bare_name : dirname "thingy" = Normal "".
Proof. by vm_compute. Qed.

(** ** What never changes in a closure record *)

#[local] Instance keeps_calls_preorder : PreOrder keeps_calls.
Proof.
  split.
  - intros st. split; eauto.
  - intros st1 st2 st3 [Hl1 H1] [Hl2 H2]. split; [congruence |].
    intros k c Hc. destruct (H1 k c Hc) as (c' & Hc' & Hs).
    destruct (H2 k c' Hc') as (c'' & Hc'' & Hs'). exists c''. split; congruence.
Qed.

Lemma keeps_calls_same (st st' : state) :
  calls st' = calls st → keeps_calls st st'.
Proof. intros H. split; [by rewrite H |]. intros k c Hc. rewrite H. eauto. Qed.

Lemma keeps_calls_update (st st' : state) (k : nat) (c c' : closure) :
  calls st !! k = Some c → calls st' = <[k := c']> (calls st) →
  static c' = static c → keeps_calls st st'.
Proof.
  intros Hc Hst' Hs. unfold keeps_calls. rewrite Hst'.
  split; [by rewrite length_insert |].
  intros k' c0 Hc0. destruct (decide (k' = k)) as [->|Hne].
  - exists c'. rewrite list_lookup_insert_eq by (by eapply lookup_lt_Some).
    split; congruence.
  - exists c0. by rewrite list_lookup_insert_ne.
Qed.

Section Frame.
Variable URL : string → string → option string.
Variable call : nat → list value → completion value.

Lemma on_dependency_keeps k i id err v st :
  keeps_calls st (on_dependency call k i id err v st).2.
Proof.
  unfold on_dependency, define_callback, apply. msimpl.
  destruct (calls st !! k) as [c|] eqn:Hc; msimpl; [|by apply keeps_calls_same].
  destruct (requireError c); msimpl; [by apply keeps_calls_same |].
  destruct err as [e|]; msimpl.
  { (eapply (keeps_calls_update _ _ k c); [done | reflexivity | done]). }
  destruct (_ =? 0)%Z; msimpl; [|(eapply (keeps_calls_update _ _ k c); [done | reflexivity | done])].
  destruct (c_factory c); msimpl; try (eapply (keeps_calls_update _ _ k c); [done | reflexivity | done]).
  destruct (call _ _); msimpl; (eapply (keeps_calls_update _ _ k c); [done | reflexivity | done]).
Qed.

Lemma _require_keeps id moduleId k i st :
  keeps_calls st (_require call id moduleId k i st).2.
Proof.
  unfold _require, new_object, loadScript.
  destruct (String.eqb id "exports"); msimpl.
  { etrans; [|apply on_dependency_keeps]. by apply keeps_calls_same. }
  destruct (String.eqb id "require"); msimpl; [done |].
  destruct (String.eqb id "module"); msimpl.
  { etrans; [|apply on_dependency_keeps]. by apply keeps_calls_same. }
  destruct (_modules st !! id); msimpl.
  - apply on_dependency_keeps.
  - by apply keeps_calls_same.
Qed.

Lemma request_dependency_keeps k moduleId base d i st :
  keeps_calls st (request_dependency call k moduleId base d i st).2.
Proof.
  unfold request_dependency. msimpl.
  destruct (resolve_dependency base d); msimpl; [apply _require_keeps | done].
Qed.

Lemma forEach_keeps {A} (f : A → nat → M unit) (xs : list A) i st :
  (∀ x j st, keeps_calls st (f x j st).2) →
  keeps_calls st (forEach f xs i st).2.
Proof.
  intros Hf. revert i st. induction xs as [|x xs IH]; intros i st; msimpl; [done |].
  specialize (Hf x i st). destruct (f x i st) as [[[]|e] st1]; msimpl; [|done].
  etrans; [exact Hf | apply IH].
Qed.

Lemma onload_keeps r st : keeps_calls st (onload call r st).2.
Proof.
  unfold onload. msimpl.
  destruct (scripts st !! r) as [[q|]|]; msimpl; try done.
  destruct (truthy _); msimpl;
    (etrans; [|apply on_dependency_keeps]); by apply keeps_calls_same.
Qed.
End Frame.

Section DefineClosure.
Variable URL : string → string → option string.
Variable call : nat → list value → completion value.

(** The closure record a call of [define] creates holds the id of the
    call and the directory of the inferred id. *)
Lemma define_closure h id dependencies factory st r st' (k : nat) c :
  define URL call h id dependencies factory st = (r, st') →
  length (calls st) ≤ k → calls st' !! k = Some c →
  ∃ inferredId,
    _inferModuleId URL h = Normal inferredId ∧
    dirname inferredId = Normal (c_base c) ∧
    c_moduleId c = match id with VStr s => s | _ => inferredId end ∧
    c_factory c = js_or (js_or factory dependencies) id ∧
    k = length (calls st).
Proof.
  intros Hdef Hk Hc.
  assert (Hst : calls st' = calls st → False).
  { intros E. rewrite E in Hc. apply lookup_lt_Some in Hc. lia. }
  unfold define in Hdef. msimpl.
  destruct (_inferModuleId URL h) as [inferredId|e]; msimpl;
    [|by inversion Hdef; subst].
  destruct (Str.contains _ _); msimpl; [by inversion Hdef; subst |].
  destruct (bool_decide _); msimpl; [by inversion Hdef; subst |].
  destruct (dirname inferredId) as [base|e] eqn:Hbase; msimpl;
    [|by inversion Hdef; subst].
  exists inferredId. split; [done |].
  unfold _runFactory in Hdef. msimpl.
  match type of Hdef with
  | context [set_calls ?f st] => set (st1 := set_calls f st) in *
  end.
  set (id' := match id with VStr s => s | _ => inferredId end) in *.
  set (deps := match dependencies with VArr d => d | _ => _ end) in *.
  set (fac := js_or _ id) in *.
  assert (Hkeep : keeps_calls st1 st').
  { destruct (negb (is_function fac)).
    - apply (f_equal snd) in Hdef. cbn in Hdef. subst st'.
      apply keeps_calls_same. unfold define_callback. by msimpl.
    - destruct (Z.of_nat (length deps) =? 0)%Z.
      + apply (f_equal snd) in Hdef. cbn in Hdef. subst st'.
        apply keeps_calls_same. unfold apply, define_callback. msimpl.
        destruct fac; msimpl; try done. by destruct (call _ _).
      + apply (f_equal snd) in Hdef. cbn in Hdef. subst st'.
        apply forEach_keeps. intros. apply request_dependency_keeps. }
  destruct Hkeep as [Hlen Hkeep].
  assert (k = length (calls st)) as ->.
  { apply lookup_lt_Some in Hc. rewrite Hlen in Hc. subst st1. cbn in Hc.
    rewrite length_app in Hc. cbn in Hc. lia. }
  destruct (Hkeep (length (calls st))
    {| c_moduleId := id'; c_base := base; c_dependencies := deps;
       c_factory := fac;
       unresolvedDependencies := Z.of_nat (length deps);
       modules := []; requireError := false |}) as (c' & Hc' & Hs).
  { subst st1. cbn. by rewrite list_lookup_middle. }
  rewrite Hc in Hc'. injection Hc' as <-. unfold static in Hs. cbn in Hs.
  injection Hs as Hm Hb _ Hf. by rewrite Hm, Hb, Hf.
Qed.
End DefineClosure.

Section Single.
Variable URL : string → string → option string.
Variable call : nat → list value → completion value.

Lemma reserved_false (id : string) :
  reserved id = false →
  String.eqb id "exports" = false ∧ String.eqb id "require" = false ∧
  String.eqb id "module" = false.
Proof.
  unfold reserved. intros H.
  apply orb_false_elim in H as [H H3]. apply orb_false_elim in H as [H1 H2].
  auto.
Qed.

(** An id that is neither reserved nor registered is handed to
    [loadScript], under the fixed directory. *)
Lemma _require_load id moduleId k i st :
  reserved id = false → _modules st !! id = None →
  _require call id moduleId k i st =
    (Normal tt,
     set_scripts (λ l, l ++ [Some
         {| r_src := "components/jquery/dist/" +:+ id +:+ ".js";
            r_id := id; r_moduleId := moduleId; r_call := k; r_index := i |}])
       (set_trace
          (λ t, t ++ [ScriptAppended ("components/jquery/dist/" +:+ id +:+ ".js")])
          st)).
Proof.
  intros (H1 & H2 & H3)%reserved_false Hid.
  unfold _require, loadScript. rewrite H1, H2, H3. munfold. cbv beta.
  by rewrite Hid.
Qed.
End Single.

(** ** Arrays with holes *)

Lemma array_set_length l i v : length (array_set l i v) = length l `max` S i.
Proof.
  unfold array_set. case_decide.
  - rewrite length_insert. lia.
  - rewrite !length_app, length_replicate. cbn. lia.
Qed.

Lemma read_array_set l i v j :
  read (array_set l i v) j = if decide (j = i) then Some v else read l j.
Proof.
  unfold read, array_set. case_decide as Hi.
  - case_decide as Hj.
    + subst. by rewrite list_lookup_insert_eq.
    + by rewrite list_lookup_insert_ne.
  - case_decide as Hj.
    + subst. rewrite lookup_app_r by lia.
      rewrite lookup_app_r by (rewrite length_replicate; lia).
      rewrite length_replicate.
      by replace (i - length l - (i - length l)) with 0 by lia.
    + destruct (decide (j < length l)) as [Hlt|Hge].
      * by rewrite lookup_app_l.
      * rewrite (lookup_ge_None_2 l j) by lia.
        rewrite lookup_app_r by lia.
        destruct (decide (j < i)) as [Hji|Hji].
        -- rewrite lookup_app_l by (rewrite length_replicate; lia).
           by rewrite lookup_replicate_2 by lia.
        -- rewrite lookup_app_r by (rewrite length_replicate; lia).
           rewrite length_replicate.
           rewrite lookup_ge_None_2; [done | cbn; lia].
Qed.

(** An array whose slots are all filled reads back as the list of its
    values. *)
Lemma arguments_filled (l : list (option value)) (vs : list value) :
  length l ≤ length vs →
  (∀ i v, vs !! i = Some v → read l i = Some v) →
  arguments l = vs.
Proof.
  intros Hlen Hread. apply list_eq. intros i. unfold arguments.
  rewrite list_lookup_fmap.
  destruct (vs !! i) as [v|] eqn:Hv.
  - specialize (Hread i v Hv). unfold read in Hread.
    by destruct (l !! i) as [[w|]|]; simplify_eq.
  - apply lookup_ge_None in Hv. by rewrite lookup_ge_None_2 by lia.
Qed.

(** ** Counting distinct positions *)

Lemma NoDup_bounded_length (l : list nat) (n : nat) :
  NoDup l → (∀ i, i ∈ l → i < n) → length l ≤ n.
Proof.
  intros Hnd Hb. rewrite <-(length_seq n 0).
  apply submseteq_length, NoDup_submseteq; [done |].
  intros i Hi. apply elem_of_seq. specialize (Hb i Hi). lia.
Qed.

(** ** One settlement keeps the invariant of its call *)

Lemma frontier_le (c : closure) : frontier c ≤ length (c_dependencies c).
Proof. unfold frontier. destruct (is_function _); lia. Qed.

Lemma frontier_pos (c : closure) (i : nat) :
  i < frontier c → is_function (c_factory c) = true.
Proof. unfold frontier. destruct (is_function _); [done | lia]. Qed.

Lemma errors_app S1 S2 : errors (S1 ++ S2) = errors S1 ++ errors S2.
Proof. apply omap_app. Qed.

(** Positions that are requested and one that is not: there is room for
    one more. *)
Lemma settled_room (c : closure) J (S : list (nat * (option exn * value))) P i :
  J ≤ frontier c → NoDup (S.*1 ++ P) → (∀ j, j ∈ S.*1 ++ P → j < J) →
  i < J → i ∉ S.*1 ++ P →
  length S < length (c_dependencies c).
Proof.
  intros HJ Hnd Hb Hi Hni. pose proof (frontier_le c).
  assert (length (i :: S.*1 ++ P) ≤ J) as Hlen.
  { apply NoDup_bounded_length; [by constructor |].
    intros j [->|Hj]%elem_of_cons; auto. }
  cbn in Hlen. rewrite length_app, length_fmap in Hlen. lia.
Qed.

Lemma call_inv_settle c J S P A0 C0 W0 i err v c' A C W :
  call_inv c J S P A0 C0 W0 → i < J → i ∉ S.*1 ++ P →
  settle_case c i err v c' A C W →
  call_inv c' J (S ++ [(i, (err, v))]) P (A0 ++ A) (C0 ++ C) (W0 ++ W).
Proof.
  intros [HJ Hnd Hb Hlen Hok Hfail] Hi Hni Hcase.
  pose proof (settled_room c J S P i HJ Hnd Hb Hi Hni) as Hroom.
  pose proof (frontier_pos c i ltac:(lia)) as Hfun.
  pose proof (frontier_le c) as Hfl.
  assert (Hnd' : NoDup ((S ++ [(i, (err, v))]).*1 ++ P)).
  { rewrite fmap_app. cbn. rewrite <-(assoc_L (++)). cbn.
    apply NoDup_app in Hnd as (HS & HSP & HP).
    apply NoDup_app. split_and!; [done | | ].
    - intros j Hj [->|Hj']%elem_of_cons; [|by eapply HSP].
      apply Hni, elem_of_app. auto.
    - constructor; [|done]. intros Hp. apply Hni, elem_of_app. auto. }
  assert (Hb' : ∀ j, j ∈ (S ++ [(i, (err, v))]).*1 ++ P → j < J).
  { intros j. rewrite fmap_app. cbn. rewrite !elem_of_app, list_elem_of_singleton.
    intros [[Hj| ->]|Hj]; [apply Hb, elem_of_app; auto | done |
                           apply Hb, elem_of_app; auto]. }
  unfold settle_case in Hcase.
  destruct (requireError c) eqn:Hre.
  - (* a failure has been reported: the settlement is dropped *)
    destruct Hcase as (-> & -> & -> & ->). rewrite !app_nil_r.
    split; try done; [congruence |].
    intros _. destruct (Hfail eq_refl) as (e & He & HA & HC & HW).
    exists e. split_and!; try done.
    rewrite errors_app. by destruct (errors S).
  - destruct err as [e|].
    + (* the first failure *)
      destruct Hcase as (-> & -> & -> & ->). rewrite !app_nil_r.
      destruct (Hok eq_refl) as (He & _ & _ & Hnone & _).
      destruct (Hnone Hfun Hroom) as (-> & -> & ->).
      split; try done. intros _. exists e. split_and!; try done.
      rewrite errors_app, He. done.
    + (* a success *)
      destruct Hcase as [-> Hcase].
      destruct (Hok eq_refl) as (He & Hread & Hun & Hnone & _).
      destruct (Hnone Hfun Hroom) as (-> & -> & ->).
      assert (Hun' : unresolvedDependencies (resolve_slot i v c)
        = (Z.of_nat (length (c_dependencies c))
           - Z.of_nat (length (S ++ [(i, (@None exn, v))])))%Z).
      { cbn. rewrite Hun, length_app. cbn. lia. }
      split; try done.
      * cbn. rewrite array_set_length. lia.
      * intros _. split_and!.
        -- rewrite errors_app, He. done.
        -- intros j w. cbn. rewrite read_array_set, elem_of_app,
             list_elem_of_singleton. case_decide as Hj.
           ++ subst j. split.
              ** intros [= ->]. by right.
              ** intros [Hin|[= ->]]; [|done]. exfalso. apply Hni, elem_of_app.
                 left. apply (list_elem_of_fmap_2 fst _ (i, (None, w))), Hin.
           ++ rewrite Hread. split; [auto |]. intros [Hin|[= ->]]; done.
        -- done.
        -- cbn [c_factory c_dependencies resolve_slot]. intros _ Hlt.
           destruct (_ =? _)%Z eqn:Hz; [|by destruct Hcase as (-> & -> & ->)].
           apply Z.eqb_eq in Hz. rewrite Hun' in Hz. lia.
        -- cbn [c_factory c_dependencies resolve_slot]. intros _ Heq.
           destruct (_ =? _)%Z eqn:Hz; [by rewrite Hcase |].
           apply Z.eqb_neq in Hz. rewrite Hun' in Hz. lia.
      * cbn. congruence.
Qed.

(** ** The loader keeps its invariant *)

Ltac views :=
  unfold settled, applied, completed, written; cbn;
  rewrite ?omap_app; cbn;
  repeat case_decide; subst; try done;
  rewrite ?app_nil_r, <-?(assoc_L (++)); try done.

Lemma silent_snoc k tr e :
  silent e →
  settled k (tr ++ [e]) = settled k tr ∧ applied k (tr ++ [e]) = applied k tr ∧
  completed k (tr ++ [e]) = completed k tr ∧ written k (tr ++ [e]) = written k tr.
Proof.
  intros He. unfold settled, applied, completed, written.
  rewrite !omap_app. destruct e; try done; cbn; by rewrite !app_nil_r.
Qed.

Lemma direct_views k evs tr :
  Forall (direct_event k) evs →
  ∀ k0, settled k0 (tr ++ evs) = settled k0 tr ∧
        (k0 ≠ k →
         applied k0 (tr ++ evs) = applied k0 tr ∧
         completed k0 (tr ++ evs) = completed k0 tr ∧
         written k0 (tr ++ evs) = written k0 tr).
Proof.
  intros Hevs k0. unfold settled, applied, completed, written.
  rewrite !omap_app.
  induction Hevs as [|e evs He _ IH]; cbn; [by rewrite !app_nil_r |].
  destruct IH as (IH1 & IH2).
  destruct e; cbn in *; try done; subst;
    (split; [done |]; intros Hne; specialize (IH2 Hne);
     rewrite decide_False by done; done).
Qed.

Section Invariant.
Variable URL : string → string → option string.
Variable call : nat → list value → completion value.

(** What one settlement does, read off the code of the callback. *)
Lemma on_dependency_effect k i id err v st c :
  calls st !! k = Some c →
  ∃ c' A C W,
    settle_case c i err v c' A C W ∧
    calls (on_dependency call k i id err v st).2 = <[k := c']> (calls st) ∧
    scripts (on_dependency call k i id err v st).2 = scripts st ∧
    ∀ k0,
      settled k0 (trace (on_dependency call k i id err v st).2)
        = settled k0 (trace st) ++ (if decide (k = k0) then [(i, (err, v))] else []) ∧
      applied k0 (trace (on_dependency call k i id err v st).2)
        = applied k0 (trace st) ++ (if decide (k = k0) then A else []) ∧
      completed k0 (trace (on_dependency call k i id err v st).2)
        = completed k0 (trace st) ++ (if decide (k = k0) then C else []) ∧
      written k0 (trace (on_dependency call k i id err v st).2)
        = written k0 (trace st) ++ (if decide (k = k0) then W else []).
Proof.
  intros Hc. unfold on_dependency, define_callback, apply, settle_case.
  msimpl. rewrite Hc. msimpl.
  destruct (requireError c) eqn:Hre; msimpl.
  { exists c, [], [], []. split_and!; try done.
    - by rewrite list_insert_id.
    - intros k0. split_and!; views. }
  destruct err as [e|]; msimpl.
  { exists (set_requireError true c), [], [(Some e, VUndefined)], [].
    split_and!; try done. intros k0. split_and!; views. }
  destruct (_ =? 0)%Z eqn:Hz; msimpl.
  2:{ exists (resolve_slot i v c), [], [], [].
      cbn [unresolvedDependencies resolve_slot]. rewrite Hz.
      split_and!; try done. intros k0. split_and!; views. }
  destruct (c_factory c) as [| | | | | | |f] eqn:Hf; msimpl;
    try (exists (resolve_slot i v c),
           [(c_factory c, arguments (array_set (modules c) i v))], [], [];
         cbn [unresolvedDependencies resolve_slot]; rewrite Hz, Hf; split_and!; try done; intros k0; split_and!; views).
  destruct (call f _) as [m|e]; msimpl.
  - exists (resolve_slot i v c),
      [(VFun f, arguments (array_set (modules c) i v))],
      [(None, m)], [(c_moduleId c, m)].
    cbn [unresolvedDependencies resolve_slot]. rewrite Hz. split_and!; try done. intros k0. split_and!; views.
  - exists (resolve_slot i v c),
      [(VFun f, arguments (array_set (modules c) i v))], [], [].
    cbn [unresolvedDependencies resolve_slot]. rewrite Hz. split_and!; try done. intros k0. split_and!; views.
Qed.

Lemma settle_case_static c i err v c' A C W :
  settle_case c i err v c' A C W → static c' = static c.
Proof.
  unfold settle_case. destruct (requireError c); [by intros (-> & _) |].
  destruct err; [by intros (-> & _) | by intros (-> & _)].
Qed.

Lemma frontier_static c c' : static c' = static c → frontier c' = frontier c.
Proof. unfold static, frontier. by intros [= _ _ -> ->]. Qed.

Lemma bound_static o k c c' : static c' = static c → bound o k c' = bound o k c.
Proof.
  intros Hs. unfold bound. rewrite (frontier_static _ _ Hs).
  by destruct o as [[]|].
Qed.

(** Once a failure has been reported, a settlement leaves no mark but
    its own. *)
Lemma on_dependency_dropped k i id err v st c :
  calls st !! k = Some c → requireError c = true →
  on_dependency call k i id err v st
    = (Normal tt, set_trace (λ t, t ++ [Settled k i err v]) st).
Proof.
  intros Hc Hre. unfold on_dependency. munfold. cbn. by rewrite Hc, Hre.
Qed.

Lemma on_dependency_inv o k i id err v st c :
  loader_inv o st → calls st !! k = Some c → i < bound o k c →
  i ∉ (settled k (trace st)).*1 ++ pending k (scripts st) →
  loader_inv o (on_dependency call k i id err v st).2.
Proof.
  intros [Hfresh Hinv] Hc Hi Hni.
  destruct (on_dependency_effect k i id err v st c Hc)
    as (c' & A & C & W & Hcase & Hcalls & Hscripts & Hviews).
  pose proof (lookup_lt_Some _ _ _ Hc) as Hk.
  split.
  - intros k0 Hk0. rewrite Hcalls, length_insert in Hk0.
    destruct (Hviews k0) as (-> & -> & -> & ->). rewrite Hscripts.
    destruct (decide (k = k0)); [lia |]. rewrite !app_nil_r. by apply Hfresh.
  - intros k0 c0 Hc0. rewrite Hcalls in Hc0.
    destruct (Hviews k0) as (-> & -> & -> & ->). rewrite Hscripts.
    destruct (decide (k = k0)) as [<-|Hne].
    + rewrite list_lookup_insert_eq in Hc0 by done. injection Hc0 as <-.
      rewrite (bound_static o k c c') by (by eapply settle_case_static).
      eapply call_inv_settle; eauto.
    + rewrite list_lookup_insert_ne in Hc0 by done.
      rewrite !app_nil_r. by apply Hinv.
Qed.

(** *** Requests *)

Lemma call_inv_weaken c J J' S P A C W :
  call_inv c J S P A C W → J ≤ J' → J' ≤ frontier c →
  call_inv c J' S P A C W.
Proof.
  intros [HJ Hnd Hb Hlen Hok Hfail] HJJ' HJ'. split; try done.
  intros i Hi. specialize (Hb i Hi). lia.
Qed.

Lemma call_inv_request c j S P A C W :
  call_inv c j S P A C W → j < frontier c →
  call_inv c (Datatypes.S j) S (P ++ [j]) A C W.
Proof.
  intros [HJ Hnd Hb Hlen Hok Hfail] Hj. split; try done.
  - rewrite (assoc_L (++)). apply NoDup_app. split_and!; [done | | apply NoDup_singleton].
    intros i Hi ->%list_elem_of_singleton. specialize (Hb _ Hi). lia.
  - intros i. rewrite (assoc_L (++)), elem_of_app, list_elem_of_singleton.
    intros [Hi| ->]; [specialize (Hb i Hi)|]; lia.
Qed.

Lemma call_inv_unrequest c J S P1 P2 i A C W :
  call_inv c J S (P1 ++ i :: P2) A C W →
  call_inv c J S (P1 ++ P2) A C W ∧ (i ∉ S.*1 ++ P1 ++ P2) ∧ i < J.
Proof.
  intros [HJ Hnd Hb Hlen Hok Hfail].
  assert (Hperm : (S.*1 ++ P1 ++ i :: P2) ≡ₚ (i :: S.*1 ++ P1 ++ P2)).
  { rewrite !(assoc_L (++)). by rewrite <-Permutation_middle. }
  rewrite Hperm in Hnd. apply NoDup_cons in Hnd as [Hni Hnd].
  split_and!; [split; try done | done |].
  - intros j Hj. apply Hb. rewrite Hperm. by right.
  - apply Hb. rewrite Hperm. by left.
Qed.

Lemma pending_remove k (ss : list (option request)) r q :
  ss !! r = Some (Some q) →
  ∃ P1 P2,
    pending k ss = P1 ++ (if decide (r_call q = k) then [r_index q] else []) ++ P2 ∧
    pending k (<[r := None]> ss) = P1 ++ P2.
Proof.
  intros Hr. exists (pending k (take r ss)), (pending k (drop (Datatypes.S r) ss)).
  rewrite insert_take_drop by (by eapply lookup_lt_Some).
  rewrite <-(take_drop_middle ss r (Some q) Hr) at 1.
  unfold pending. rewrite !omap_app. cbn. by case_decide.
Qed.

Lemma loader_inv_advance k j st c :
  loader_inv (Some (k, j)) st → calls st !! k = Some c → j < frontier c →
  loader_inv (Some (k, S j)) st.
Proof.
  intros [Hfresh Hinv] Hc Hj. split; [done |]. intros k0 c0 Hc0.
  specialize (Hinv k0 c0 Hc0). unfold bound in *. case_decide; [|done].
  subst k0. rewrite Hc in Hc0. injection Hc0 as <-.
  eapply call_inv_weaken; [done | lia | lia].
Qed.

Lemma loader_inv_finish k j st : loader_inv (Some (k, j)) st → loader_inv None st.
Proof.
  intros [Hfresh Hinv]. split; [done |]. intros k0 c0 Hc0.
  specialize (Hinv k0 c0 Hc0). unfold bound in *. case_decide; [|done].
  eapply call_inv_weaken; [done | apply Hinv | done].
Qed.

Lemma loader_inv_position k j st c :
  loader_inv (Some (k, j)) st → calls st !! k = Some c →
  j ∉ (settled k (trace st)).*1 ++ pending k (scripts st).
Proof.
  intros [_ Hinv] Hc Hin. specialize (Hinv k c Hc).
  apply (inv_bound _ _ _ _ _ _ _ Hinv) in Hin. unfold bound in Hin.
  rewrite decide_True in Hin by done. lia.
Qed.

Lemma loadScript_inv k j st c q :
  loader_inv (Some (k, j)) st → calls st !! k = Some c → j < frontier c →
  r_call q = k → r_index q = j →
  loader_inv (Some (k, S j)) (loadScript q st).2.
Proof.
  intros [Hfresh Hinv] Hc Hj Hqk Hqj. unfold loadScript. msimpl. split.
  - intros k0 Hk0. cbn in *. destruct (Hfresh k0 Hk0) as (? & HP & ? & ? & ?).
    destruct (silent_snoc k0 (trace st) (ScriptAppended (r_src q)) I)
      as (-> & -> & -> & ->).
    split_and!; try done.
    unfold pending in *. rewrite omap_app, HP. cbn.
    pose proof (lookup_lt_Some _ _ _ Hc). case_decide; [lia | done].
  - intros k0 c0 Hc0. cbn in *. specialize (Hinv k0 c0 Hc0).
    destruct (silent_snoc k0 (trace st) (ScriptAppended (r_src q)) I)
      as (-> & -> & -> & ->).
    unfold pending at 1. rewrite omap_app. cbn. fold (pending k0 (scripts st)).
    unfold bound in *. rewrite Hqk. destruct (decide (k = k0)) as [<-|Hne].
    + rewrite decide_True in * by done. rewrite Hc in Hc0. injection Hc0 as <-.
      rewrite Hqj. by apply call_inv_request.
    + rewrite decide_False in * by done. by rewrite app_nil_r.
Qed.

Lemma _require_inv id moduleId k j st c :
  loader_inv (Some (k, j)) st → calls st !! k = Some c → j < frontier c →
  loader_inv (Some (k, S j)) (_require call id moduleId k j st).2.
Proof.
  intros Hinv Hc Hj.
  pose proof (loader_inv_position _ _ _ _ Hinv Hc) as Hpos.
  pose proof (loader_inv_advance _ _ _ _ Hinv Hc Hj) as Hadv.
  assert (Hsettle : ∀ f v,
    loader_inv (Some (k, S j)) (on_dependency call k j id None v (set_heap f st)).2).
  { intros f v. eapply on_dependency_inv; [exact Hadv | exact Hc | |exact Hpos].
    unfold bound. rewrite decide_True by done. lia. }
  unfold _require, new_object.
  destruct (String.eqb id "exports"); msimpl; [apply Hsettle |].
  destruct (String.eqb id "require"); msimpl; [done |].
  destruct (String.eqb id "module"); msimpl; [apply Hsettle |].
  destruct (_modules st !! id); msimpl.
  - apply (Hsettle (λ h, h)).
  - by eapply loadScript_inv.
Qed.

Lemma forEach_inv moduleId base xs k j st c :
  loader_inv (Some (k, j)) st → calls st !! k = Some c →
  j + length xs ≤ frontier c →
  loader_inv None (forEach (request_dependency call k moduleId base) xs j st).2.
Proof.
  revert j st c. induction xs as [|d xs IH]; intros j st c Hinv Hc Hj; msimpl.
  { by eapply loader_inv_finish. }
  unfold request_dependency at 1. msimpl.
  destruct (resolve_dependency base d) as [target|e]; msimpl;
    [|by eapply loader_inv_finish].
  pose proof (_require_inv target moduleId k j st c Hinv Hc ltac:(lia)) as Hinv'.
  pose proof (_require_keeps call target moduleId k j st) as [_ Hkeep].
  destruct (Hkeep k c Hc) as (c' & Hc' & Hs).
  destruct (_require call target moduleId k j st) as [[[]|e] st1]; msimpl.
  - eapply IH; [exact Hinv' | exact Hc' |].
    rewrite (frontier_static _ _ Hs). lia.
  - by eapply loader_inv_finish.
Qed.

(** *** A new call *)

Lemma call_inv_new moduleId base dependencies factory :
  call_inv
    {| c_moduleId := moduleId; c_base := base; c_dependencies := dependencies;
       c_factory := factory;
       unresolvedDependencies := Z.of_nat (length dependencies);
       modules := []; requireError := false |} 0 [] [] [] [] [].
Proof.
  split; cbn; try done; try lia.
  - apply NoDup_nil_2.
  - intros i Hi. by apply elem_of_nil in Hi.
  - intros _. split_and!; try done; try lia.
    intros i v. split; [done |]. intros Hi. by apply elem_of_nil in Hi.
Qed.

(** Once the invariant holds of a call that requests nothing, its factory
    and its completion callback may run: the invariant says nothing of
    them. *)
Lemma call_inv_direct c A C W A' C' W' :
  call_inv c 0 [] [] A C W → frontier c = 0 ∨ c_dependencies c = [] →
  call_inv c 0 [] [] A' C' W'.
Proof.
  intros [HJ Hnd Hb Hlen Hok Hfail] H0. split; try done.
  - intros Hre. destruct (Hok Hre) as (He & Hread & Hun & _ & _).
    split_and!; try done.
    + intros Hf Hlt. exfalso. destruct H0 as [H0|H0].
      * unfold frontier in H0. rewrite Hf in H0. cbn in Hlt. lia.
      * rewrite H0 in Hlt. cbn in Hlt. lia.
    + cbn. lia.
  - intros Hre. by destruct (Hfail Hre) as (e & He & _).
Qed.

Lemma loader_inv_push st c0 :
  loader_inv None st →
  call_inv c0 0 [] [] [] [] [] →
  loader_inv (Some (length (calls st), 0)) (set_calls (λ l, l ++ [c0]) st).
Proof.
  intros [Hfresh Hinv] Hnew. split.
  - intros k0 Hk0. cbn in *. rewrite length_app in Hk0. cbn in Hk0.
    apply Hfresh. lia.
  - intros k0 c Hc. cbn in *. unfold bound.
    apply lookup_snoc_Some in Hc as [[Hlt Hc]|[-> <-]].
    + rewrite decide_False by lia. by apply Hinv.
    + rewrite decide_True by done.
      by destruct (Hfresh (length (calls st)) ltac:(lia)) as (-> & -> & -> & -> & ->).
Qed.

Lemma loader_inv_direct k st st' c evs :
  loader_inv (Some (k, 0)) st → calls st !! k = Some c →
  frontier c = 0 ∨ c_dependencies c = [] →
  calls st' = calls st → scripts st' = scripts st →
  trace st' = trace st ++ evs → Forall (direct_event k) evs →
  loader_inv None st'.
Proof.
  intros [Hfresh Hinv] Hc H0 Hcalls Hscripts Htrace Hevs.
  pose proof (lookup_lt_Some _ _ _ Hc) as Hk.
  pose proof (direct_views k evs (trace st) Hevs) as Hviews. split.
  - intros k0 Hk0. rewrite Hcalls in Hk0. rewrite Hscripts, Htrace.
    destruct (Hviews k0) as (-> & Hother).
    destruct (Hother ltac:(lia)) as (-> & -> & ->). by apply Hfresh.
  - intros k0 c0 Hc0. rewrite Hcalls in Hc0. rewrite Hscripts, Htrace.
    specialize (Hinv k0 c0 Hc0). destruct (Hviews k0) as (-> & Hother).
    unfold bound in *. destruct (decide (k0 = k)) as [->|Hne].
    + rewrite Hc in Hc0. injection Hc0 as <-.
      assert (HS : settled k (trace st) = [] ∧ pending k (scripts st) = []).
      { pose proof (inv_bound _ _ _ _ _ _ _ Hinv) as Hb.
        destruct (settled k (trace st)) as [|[i x] S]; cbn in *.
        - destruct (pending k (scripts st)) as [|i P]; [done |].
          specialize (Hb i ltac:(by left)). lia.
        - specialize (Hb i ltac:(by left)). lia. }
      destruct HS as [HS HP]. rewrite HS, HP in *.
      eapply call_inv_weaken; [by eapply call_inv_direct | lia | lia].
    + destruct (Hother Hne) as (-> & -> & ->). done.
Qed.

Lemma _runFactory_inv moduleId base dependencies factory st :
  loader_inv None st →
  loader_inv None (_runFactory call moduleId base dependencies factory st).2.
Proof.
  intros Hinv. unfold _runFactory. msimpl.
  set (c0 := {| c_moduleId := moduleId; c_base := base;
                c_dependencies := dependencies; c_factory := factory;
                unresolvedDependencies := Z.of_nat (length dependencies);
                modules := []; requireError := false |}).
  pose proof (loader_inv_push st c0 Hinv (call_inv_new _ _ _ _)) as Hpush.
  assert (Hc0 : calls (set_calls (λ l, l ++ [c0]) st) !! length (calls st)
                = Some c0).
  { cbn. by apply list_lookup_middle. }
  destruct (is_function factory) eqn:Hf; msimpl.
  2:{ unfold define_callback. msimpl.
      eapply (loader_inv_direct _ _ _ c0
        [Completed (length (calls st)) None factory;
         Written (length (calls st)) moduleId factory]);
        [exact Hpush | exact Hc0 | | done | done | cbn | ].
      - left. unfold frontier. cbn. by rewrite Hf.
      - by rewrite <-(assoc_L (++)).
      - by repeat constructor. }
  destruct (Z.of_nat (length dependencies) =? 0)%Z eqn:Hz; msimpl.
  - apply Z.eqb_eq in Hz.
    assert (dependencies = []) as Hnil by (destruct dependencies; cbn in *; [done | lia]).
    unfold apply, define_callback. msimpl.
    destruct factory as [| | | | | | |f]; try done. msimpl.
    destruct (call f []) as [m|e]; msimpl.
    + eapply (loader_inv_direct _ _ _ c0
        [Applied (length (calls st)) (VFun f) [];
         Completed (length (calls st)) None m;
         Written (length (calls st)) moduleId m]);
        [exact Hpush | exact Hc0 | by right | done | done | cbn | ].
      * by rewrite <-!(assoc_L (++)).
      * by repeat constructor.
    + eapply (loader_inv_direct _ _ _ c0
        [Applied (length (calls st)) (VFun f) []]);
        [exact Hpush | exact Hc0 | by right | done | done | done | ].
      by repeat constructor.
  - eapply forEach_inv; [exact Hpush | exact Hc0 |].
    unfold frontier. cbn. rewrite Hf. lia.
Qed.

Lemma define_inv h id dependencies factory st :
  loader_inv None st →
  loader_inv None (define URL call h id dependencies factory st).2.
Proof.
  intros Hinv. unfold define. msimpl.
  destruct (_inferModuleId URL h); msimpl; [|done].
  destruct (Str.contains _ _); msimpl; [done |].
  destruct (bool_decide _); msimpl; [done |].
  destruct (dirname _); msimpl; [|done].
  by apply _runFactory_inv.
Qed.

(** *** A script has loaded *)

Lemma loaded_inv r q st :
  loader_inv None st → scripts st !! r = Some (Some q) →
  ∃ c, calls st !! r_call q = Some c ∧ r_index q < frontier c ∧
       loader_inv None (set_scripts (λ l, <[r := None]> l) st) ∧
       r_index q ∉ (settled (r_call q) (trace st)).*1
                   ++ pending (r_call q) (<[r := None]> (scripts st)).
Proof.
  intros [Hfresh Hinv] Hq.
  destruct (pending_remove (r_call q) _ _ _ Hq) as (P1 & P2 & HP & HP').
  rewrite decide_True in HP by done.
  destruct (calls st !! r_call q) as [c|] eqn:Hc.
  2:{ apply lookup_ge_None in Hc. destruct (Hfresh _ Hc) as (_ & HP0 & _).
      rewrite HP0 in HP. by destruct P1. }
  exists c. pose proof (Hinv _ _ Hc) as Hcall. rewrite HP in Hcall.
  apply call_inv_unrequest in Hcall as (Hcall & Hni & Hlt).
  split_and!; [done | done | | by rewrite HP'].
  split.
  - intros k0 Hk0. cbn in *. destruct (Hfresh k0 Hk0) as (? & HP0 & ? & ? & ?).
    split_and!; try done.
    destruct (pending_remove k0 _ _ _ Hq) as (Q1 & Q2 & HQ & ->).
    rewrite HP0 in HQ. destruct Q1; [|done]. cbn in HQ.
    by case_decide; destruct Q2.
  - intros k0 c0 Hc0. cbn in *.
    destruct (decide (k0 = r_call q)) as [->|Hne].
    + rewrite Hc in Hc0. injection Hc0 as <-. by rewrite HP'.
    + specialize (Hinv k0 c0 Hc0).
      destruct (pending_remove k0 _ _ _ Hq) as (Q1 & Q2 & HQ & ->).
      rewrite decide_False in HQ by done. by rewrite HQ in Hinv.
Qed.

Lemma onload_inv r st :
  loader_inv None st → loader_inv None (onload call r st).2.
Proof.
  intros Hinv. unfold onload. msimpl.
  destruct (scripts st !! r) as [[q|]|] eqn:Hq; msimpl; try done.
  destruct (loaded_inv r q st Hinv Hq) as (c & Hc & Hlt & Hinv' & Hni).
  destruct (truthy _); msimpl; by eapply on_dependency_inv.
Qed.

Lemma loader_inv_silent o st e :
  silent e → loader_inv o st → loader_inv o (set_trace (λ t, t ++ [e]) st).
Proof.
  intros He [Hfresh Hinv]. split.
  - intros k Hk. cbn in *.
    destruct (silent_snoc k (trace st) e He) as (-> & -> & -> & ->).
    by apply Hfresh.
  - intros k c Hc. cbn in *.
    destruct (silent_snoc k (trace st) e He) as (-> & -> & -> & ->).
    by apply Hinv.
Qed.

Lemma step_inv st a : loader_inv None st → loader_inv None (step URL call st a).
Proof.
  intros Hinv. unfold step.
  assert (Hp : loader_inv None (perform URL call a st).2).
  { destruct a; cbn; [by apply define_inv | by apply onload_inv]. }
  destruct (perform URL call a st) as [[[]|e] st']; cbn in *; [done |].
  by apply loader_inv_silent.
Qed.

Lemma init_inv : loader_inv None init.
Proof. split; [done |]. intros k c Hc. cbn in Hc. by rewrite lookup_nil in Hc. Qed.

Lemma run_inv st acts : loader_inv None st → loader_inv None (run URL call st acts).
Proof.
  revert st. induction acts as [|a acts IH]; intros st Hinv; cbn; [done |].
  by apply IH, step_inv.
Qed.

(** A position settles at most once, so its value is determined. *)
Lemma settled_functional (S : list (nat * (option exn * value))) i x y :
  NoDup S.*1 → (i, x) ∈ S → (i, y) ∈ S → x = y.
Proof.
  induction S as [|[j z] S IH]; cbn; [by intros _ ?%elem_of_nil |].
  intros [Hj Hnd]%NoDup_cons [Hx|Hx]%elem_of_cons [Hy|Hy]%elem_of_cons.
  - congruence.
  - injection Hx as -> ->. exfalso. apply Hj.
    apply (list_elem_of_fmap_2 fst _ (j, y)), Hy.
  - injection Hy as -> ->. exfalso. apply Hj.
    apply (list_elem_of_fmap_2 fst _ (j, x)), Hx.
  - by apply IH.
Qed.

Lemma elem_of_settled k tr i err v :
  Settled k i err v ∈ tr ↔ (i, (err, v)) ∈ settled k tr.
Proof.
  unfold settled. rewrite list_elem_of_omap. split.
  - intros H. exists (Settled k i err v). split; [done |].
    by rewrite decide_True.
  - intros (e & He & Hf). destruct e; try done. case_decide; [|done].
    by simplify_eq.
Qed.

Lemma errors_elem_of S e : e ∈ errors S ↔ ∃ i v, (i, (Some e, v)) ∈ S.
Proof.
  unfold errors. rewrite list_elem_of_omap. split.
  - intros ([i [err v]] & Hin & Herr). cbn in Herr. subst. eauto.
  - intros (i & v & Hin). by exists (i, (Some e, v)).
Qed.
End Invariant.

(** ** The trace only grows *)

#[local] Instance trace_grows_preorder P : PreOrder (trace_grows P).
Proof.
  split.
  - intros st. exists []. by rewrite app_nil_r.
  - intros st1 st2 st3 (tr1 & H1 & HP1) (tr2 & H2 & HP2).
    exists (tr1 ++ tr2). split; [|by apply Forall_app].
    by rewrite H2, H1, (assoc_L (++)).
Qed.

Ltac grows :=
  eexists; split; [cbn; rewrite <-?(assoc_L (++)); try reflexivity;
                   by rewrite app_nil_r | repeat constructor].

Section Trace.
Variable URL : string → string → option string.
Variable call : nat → list value → completion value.

Lemma on_dependency_grows k i id err v st :
  trace_grows well_sourced st (on_dependency call k i id err v st).2.
Proof.
  unfold on_dependency, define_callback, apply. msimpl.
  destruct (calls st !! k) as [c|]; msimpl; [|grows].
  destruct (requireError c); msimpl; [grows |].
  destruct err as [e|]; msimpl; [grows |].
  destruct (_ =? 0)%Z; msimpl; [|grows].
  destruct (c_factory c); msimpl; try grows.
  destruct (call _ _); msimpl; grows.
Qed.

Lemma _require_grows id moduleId k i st :
  trace_grows well_sourced st (_require call id moduleId k i st).2.
Proof.
  unfold _require, new_object, loadScript.
  destruct (String.eqb id "exports") eqn:H1; msimpl.
  { etrans; [|apply on_dependency_grows]. grows. }
  destruct (String.eqb id "require") eqn:H2; msimpl; [grows |].
  destruct (String.eqb id "module") eqn:H3; msimpl.
  { etrans; [|apply on_dependency_grows]. grows. }
  destruct (_modules st !! id); msimpl; [apply on_dependency_grows |].
  eexists. split; [reflexivity |]. repeat constructor.
  exists id. split; [done |]. unfold reserved. by rewrite H1, H2, H3.
Qed.

Lemma forEach_grows moduleId base k xs i st :
  trace_grows well_sourced st
    (forEach (request_dependency call k moduleId base) xs i st).2.
Proof.
  revert i st. induction xs as [|x xs IH]; intros i st; msimpl; [done |].
  unfold request_dependency at 1. msimpl.
  destruct (resolve_dependency base x) as [target|e]; msimpl; [|done].
  pose proof (_require_grows target moduleId k i st) as Hreq.
  destruct (_require call target moduleId k i st) as [[[]|e] st1];
    msimpl; [|done].
  etrans; [exact Hreq | apply IH].
Qed.

Lemma define_grows h id dependencies factory st :
  trace_grows well_sourced st (define URL call h id dependencies factory st).2.
Proof.
  unfold define. msimpl.
  destruct (_inferModuleId URL h); msimpl; [|done].
  destruct (Str.contains _ _); msimpl; [done |].
  destruct (bool_decide _); msimpl; [done |].
  destruct (dirname _); msimpl; [|done].
  unfold _runFactory. msimpl.
  destruct (negb _); msimpl.
  { unfold define_callback. msimpl. grows. }
  destruct (_ =? 0)%Z; msimpl.
  { unfold apply, define_callback. msimpl.
    destruct (js_or _ _); msimpl; try grows.
    destruct (call _ _); msimpl; grows. }
  etrans; [|apply forEach_grows]. grows.
Qed.

Lemma onload_grows r st : trace_grows well_sourced st (onload call r st).2.
Proof.
  unfold onload. msimpl.
  destruct (scripts st !! r) as [[q|]|]; msimpl; try done.
  destruct (truthy _); msimpl;
    (etrans; [|apply on_dependency_grows]); grows.
Qed.

Lemma step_grows st a : trace_grows well_sourced st (step URL call st a).
Proof.
  unfold step.
  assert (Hp : trace_grows well_sourced st (perform URL call a st).2).
  { destruct a; cbn; [apply define_grows | apply onload_grows]. }
  destruct (perform URL call a st) as [[[]|e] st']; cbn in *; [done |].
  etrans; [exact Hp |]. grows.
Qed.

Lemma run_grows st acts : trace_grows well_sourced st (run URL call st acts).
Proof.
  revert st. induction acts as [|a acts IH]; intros st; cbn; [done |].
  etrans; [apply step_grows | apply IH].
Qed.

Lemma run_app st acts more :
  run URL call st (acts ++ more) = run URL call (run URL call st acts) more.
Proof. apply fold_left_app. Qed.
End Trace.

(** ** The properties of the loader *)

Section Properties.
Variable URL : string → string → option string.
Variable call : nat → list value → completion value.

(** C1. First failure wins. Take any run of the loader in which some
    dependency of call [k] has settled with an error, [e] being the first
    such error. Then, whatever happens afterwards (in particular when
    other dependencies of the same call settle later, successfully or
    not), the factory of the call is never invoked, its completion
    callback has run exactly once, with [e], and the call has written
    nothing to the registry. The call has a non-empty dependency list, its
    failure flag is set, and any further settlement of one of its
    dependencies changes nothing but the trace, where it is recorded. *)
Theorem C1_first_failure_wins (acts more : list action) (k : nat) (e : exn) :
  head (errors (settled k (trace (run URL call init acts)))) = Some e →
  let st := run URL call init (acts ++ more) in
  applied k (trace st) = [] ∧
  completed k (trace st) = [(Some e, VUndefined)] ∧
  written k (trace st) = [] ∧
  (∃ c, calls st !! k = Some c ∧ c_dependencies c ≠ [] ∧ requireError c = true) ∧
  ∀ i id err v,
    on_dependency call k i id err v st
      = (Normal tt, set_trace (λ t, t ++ [Settled k i err v]) st).
Proof.
  intros He st.
  assert (He' : head (errors (settled k (trace st))) = Some e).
  { subst st. rewrite run_app.
    destruct (run_grows URL call (run URL call init acts) more) as (tr & -> & _).
    unfold settled. rewrite omap_app, errors_app.
    fold (settled k (trace (run URL call init acts))).
    by destruct (errors (settled k _)). }
  destruct (run_inv URL call init (acts ++ more) init_inv) as [Hfresh Hinv].
  fold st in Hfresh, Hinv.
  destruct (calls st !! k) as [c|] eqn:Hc.
  2:{ apply lookup_ge_None in Hc. destruct (Hfresh k Hc) as (HS & _).
      by rewrite HS in He'. }
  specialize (Hinv k c Hc). destruct (requireError c) eqn:Hre.
  - destruct (inv_failed _ _ _ _ _ _ _ Hinv Hre) as (e' & He'' & HA & HC & HW).
    rewrite He' in He''. injection He'' as <-.
    split_and!; try done;
      [|intros i id err v; by apply (on_dependency_dropped call k i id err v st c)].
    exists c. split_and!; try done.
    intros Hnil. pose proof (frontier_le c) as Hfl. rewrite Hnil in Hfl.
    pose proof (inv_frontier _ _ _ _ _ _ _ Hinv) as HJ.
    pose proof (inv_bound _ _ _ _ _ _ _ Hinv) as Hb. cbn in *.
    destruct (settled k (trace st)) as [|[i x] S]; [done |].
    specialize (Hb i ltac:(by left)). lia.
  - destruct (inv_ok _ _ _ _ _ _ _ Hinv Hre) as (Hno & _). by rewrite Hno in He'.
Qed.

(** C4. Declaration order. Take any run of the loader and a call [k] with
    a non-empty dependency list all of whose dependencies have settled
    successfully, the dependency declared at position [i] with the value
    [vs !! i]. Then the factory of the call has been invoked exactly once,
    with the arguments [vs], in declaration order. Nothing is assumed of
    the order in which the dependencies settled. *)
Theorem C4_declaration_order (acts : list action) (k : nat) (c : closure)
    (vs : list value) :
  let st := run URL call init acts in
  calls st !! k = Some c →
  c_dependencies c ≠ [] →
  length vs = length (c_dependencies c) →
  (∀ i v, vs !! i = Some v → Settled k i None v ∈ trace st) →
  applied k (trace st) = [(c_factory c, vs)].
Proof.
  intros st Hc Hne Hlen Hall.
  destruct (run_inv URL call init acts init_inv) as [_ Hinv].
  fold st in Hinv. specialize (Hinv k c Hc).
  pose proof (inv_nodup _ _ _ _ _ _ _ Hinv) as Hnd.
  apply NoDup_app in Hnd as (Hnd & _ & _).
  pose proof (inv_bound _ _ _ _ _ _ _ Hinv) as Hb.
  pose proof (inv_frontier _ _ _ _ _ _ _ Hinv) as HJ.
  pose proof (frontier_le c) as Hfl. unfold bound in Hb, HJ.
  set (S := settled k (trace st)) in *.
  assert (Hin : ∀ i, i < length vs → ∃ v, vs !! i = Some v ∧ (i, (None, v)) ∈ S).
  { intros i Hi. destruct (lookup_lt_is_Some_2 vs i Hi) as [v Hv].
    exists v. split; [done |]. by apply elem_of_settled, Hall. }
  assert (HlenS : length S = length (c_dependencies c)).
  { apply Nat.le_antisymm.
    - rewrite <-(length_fmap fst). apply NoDup_bounded_length; [done |].
      intros i Hi. specialize (Hb i ltac:(apply elem_of_app; by left)). lia.
    - rewrite <-(length_fmap fst S), <-Hlen, <-(length_seq (length vs) 0).
      apply submseteq_length, NoDup_submseteq; [apply NoDup_seq |].
      intros i Hi%elem_of_seq. destruct (Hin i ltac:(lia)) as (v & _ & Hv).
      apply (list_elem_of_fmap_2 fst _ (i, (None, v))), Hv. }
  assert (Hre : requireError c = false).
  { destruct (requireError c) eqn:Hre; [exfalso | done].
    destruct (inv_failed _ _ _ _ _ _ _ Hinv Hre) as (e & He & _).
    assert (e ∈ errors S) as (i & w & Hiw)%errors_elem_of.
    { destruct (errors S); [done |]. injection He as ->. by left. }
    assert (i < length vs) as Hi.
    { rewrite Hlen.
      assert (i ∈ S.*1) as Hi by apply (list_elem_of_fmap_2 fst _ (i, (Some e, w))), Hiw.
      specialize (Hb i ltac:(apply elem_of_app; by left)). lia. }
    destruct (Hin i Hi) as (v & _ & Hv).
    by pose proof (settled_functional S i _ _ Hnd Hiw Hv). }
  destruct (inv_ok _ _ _ _ _ _ _ Hinv Hre) as (_ & Hread & _ & _ & Happ).
  rewrite Happ; [|destruct (c_dependencies c); [done | cbn; lia] | done].
  f_equal. f_equal. apply arguments_filled.
  - rewrite Hlen. apply (inv_length _ _ _ _ _ _ _ Hinv).
  - intros i v Hv. apply Hread, elem_of_settled, Hall, Hv.
Qed.

(** C8, amended. Once identifier inference has succeeded, a call of
    [define] whose id (the declared one, or the inferred one when none is
    declared) contains a backslash throws the delimiter error at once and
    leaves the state, registry included, as it was. The state is
    arbitrary: the error is the delimiter error also when the id is
    already registered, the backslash being looked for first. Inference
    comes before both checks, whatever the id: when it fails, [define]
    throws the error of the inference and leaves the state as it was, also
    when the declared id contains a backslash. *)
Theorem C8_backslash_rejected (h : host) (id dependencies factory : value)
    (st : state) :
  (∀ inferredId,
     _inferModuleId URL h = Normal inferredId →
     Str.contains Str.backslash
       (match id with VStr s => s | _ => inferredId end) = true →
     define URL call h id dependencies factory st = (Throw delimiter_error, st) ∧
     ∀ id', delimiter_error ≠ already_defined id') ∧
  (∀ e,
     _inferModuleId URL h = Throw e →
     define URL call h id dependencies factory st = (Throw e, st)).
Proof.
  split.
  - intros inferredId Hinf Hid. split; [|done].
    unfold define. munfold. rewrite Hinf. cbv beta iota. by rewrite Hid.
  - intros e Hinf. unfold define. munfold. by rewrite Hinf.
Qed.

(** C10. The fixed directory. A dependency whose id, once resolved, is
    neither reserved nor registered is requested by appending the script
    [components/jquery/dist/<id>.js], and nothing else happens; and in
    every run of the loader, every script appended has such a source. *)
Theorem C10_fixed_directory (k : nat) (moduleId base dependencyId id : string)
    (i : nat) (st : state) (acts : list action) (src : string) :
  resolve_dependency base dependencyId = Normal id →
  reserved id = false → _modules st !! id = None →
  request_dependency call k moduleId base dependencyId i st =
    (Normal tt,
     set_scripts (λ l, l ++ [Some
         {| r_src := "components/jquery/dist/" +:+ id +:+ ".js";
            r_id := id; r_moduleId := moduleId; r_call := k; r_index := i |}])
       (set_trace
          (λ t, t ++ [ScriptAppended ("components/jquery/dist/" +:+ id +:+ ".js")])
          st)) ∧
  (ScriptAppended src ∈ trace (run URL call init acts) →
   ∃ id', src = "components/jquery/dist/" +:+ id' +:+ ".js" ∧ reserved id' = false).
Proof.
  intros Hres Hid Hreg. split.
  - unfold request_dependency. munfold. rewrite Hres. cbv beta iota.
    by apply _require_load.
  - destruct (run_grows URL call init acts) as (tr & -> & Htr). cbn.
    intros Hin. by apply (proj1 (Forall_forall _ _) Htr _ Hin).
Qed.

(** *** What the code does where it departs from its specification *)

(** A value that is truthy and not a function is committed as it is:
    nothing is requested and no factory runs. *)
Lemma define_plain_value (h : host) (id : string) (v : value) (st : state)
    (inferredId base : string) :
  _inferModuleId URL h = Normal inferredId → dirname inferredId = Normal base →
  Str.contains Str.backslash id = false → _modules st !! id = None →
  truthy v = true → is_function v = false →
  ∃ st',
    define URL call h (VStr id) v VUndefined st = (Normal tt, st') ∧
    _modules st' = <[id := v]> (_modules st) ∧
    scripts st' = scripts st ∧
    trace st' = trace st ++ [Completed (length (calls st)) None v;
                             Written (length (calls st)) id v].
Proof.
  intros Hinf Hdir Hid Hreg Hv Hf. eexists. split.
  - unfold define. munfold. rewrite Hinf. cbv beta iota. rewrite Hid, Hreg.
    rewrite bool_decide_eq_false_2 by (intros [? [=]]).
    rewrite Hdir. unfold _runFactory, define_callback. munfold. cbn.
    unfold js_or at 2. cbn. unfold js_or. rewrite Hv, Hf. cbn. reflexivity.
  - cbn. by rewrite <-(assoc_L (++)).
Qed.

(** A registered id is refused, whatever is being defined. *)
Lemma define_already_defined (h : host) (id dependencies factory : value)
    (st : state) (inferredId : string) :
  _inferModuleId URL h = Normal inferredId →
  let id' := match id with VStr s => s | _ => inferredId end in
  Str.contains Str.backslash id' = false → is_Some (_modules st !! id') →
  define URL call h id dependencies factory st = (Throw (already_defined id'), st).
Proof.
  intros Hinf id' Hid Hreg. unfold define. munfold. rewrite Hinf.
  cbv beta iota. fold id'. rewrite Hid. by rewrite bool_decide_eq_true_2.
Qed.

(** Reserved ids are not resolved. *)
Lemma resolve_dependency_reserved (base dependencyId : string) :
  reserved dependencyId = true →
  resolve_dependency base dependencyId = Normal dependencyId.
Proof. intros H. unfold resolve_dependency. by rewrite H. Qed.

(** When a script has loaded, its dependency settles: with the export
    registered under its id when that export is truthy, with the error that
    the module has not been loaded otherwise. *)
Lemma onload_settles (r : nat) (q : request) (st : state) :
  scripts st !! r = Some (Some q) →
  let module := default VUndefined (_modules st !! r_id q) in
  onload call r st =
    on_dependency call (r_call q) (r_index q) (r_id q)
      (if truthy module then None else Some (not_loaded (r_id q) (r_moduleId q)))
      (if truthy module then module else VUndefined)
      (set_scripts (λ l, <[r := None]> l) st).
Proof.
  intros Hq module. unfold onload. munfold. rewrite Hq. cbv beta iota.
  cbn [_modules set_scripts]. fold module. by destruct (truthy module).
Qed.

(** [exports] settles with a new object without properties. *)
Lemma _require_exports (moduleId : string) (k i : nat) (st : state) :
  _require call "exports" moduleId k i st =
    on_dependency call k i "exports" None (VObj (length (heap st)))
      (set_heap (λ h, h ++ [[]]) st).
Proof. reflexivity. Qed.

(** [module] settles with a new object holding the id of the module that
    asks. *)
Lemma _require_module (moduleId : string) (k i : nat) (st : state) :
  _require call "module" moduleId k i st =
    on_dependency call k i "module" None (VObj (length (heap st)))
      (set_heap (λ h, h ++ [[("id", VStr moduleId)]]) st).
Proof. reflexivity. Qed.
End Properties.

(** ** The properties on the example runs *)

Lemma C1_witness :
  head (errors (settled 0 (trace (run relative_URL factories init failing_run))))
    = Some (not_loaded "http://h/app/y" "m") ∧
  last (trace (run relative_URL factories init (failing_run ++ late_success)))
    = Some (Settled 0 0 None (VNum 7)) ∧
  let st := run relative_URL factories init (failing_run ++ late_success) in
  applied 0 (trace st) = [] ∧
  completed 0 (trace st) = [(Some (not_loaded "http://h/app/y" "m"), VUndefined)] ∧
  written 0 (trace st) = [] ∧
  (∃ c, calls st !! 0 = Some c ∧ c_dependencies c ≠ [] ∧ requireError c = true) ∧
  ∀ i id err v,
    on_dependency factories 0 i id err v st
      = (Normal tt, set_trace (λ t, t ++ [Settled 0 i err v]) st).
Proof.
  split; [by vm_compute |]. split; [by vm_compute |].
  apply (C1_first_failure_wins relative_URL factories failing_run late_success 0).
  by vm_compute.
Defined.

Lemma C4_witness :
  settled 0 (trace (run relative_URL factories init out_of_order_run))
    = [(1, (None, VNum 2)); (0, (None, VNum 1))] ∧
  applied 0 (trace (run relative_URL factories init out_of_order_run))
    = [(c_factory out_of_order_closure, [VNum 1; VNum 2])].
Proof.
  split; [by vm_compute |].
  apply (C4_declaration_order relative_URL factories out_of_order_run 0
           out_of_order_closure [VNum 1; VNum 2]).
  - by vm_compute.
  - done.
  - done.
  - intros i v Hv. apply list_elem_of_In.
    destruct i as [|[|i]]; vm_compute in Hv; [| |done];
      injection Hv as <-; vm_compute; tauto.
Defined.

(** C6, as the specification words it, does not hold: [_resolveRelativeId]
    on [a/b/c] and [../d] does not answer [a/d]. *)
Lemma C6_counterexample : _resolveRelativeId "a/b/c" "../d" ≠ Normal "a/d".
Proof. vm_compute. discriminate. Qed.

Lemma C8_witness :
  (define relative_URL factories example_page (VStr "a\b") VUndefined (VNum 42) init
     = (Throw delimiter_error, init) ∧
   ∀ id', delimiter_error ≠ already_defined id') ∧
  define relative_URL factories (inline_script None) (VStr "a\b") VUndefined (VNum 42)
    init = (Throw no_baseURI, init).
Proof.
  split.
  - apply (proj1 (C8_backslash_rejected relative_URL factories example_page
                    (VStr "a\b") VUndefined (VNum 42) init)
             "http://x.com/a/b.html").
    + by vm_compute.
    + by vm_compute.
  - apply (proj2 (C8_backslash_rejected relative_URL factories (inline_script None)
                    (VStr "a\b") VUndefined (VNum 42) init)).
    by vm_compute.
Defined.

(** C8, as the specification words it, does not hold: in a document
    without a base URI, a call of [define] with an id that contains a
    backslash throws the inference error, not the delimiter error. *)
Lemma C8_counterexample :
  Str.contains Str.backslash "a\b" = true ∧
  define relative_URL factories (inline_script None) (VStr "a\b") VUndefined (VNum 42) init
    = (Throw no_baseURI, init) ∧
  no_baseURI ≠ delimiter_error.
Proof. split_and!; [by vm_compute | by vm_compute | discriminate]. Qed.

Lemma C10_witness :
  request_dependency factories 0 "m" "http://h/app/" "./x" 0 init =
    (Normal tt,
     set_scripts (λ l, l ++ [Some
         {| r_src := "components/jquery/dist/" +:+ "http://h/app/x" +:+ ".js";
            r_id := "http://h/app/x"; r_moduleId := "m"; r_call := 0;
            r_index := 0 |}])
       (set_trace
          (λ t, t ++ [ScriptAppended
                        ("components/jquery/dist/" +:+ "http://h/app/x" +:+ ".js")])
          init)) ∧
  (ScriptAppended "components/jquery/dist/http://h/app/y.js"
     ∈ trace (run relative_URL factories init failing_run) →
   ∃ id', "components/jquery/dist/http://h/app/y.js"
            = "components/jquery/dist/" +:+ id' +:+ ".js" ∧ reserved id' = false).
Proof.
  apply (C10_fixed_directory relative_URL factories 0 "m" "http://h/app/" "./x"
           "http://h/app/x" 0 init failing_run
           "components/jquery/dist/http://h/app/y.js").
  - by vm_compute.
  - by vm_compute.
  - by vm_compute.
Defined.

(** C2. In [racing_run] the module [m] is defined a second time while its
    first definition waits for [x]: the second call of [define] returns
    normally, and when [x] has loaded the first definition overwrites the
    second. The registry is written twice under [m], and nothing is
    thrown. *)
Theorem C2_racing_definitions :
  let st := run relative_URL factories init racing_run in
  writes "m" (trace st) = [VNum 42; VNum 7] ∧
  uncaught (trace st) = [] ∧
  _modules st !! "m" = Some (VNum 7).
Proof. by vm_compute. Qed.

(** C3. A falsy value given as the module is not committed: the id is,
    because [factory || dependencies || id] skips falsy values. *)
Theorem C3_falsy_value_replaced_by_id :
  let registry_after v :=
    _modules (run relative_URL factories init [Define app_page (VStr "m") v VUndefined]) in
  registry_after (VNum 0) !! "m" = Some (VStr "m") ∧
  registry_after (VBool false) !! "m" = Some (VStr "m") ∧
  registry_after VNull !! "m" = Some (VStr "m") ∧
  registry_after (VStr "") !! "m" = Some (VStr "m").
Proof. by vm_compute. Qed.

(** C7. The dependency [require] is not served: the branch of [_require]
    calls [calback], which is not defined, so [define] throws at once, the
    factory never runs and nothing is registered. *)
Theorem C7_require_throws :
  let result :=
    define relative_URL factories app_page (VStr "m") (VArr ["require"]) (VFun 1) init in
  result.1 = Throw (NotDefined "calback") ∧
  applied 0 (trace result.2) = [] ∧
  settled 0 (trace result.2) = [] ∧
  _modules result.2 = ∅.
Proof. by vm_compute. Qed.

(** The two reserved ids that are served: the factory receives a new empty
    object for [exports] and a new object holding the id of the module for
    [module]. *)
Example exports_and_module_served :
  let st := run relative_URL factories init
              [Define app_page (VStr "m") (VArr ["exports"; "module"]) (VFun 1)] in
  applied 0 (trace st) = [(VFun 1, [VObj 0; VObj 1])] ∧
  heap st = [[]; [("id", VStr "m")]] ∧
  scripts st = [].
Proof. by vm_compute. Qed.

(** C9. In [falsy_export_run] the script of [x] has defined [x], with the
    export zero, by the time it has loaded; the dependency nevertheless
    settles with the error that [x] has not been loaded, because the
    handler tests the export itself and not its presence. *)
Theorem C9_falsy_export_reported_missing :
  let st := run relative_URL factories init falsy_export_run in
  _modules st !! "x" = Some (VNum 0) ∧
  settled 0 (trace st) = [(0, (Some (not_loaded "x" "m"), VUndefined))] ∧
  applied 0 (trace st) = [].
Proof. by vm_compute. Qed.

(** * Further properties *)

(** ** The regular expressions, in general *)

Lemma append_cons (x : ascii) (a b : string) :
  String x a +:+ b = String x (a +:+ b).
Proof. reflexivity. Qed.

Lemma append_assoc (a b c : string) : (a +:+ b) +:+ c = a +:+ (b +:+ c).
Proof. induction a as [|x a IH]; [done |]. by rewrite !append_cons, IH. Qed.

Lemma append_nil_r (a : string) : a +:+ "" = a.
Proof. induction a as [|x a IH]; [done |]. by rewrite append_cons, IH. Qed.

Lemma any_line_terminator (c : ascii) : Regex.any c = negb (line_terminator c).
Proof. reflexivity. Qed.

(** [(.*?)] before [[^\/]*$], from any position [t] of the subject
    [pre +:+ t]. *)
Lemma star_lazy_directory (pre t : string) :
  Regex.star_lazy Regex.any t
    (λ rest, if Str.contains Str.slash rest then None
             else Some [(1, Regex.consumed (pre +:+ t) rest)])
  = if has_line_terminator (directory t) then None
    else Some [(1, pre +:+ directory t)].
Proof.
  revert pre. induction t as [|c t IH]; intros pre.
  - cbn. by rewrite (consumed_append pre ""), append_nil_r.
  - cbn [Regex.star_lazy directory].
    destruct (Str.contains Str.slash (String c t)) eqn:Hs.
    + cbn [has_line_terminator]. rewrite any_line_terminator.
      destruct (line_terminator c); cbn [negb orb]; [done |].
      rewrite (star_lazy_ext _ _ _
        (λ rest, if Str.contains Str.slash rest then None
                 else Some [(1, Regex.consumed ((pre +:+ String c "") +:+ t) rest)])).
      2:{ intros rest. by rewrite append_assoc. }
      rewrite IH. by rewrite append_assoc.
    + cbn. by rewrite consumed_append, append_nil_r.
Qed.

Lemma dirname_longest_prefix (inferredId : string) :
  dirname inferredId =
    if has_line_terminator (directory inferredId) then Throw NullDereference
    else Normal (directory inferredId).
Proof.
  unfold dirname, Regex.exec, Regex.re_dirname. cbn [Regex.run].
  rewrite (star_lazy_ext _ _ _
    (λ rest, if Str.contains Str.slash rest then None
             else Some [(1, Regex.consumed ("" +:+ inferredId) rest)]))
    by (intros rest; apply star_not_slash_end).
  rewrite (star_lazy_directory "" inferredId).
  by destruct (has_line_terminator (directory inferredId)).
Qed.

(** X1. Whenever the match that [define] makes on the inferred id
    succeeds, the base it yields is the longest prefix of the id that ends
    in a slash (empty when there is none), and that prefix holds neither a
    line feed nor a carriage return, which [.] does not match. *)
Theorem dirname_directory (inferredId base : string) :
  dirname inferredId = Normal base →
  base = directory inferredId ∧ has_line_terminator base = false.
Proof.
  rewrite dirname_longest_prefix.
  destruct (has_line_terminator (directory inferredId)) eqn:Hlt; [done |].
  by intros [= <-].
Qed.

Lemma dirname_directory_witness :
  "http://x.com/a/" = directory "http://x.com/a/b.html" ∧
  has_line_terminator "http://x.com/a/" = false.
Proof. apply dirname_directory. by vm_compute. Defined.

(** A repetition hands to its continuation a suffix of the subject. *)
Lemma star_lazy_Some {A} (p : ascii → bool) (s : string) (k : string → option A) (a : A) :
  Regex.star_lazy p s k = Some a → ∃ pre rest, s = pre +:+ rest ∧ k rest = Some a.
Proof.
  induction s as [|c s IH]; cbn [Regex.star_lazy].
  - destruct (k "") eqn:Hk; [|done]. intros [= ->]. by exists "", "".
  - destruct (k (String c s)) eqn:Hk.
    + intros [= ->]. by exists "", (String c s).
    + destruct (p c); [|done]. intros (pre & rest & -> & Hrest)%IH.
      by exists (String c pre), rest.
Qed.

Lemma star_greedy_Some {A} (p : ascii → bool) (s : string) (k : string → option A) (a : A) :
  Regex.star_greedy p s k = Some a → ∃ pre rest, s = pre +:+ rest ∧ k rest = Some a.
Proof.
  induction s as [|c s IH]; cbn [Regex.star_greedy].
  - intros Hk. by exists "", "".
  - destruct (p c); [|intros Hk; by exists "", (String c s)].
    destruct (Regex.star_greedy p s k) eqn:Hg.
    + intros [= ->]. destruct (IH eq_refl) as (pre & rest & -> & Hrest).
      by exists (String c pre), rest.
    + intros Hk. by exists "", (String c s).
Qed.

(** So does a regular expression without group, and it leaves the captures
    alone. *)
Lemma run_plain (r : Regex.regex) (s : string) (caps : Regex.captures)
    (k : string → Regex.captures → option Regex.captures) (c : Regex.captures) :
  plain r = true → Regex.run r s caps k = Some c →
  ∃ pre rest, s = pre +:+ rest ∧ k rest caps = Some c.
Proof.
  revert s k. induction r as [p|p|p|p|r1 IH1 r2 IH2|r1 IH1|n r1 IH1];
    intros s k Hplain; cbn [Regex.run].
  - destruct s as [|x s]; [done |]. destruct (p x); [|done].
    intros Hk. by exists (String x ""), s.
  - apply star_greedy_Some.
  - destruct s as [|x s]; [done |]. destruct (p x); [|done].
    intros (pre & rest & -> & Hk)%star_greedy_Some. by exists (String x pre), rest.
  - apply star_lazy_Some.
  - cbn in Hplain. apply andb_prop in Hplain as [H1 H2].
    intros (pre1 & rest1 & -> & Hk1)%IH1; [|done].
    apply IH2 in Hk1 as (pre2 & rest2 & -> & Hk2); [|done].
    exists (pre1 +:+ pre2), rest2. by rewrite append_assoc.
  - cbn in Hplain. destruct (Regex.run r1 s caps k) eqn:Hr.
    + intros [= ->]. by apply IH1 in Hr.
    + intros Hk. by exists "", s.
  - done.
Qed.

(** [\/?$] takes nothing or one slash, and adds no capture. *)
Lemma opt_slash_at_end (rest : string) (caps c : Regex.captures) :
  Regex.run (Regex.Opt (Regex.Class Regex.is_slash)) rest caps at_end = Some c →
  c = caps ∧ (rest = "" ∨ rest = "/").
Proof.
  cbn [Regex.run]. destruct rest as [|x [|y rest]]; cbn.
  - intros [= <-]. auto.
  - unfold Regex.is_slash. destruct (Ascii.eqb x Str.slash) eqn:Hx; [|done].
    apply Ascii.eqb_eq in Hx as ->. intros [= <-]. auto.
  - by destruct (Regex.is_slash x).
Qed.

(** [(.*?)\/?$], the tail of two of the regular expressions, captures a
    string that with at most one slash makes up the subject. *)
Lemma lazy_tail (n : nat) (s : string) (caps c : Regex.captures) :
  Regex.run (Regex.Cat (Regex.Group n (Regex.LazyStar Regex.any))
                       (Regex.Opt (Regex.Class Regex.is_slash))) s caps at_end = Some c →
  ∃ g t, s = g +:+ t ∧ (t = "" ∨ t = "/") ∧ c = (n, g) :: caps.
Proof.
  cbn [Regex.run].
  intros (g & t & -> & Hk)%star_lazy_Some.
  apply (opt_slash_at_end t) in Hk as [-> Ht].
  exists g, t. by rewrite consumed_append.
Qed.

(** It succeeds on every subject without line terminator. *)
Lemma star_lazy_total {A} (s : string) (k : string → option A) :
  has_line_terminator s = false → is_Some (k "") →
  is_Some (Regex.star_lazy Regex.any s k).
Proof.
  intros Hs Hk. induction s as [|x s IH]; cbn [Regex.star_lazy].
  - by destruct (k "").
  - destruct (k (String x s)); [done |].
    cbn in Hs. apply orb_false_elim in Hs as [Hx Hs].
    rewrite any_line_terminator, Hx. cbn. by apply IH.
Qed.

Lemma lazy_tail_total (n : nat) (s : string) (caps : Regex.captures) :
  has_line_terminator s = false →
  is_Some (Regex.run (Regex.Cat (Regex.Group n (Regex.LazyStar Regex.any))
                                (Regex.Opt (Regex.Class Regex.is_slash))) s caps at_end).
Proof. intros Hs. cbn [Regex.run]. by apply star_lazy_total. Qed.

(** ** _resolveRelativeId, in general *)

Lemma exec_at_end (r : Regex.regex) (s : string) :
  Regex.exec r s = Regex.run r s [] at_end.
Proof. reflexivity. Qed.

(** A match of the base: an optional scheme and authority, the path, at
    most one slash. *)
Lemma re_base_parts (base : string) (m : Regex.captures) :
  Regex.exec Regex.re_base base = Some m →
  ∃ p g t, base = p +:+ g +:+ t ∧ (t = "" ∨ t = "/") ∧
           default "" (Regex.group 1 m) = p ∧ Regex.group 2 m = Some g.
Proof.
  rewrite exec_at_end. unfold Regex.re_base.
  set (authority := Regex.Cat (Regex.Star Regex.not_slash) _).
  set (tail := Regex.Cat (Regex.Group 2 _) _).
  cbn [Regex.run]. fold authority.
  destruct (Regex.run authority base [] _) as [c|] eqn:Hauth.
  - intros [= ->]. apply run_plain in Hauth as (p & rest & -> & Htail); [|done].
    apply lazy_tail in Htail as (g & t & -> & Ht & ->).
    exists p, g, t. rewrite consumed_append. by cbn.
  - intros (g & t & -> & Ht & ->)%lazy_tail. by exists "", g, t.
Qed.

(** A match of a relative id: the id itself, less at most one trailing
    slash. *)
Lemma re_terms_parts (id : string) (m : Regex.captures) :
  Str.first id = Some Str.dot → Regex.exec Regex.re_terms id = Some m →
  ∃ g t, id = g +:+ t ∧ (t = "" ∨ t = "/") ∧ Regex.group 1 m = Some g.
Proof.
  intros Hid. rewrite exec_at_end. unfold Regex.re_terms.
  destruct id as [|x id]; [done |]. injection Hid as ->.
  cbn -[Regex.is_slash]. change (Regex.is_slash Str.dot) with false. cbv iota.
  intros Hm.
  apply (lazy_tail 1 (String Str.dot id) []) in Hm as (g & t & Hs & Ht & ->).
  exists g, t. by rewrite Hs.
Qed.

(** [split] and [join] *)
Lemma split_nonempty (s : string) : Str.split s ≠ [].
Proof.
  destruct s as [|c s]; cbn; [done |].
  destruct (Ascii.eqb c Str.slash); [done |]. by destruct (Str.split s).
Qed.

Lemma join_cons (t : string) (terms : list string) :
  terms ≠ [] → Str.join (t :: terms) = t +:+ String Str.slash (Str.join terms).
Proof. by destruct terms. Qed.

Lemma join_split (s : string) : Str.join (Str.split s) = s.
Proof.
  induction s as [|c s IH]; [done |]. cbn [Str.split].
  pose proof (split_nonempty s) as Hne.
  destruct (Ascii.eqb c Str.slash) eqn:Hc.
  - apply Ascii.eqb_eq in Hc as ->. rewrite join_cons by done. by rewrite IH.
  - destruct (Str.split s) as [|h t]; [done |].
    destruct t as [|h' t].
    + cbn in *. by rewrite IH.
    + rewrite join_cons by done. rewrite join_cons in IH by done.
      rewrite append_cons. by rewrite IH.
Qed.

(** [[^\/]*] before something that wants a slash stops at the first slash,
    and nowhere else. *)
Lemma star_not_slash_boundary {A} (pre rest : string) (k : string → option A) :
  Str.contains Str.slash pre = false →
  (∀ x s, Regex.not_slash x = true → k (String x s) = None) →
  Regex.star_greedy Regex.not_slash (pre +:+ String Str.slash rest) k
  = k (String Str.slash rest).
Proof.
  intros Hpre Hk. induction pre as [|x pre IH].
  - cbn [String.append Regex.star_greedy]. by change (Regex.not_slash Str.slash) with false.
  - cbn [Str.contains] in Hpre. rewrite append_cons. cbn [Regex.star_greedy].
    rewrite not_slash_eq. destruct (Ascii.eqb Str.slash x) eqn:Hx; [done |].
    cbn [negb]. rewrite (IH Hpre).
    destruct (k (String Str.slash rest)); [done |].
    apply Hk. rewrite not_slash_eq. by rewrite Hx.
Qed.

(** The scheme and authority part of [re_base] on a base that has one. *)
Lemma authority_run (scheme host path : string) (caps : Regex.captures)
    (k : string → Regex.captures → option Regex.captures) :
  Str.contains Str.slash scheme = false → Str.contains Str.slash host = false →
  host ≠ "" →
  Regex.run
    (Regex.Cat (Regex.Star Regex.not_slash)
       (Regex.Cat (Regex.Class Regex.is_slash)
          (Regex.Cat (Regex.Class Regex.is_slash)
             (Regex.Cat (Regex.Plus Regex.not_slash) (Regex.Class Regex.is_slash)))))
    (scheme +:+ "//" +:+ host +:+ "/" +:+ path) caps k
  = k path caps.
Proof.
  intros Hscheme Hhost Hne. cbn [Regex.run].
  change ("//" +:+ host +:+ "/" +:+ path)
    with (String Str.slash (String Str.slash (host +:+ "/" +:+ path))).
  rewrite star_not_slash_boundary; [|done |].
  2:{ intros x s Hx. unfold Regex.not_slash in Hx. unfold Regex.is_slash.
      by destruct (Ascii.eqb x Str.slash). }
  change (Regex.is_slash Str.slash) with true. cbv iota.
  destruct host as [|x host]; [done |]. cbn [Str.contains] in Hhost.
  rewrite append_cons. rewrite not_slash_eq.
  destruct (Ascii.eqb Str.slash x) eqn:Hx; [done |]. cbn [negb].
  change ("/" +:+ path) with (String Str.slash path).
  rewrite star_not_slash_boundary; [|done |].
  2:{ intros y s Hy. unfold Regex.not_slash in Hy. unfold Regex.is_slash.
      by destruct (Ascii.eqb y Str.slash). }
  by change (Regex.is_slash Str.slash) with true.
Qed.

(** X4. No climbing above the authority. When the base is a scheme, two
    slashes, a non-empty authority, a slash and a path, a relative id
    resolves to an id under the same scheme and authority, however many
    [..] it holds. *)
Theorem _resolveRelativeId_keeps_authority (scheme host path id resolved : string) :
  Str.contains Str.slash scheme = false → Str.contains Str.slash host = false →
  host ≠ "" → has_line_terminator path = false →
  Str.first id = Some Str.dot →
  _resolveRelativeId (scheme +:+ "//" +:+ host +:+ "/" +:+ path) id = Normal resolved →
  ∃ rest, resolved = scheme +:+ "//" +:+ host +:+ "/" +:+ rest.
Proof.
  intros Hscheme Hhost Hne Hpath Hid. unfold _resolveRelativeId.
  rewrite bool_decide_eq_true_2 by done. cbn [negb].
  set (base := scheme +:+ "//" +:+ host +:+ "/" +:+ path).
  assert (Hm : ∃ g, Regex.exec Regex.re_base base
                    = Some [(2, g); (1, scheme +:+ "//" +:+ host +:+ "/")]).
  { rewrite exec_at_end. unfold Regex.re_base.
    set (authority := Regex.Cat (Regex.Star Regex.not_slash) _).
    cbn [Regex.run]. fold authority.
    unfold base at 1, authority. rewrite authority_run by done.
    destruct (lazy_tail_total 2 path [(1, Regex.consumed base path)] Hpath)
      as [c Hc].
    cbn [Regex.run] in Hc. rewrite Hc.
    apply (lazy_tail 2 path) in Hc as (g & t & _ & _ & ->). exists g.
    do 3 f_equal. unfold base.
    replace (scheme +:+ "//" +:+ host +:+ "/" +:+ path)
      with ((scheme +:+ "//" +:+ host +:+ "/") +:+ path)
      by (by rewrite !append_assoc).
    by rewrite consumed_append. }
  destruct Hm as [g ->]. cbn [Regex.group Nat.eqb default].
  destruct (Regex.exec Regex.re_terms id) as [m'|]; [|done].
  destruct (Regex.group 1 m'); [|done].
  intros [= <-]. eexists. by rewrite !append_assoc.
Qed.

Lemma _resolveRelativeId_keeps_authority_witness :
  ∃ rest, "http://x.com/c" = "http:" +:+ "//" +:+ "x.com" +:+ "/" +:+ rest.
Proof.
  apply (_resolveRelativeId_keeps_authority "http:" "x.com" "a/b/" "../../../../c");
    by vm_compute.
Defined.

(** ** The regular expressions of [_resolveRelativeId], exactly *)

Lemma has_line_terminator_app (a b : string) :
  has_line_terminator (a +:+ b) = has_line_terminator a || has_line_terminator b.
Proof.
  induction a as [|x a IH]; [done |].
  rewrite append_cons. cbn [has_line_terminator]. by rewrite IH, orb_assoc.
Qed.

Lemma chop_slash_cons (c : ascii) (s : string) :
  s ≠ "" → chop_slash (String c s) = String c (chop_slash s).
Proof. by destruct s. Qed.

Lemma chop_slash_app (p s : string) :
  s ≠ "" → chop_slash (p +:+ s) = p +:+ chop_slash s.
Proof.
  intros Hs. induction p as [|c p IH]; [done |].
  rewrite !append_cons, chop_slash_cons, IH; [done |].
  by destruct p, s.
Qed.

Lemma star_lazy_cons {A} (p : ascii → bool) (c : ascii) (r : string)
    (k : string → option A) :
  Regex.star_lazy p (String c r) k =
    match k (String c r) with
    | Some a => Some a
    | None => if p c then Regex.star_lazy p r k else None
    end.
Proof. reflexivity. Qed.

(** [(.*?)\/?$] from any position [t] of the subject [pre +:+ t]: the
    group takes everything but one trailing slash. *)
Lemma star_lazy_chop (n : nat) (pre t : string) (caps : Regex.captures) :
  Regex.star_lazy Regex.any t
    (λ rest, Regex.run (Regex.Opt (Regex.Class Regex.is_slash)) rest
               ((n, Regex.consumed (pre +:+ t) rest) :: caps) at_end)
  = if has_line_terminator (chop_slash t) then None
    else Some ((n, pre +:+ chop_slash t) :: caps).
Proof.
  revert pre. induction t as [|c t IH]; intros pre.
  - cbn. by rewrite (consumed_append pre ""), append_nil_r.
  - destruct t as [|c' t].
    + cbn [Regex.star_lazy Regex.run chop_slash]. unfold Regex.is_slash.
      destruct (Ascii.eqb c Str.slash) eqn:Hc.
      * cbn. by rewrite consumed_append, append_nil_r.
      * cbn [at_end]. cbn [has_line_terminator]. rewrite any_line_terminator.
        destruct (line_terminator c); cbn [negb orb]; [done |].
        cbn. pose proof (consumed_append (pre +:+ String c "") "") as Hcons.
        rewrite append_nil_r in Hcons. by rewrite Hcons.
    + rewrite chop_slash_cons by done.
      rewrite star_lazy_cons.
      assert (Regex.run (Regex.Opt (Regex.Class Regex.is_slash)) (String c (String c' t))
                ((n, Regex.consumed (pre +:+ String c (String c' t)) (String c (String c' t)))
                 :: caps) at_end = None) as ->.
      { cbn. by destruct (Regex.is_slash c). }
      cbn [has_line_terminator]. rewrite any_line_terminator.
      destruct (line_terminator c); cbn [negb orb]; [done |].
      rewrite (star_lazy_ext _ _ _
        (λ rest, Regex.run (Regex.Opt (Regex.Class Regex.is_slash)) rest
                   ((n, Regex.consumed ((pre +:+ String c "") +:+ String c' t) rest)
                    :: caps) at_end)).
      2:{ intros rest. by rewrite append_assoc. }
      rewrite IH. by rewrite append_assoc.
Qed.

Lemma lazy_tail_exact (n : nat) (s : string) (caps : Regex.captures) :
  Regex.run (Regex.Cat (Regex.Group n (Regex.LazyStar Regex.any))
                       (Regex.Opt (Regex.Class Regex.is_slash))) s caps at_end
  = if has_line_terminator (chop_slash s) then None
    else Some ((n, chop_slash s) :: caps).
Proof.
  cbn [Regex.run]. exact (star_lazy_chop n "" s caps).
Qed.

(** [[^\/]*] takes characters that are not slashes. *)
Lemma star_not_slash_Some {A} (s : string) (k : string → option A) (a : A) :
  Regex.star_greedy Regex.not_slash s k = Some a →
  ∃ pre rest, s = pre +:+ rest ∧ Str.contains Str.slash pre = false ∧
              k rest = Some a.
Proof.
  induction s as [|c s IH]; cbn [Regex.star_greedy].
  - intros Hk. by exists "", "".
  - rewrite not_slash_eq. destruct (Ascii.eqb Str.slash c) eqn:Hc; cbn [negb];
      [intros Hk; by exists "", (String c s) |].
    destruct (Regex.star_greedy Regex.not_slash s k) eqn:Hg.
    + intros [= ->]. destruct (IH eq_refl) as (pre & rest & -> & Hpre & Hrest).
      exists (String c pre), rest. split_and!; [done | | done].
      cbn [Str.contains]. by rewrite Hc.
    + intros Hk. by exists "", (String c s).
Qed.

(** When the scheme and authority part of [re_base] matches, the subject
    starts with a scheme, two slashes, a host and a slash. *)
Lemma authority_parts (base : string) (caps c : Regex.captures)
    (k : string → Regex.captures → option Regex.captures) :
  Regex.run
    (Regex.Cat (Regex.Star Regex.not_slash)
       (Regex.Cat (Regex.Class Regex.is_slash)
          (Regex.Cat (Regex.Class Regex.is_slash)
             (Regex.Cat (Regex.Plus Regex.not_slash) (Regex.Class Regex.is_slash)))))
    base caps k = Some c →
  ∃ prefix path, has_authority base prefix path.
Proof.
  cbn [Regex.run].
  intros (scheme & r1 & -> & Hscheme & Hk)%star_not_slash_Some.
  destruct r1 as [|x1 r1]; [done |].
  unfold Regex.is_slash in Hk at 1.
  destruct (Ascii.eqb x1 Str.slash) eqn:H1; [|done].
  apply Ascii.eqb_eq in H1 as ->.
  destruct r1 as [|x2 r1]; [done |].
  unfold Regex.is_slash in Hk at 1.
  destruct (Ascii.eqb x2 Str.slash) eqn:H2; [|done].
  apply Ascii.eqb_eq in H2 as ->.
  destruct r1 as [|x3 r1]; [done |].
  rewrite not_slash_eq in Hk.
  destruct (Ascii.eqb Str.slash x3) eqn:H3; [done |]. cbn [negb] in Hk.
  apply star_not_slash_Some in Hk as (host & r2 & -> & Hhost & Hk).
  destruct r2 as [|x4 path]; [done |].
  unfold Regex.is_slash in Hk.
  destruct (Ascii.eqb x4 Str.slash) eqn:H4; [|done].
  apply Ascii.eqb_eq in H4 as ->.
  exists (scheme +:+ "//" +:+ String x3 host +:+ "/"), path, scheme, (String x3 host).
  split_and!; [done | | done | | done].
  - by rewrite !append_assoc.
  - cbn [Str.contains]. by rewrite H3.
Qed.

Lemma group_default_cons (n : nat) (g : string) (caps : Regex.captures) :
  Regex.group n ((n, g) :: caps) = Some g.
Proof. cbn. by rewrite Nat.eqb_refl. Qed.

(** The match of a base: group 1 is the scheme and authority, when the
    base starts with them, and group 2 is the path, less one trailing
    slash. *)
Lemma re_base_exact (base prefix path : string) (m : Regex.captures) :
  base_parts base prefix path →
  Regex.exec Regex.re_base base = Some m →
  default "" (Regex.group 1 m) = prefix ∧ Regex.group 2 m = Some (chop_slash path).
Proof.
  intros Hparts. rewrite exec_at_end. unfold Regex.re_base.
  set (authority := Regex.Cat (Regex.Star Regex.not_slash) _).
  set (tail := Regex.Cat (Regex.Group 2 _) _).
  cbn [Regex.run]. fold authority. fold tail.
  destruct Hparts as [Hauth|(-> & -> & Hnone)].
  - destruct Hauth as (scheme & host & -> & -> & Hscheme & Hhost & Hne).
    rewrite !append_assoc. unfold authority at 1.
    rewrite authority_run by done.
    rewrite <-!append_assoc.
    rewrite consumed_append. unfold tail at 1. rewrite lazy_tail_exact.
    destruct (has_line_terminator (chop_slash path)) eqn:Hlt.
    + unfold tail. rewrite lazy_tail_exact.
      destruct path as [|x path]; [done |].
      rewrite chop_slash_app by done.
      by rewrite has_line_terminator_app, Hlt, orb_true_r.
    + intros [= <-]. by cbn.
  - destruct (Regex.run authority base [] _) as [c|] eqn:Hrun.
    + apply authority_parts in Hrun as (p & q & Hpq). by destruct (Hnone p q).
    + unfold tail. rewrite lazy_tail_exact.
      destruct (has_line_terminator (chop_slash base)); [done |].
      intros [= <-]. by cbn.
Qed.

(** The match of a relative id: group 1 is the id, less one trailing
    slash. *)
Lemma re_terms_exact (id : string) (m : Regex.captures) :
  Str.first id = Some Str.dot → Regex.exec Regex.re_terms id = Some m →
  Regex.group 1 m = Some (chop_slash id).
Proof.
  intros Hid. rewrite exec_at_end. unfold Regex.re_terms.
  destruct id as [|x id]; [done |]. injection Hid as ->.
  cbn -[Regex.is_slash chop_slash]. change (Regex.is_slash Str.dot) with false.
  cbv iota.
  intros Hm.
  assert (Hm' : Regex.run (Regex.Cat (Regex.Group 1 (Regex.LazyStar Regex.any))
                             (Regex.Opt (Regex.Class Regex.is_slash)))
                  (String Str.dot id) [] at_end = Some m) by exact Hm.
  rewrite lazy_tail_exact in Hm'.
  destruct (has_line_terminator _); [done |]. injection Hm' as <-. by cbn.
Qed.

(** What [_resolveRelativeId] answers, when it answers. *)
Lemma _resolveRelativeId_exact (base prefix path id resolved : string) :
  base_parts base prefix path → Str.first id = Some Str.dot →
  _resolveRelativeId base id = Normal resolved →
  resolved =
    prefix +:+
    Str.join (fold_left walk (Str.split (chop_slash id))
                (if String.eqb (chop_slash path) "" then []
                 else Str.split (chop_slash path))).
Proof.
  intros Hparts Hid. unfold _resolveRelativeId.
  rewrite bool_decide_eq_true_2 by done. cbn [negb].
  destruct (Regex.exec Regex.re_base base) as [m|] eqn:Hm; [|done].
  destruct (re_base_exact base prefix path m Hparts Hm) as [-> ->].
  destruct (Regex.exec Regex.re_terms id) as [m'|] eqn:Hm'; [|done].
  rewrite (re_terms_exact id m' Hid Hm'). by intros [= <-].
Qed.

(** [split], [join] and the directory *)
Lemma contains_slash_cons (c : ascii) (s : string) :
  Str.contains Str.slash (String c s)
  = Ascii.eqb Str.slash c || Str.contains Str.slash s.
Proof. cbn. by destruct (Ascii.eqb Str.slash c). Qed.

Lemma split_slash_free (s : string) :
  Str.contains Str.slash s = false → Str.split s = [s].
Proof.
  induction s as [|c s IH]; [done |]. rewrite contains_slash_cons.
  intros [Hc Hs]%orb_false_elim. cbn [Str.split].
  rewrite Ascii.eqb_sym, Hc. by rewrite (IH Hs).
Qed.

Lemma split_with_slash (s : string) :
  Str.contains Str.slash s = true → ∃ h t, Str.split s = h :: t ∧ t ≠ [].
Proof.
  induction s as [|c s IH]; [done |]. rewrite contains_slash_cons. cbn [Str.split].
  rewrite (Ascii.eqb_sym c). destruct (Ascii.eqb Str.slash c); cbn [orb].
  - intros _. eexists _, _. split; [done |]. apply split_nonempty.
  - intros (h & t & -> & Ht)%IH. by eexists _, _.
Qed.

Lemma chop_slash_free (s : string) :
  Str.contains Str.slash s = false → chop_slash s = s.
Proof.
  induction s as [|c s IH]; [done |]. rewrite contains_slash_cons.
  intros [Hc Hs]%orb_false_elim. destruct s as [|c' s].
  - cbn. by rewrite Ascii.eqb_sym, Hc.
  - rewrite chop_slash_cons by done. by rewrite (IH Hs).
Qed.

Lemma directory_cons (c : ascii) (s : string) :
  directory (String c s)
  = if Str.contains Str.slash (String c s) then String c (directory s) else "".
Proof. reflexivity. Qed.

(** Dropping the last term and adding a name: the name goes into the
    directory. *)
Lemma join_removelast_split (g d : string) :
  Str.join (removelast (Str.split g) ++ [d]) = directory g +:+ d.
Proof.
  induction g as [|c g IH]; [done |].
  rewrite directory_cons, contains_slash_cons. cbn [Str.split].
  rewrite (Ascii.eqb_sym c). destruct (Ascii.eqb Str.slash c) eqn:Hc; cbn [orb].
  - apply Ascii.eqb_eq in Hc as <-.
    pose proof (split_nonempty g) as Hne.
    destruct (Str.split g) as [|h t] eqn:Hsplit; [done |].
    change (removelast ("" :: h :: t)) with ("" :: removelast (h :: t)).
    rewrite <-app_comm_cons, join_cons by (by destruct (removelast (h :: t))).
    by rewrite IH.
  - destruct (Str.contains Str.slash g) eqn:Hg.
    + destruct (split_with_slash g Hg) as (h & t & Hsplit & Ht).
      rewrite Hsplit in *. destruct t as [|h' t]; [done |].
      change (removelast (String c h :: h' :: t))
        with (String c h :: removelast (h' :: t)).
      change (removelast (h :: h' :: t)) with (h :: removelast (h' :: t)) in IH.
      rewrite <-app_comm_cons in *.
      rewrite join_cons in * by (by destruct (removelast (h' :: t))).
      rewrite !append_cons. by rewrite IH.
    + by rewrite (split_slash_free g Hg).
Qed.

Lemma terms_removelast (g d : string) :
  Str.join (removelast (if String.eqb g "" then [] else Str.split g) ++ [d])
  = directory g +:+ d.
Proof.
  destruct (String.eqb g "") eqn:Hg; [|apply join_removelast_split].
  by apply String.eqb_eq in Hg as ->.
Qed.

(** A relative id that climbs once and names [d]. *)
Lemma parent_terms (d : string) :
  is_name d →
  chop_slash ("../" +:+ d) = "../" +:+ d ∧
  Str.split ("../" +:+ d) = [".."; d] ∧
  ∀ terms, fold_left walk [".."; d] terms = removelast terms ++ [d].
Proof.
  intros (Hne & Hslash & Hdot & Hdots). split_and!.
  - change ("../" +:+ d) with (String "." (String "." (String "/" d))).
    destruct d as [|x d]; [done |].
    rewrite !chop_slash_cons by done. by rewrite (chop_slash_free _ Hslash).
  - change ("../" +:+ d) with (String "." (String "." (String "/" d))).
    cbn [Str.split]. rewrite (split_slash_free d Hslash). by cbn.
  - intros terms. cbn [fold_left].
    change (walk terms "..") with (removelast terms).
    unfold walk. apply String.eqb_neq in Hdot, Hdots. by rewrite Hdot, Hdots.
Qed.

(** [..] and a name, against any base: one trailing slash of the path is
    ignored, the last segment of what is left is dropped, and the name is
    added. *)
Lemma _resolveRelativeId_parent (base prefix path d resolved : string) :
  base_parts base prefix path → is_name d →
  _resolveRelativeId base ("../" +:+ d) = Normal resolved →
  resolved = prefix +:+ directory (chop_slash path) +:+ d.
Proof.
  intros Hparts Hd Hres.
  rewrite (_resolveRelativeId_exact base prefix path ("../" +:+ d) resolved
             Hparts eq_refl Hres).
  destruct (parent_terms d Hd) as (-> & -> & ->). by rewrite terms_removelast.
Qed.

(** [.], against any base. *)
Lemma _resolveRelativeId_self (base prefix path resolved : string) :
  base_parts base prefix path →
  _resolveRelativeId base "." = Normal resolved →
  resolved = prefix +:+ chop_slash path.
Proof.
  intros Hparts Hres.
  rewrite (_resolveRelativeId_exact base prefix path "." resolved
             Hparts eq_refl Hres).
  change (chop_slash ".") with ".". change (Str.split ".") with ["."].
  set (terms := if String.eqb _ "" then [] else _).
  change (fold_left walk ["."] terms) with terms. subst terms.
  destruct (String.eqb (chop_slash path) "") eqn:Hg; [|by rewrite join_split].
  by apply String.eqb_eq in Hg as ->.
Qed.

(** ** The scheme and authority of a base *)

Lemma segment_split (s : string) :
  s = segment s +:+ after_segment s ∧ Str.contains Str.slash (segment s) = false ∧
  (after_segment s = "" ∨ ∃ r, after_segment s = String Str.slash r).
Proof.
  induction s as [|c s (IH1 & IH2 & IH3)]; [by auto |].
  cbn [segment after_segment]. destruct (Ascii.eqb c Str.slash) eqn:Hc.
  - apply Ascii.eqb_eq in Hc as ->. split_and!; [done | done |]. right. by eexists.
  - split_and!; [by rewrite append_cons, <-IH1 | | done].
    rewrite contains_slash_cons, Ascii.eqb_sym, Hc. by rewrite IH2.
Qed.

Lemma segment_app (s r : string) :
  Str.contains Str.slash s = false →
  segment (s +:+ String Str.slash r) = s ∧
  after_segment (s +:+ String Str.slash r) = String Str.slash r.
Proof.
  induction s as [|c s IH]; [done |]. rewrite contains_slash_cons.
  intros [Hc Hs]%orb_false_elim. rewrite append_cons. cbn [segment after_segment].
  rewrite Ascii.eqb_sym, Hc. destruct (IH Hs) as [-> ->]. done.
Qed.

Lemma has_authority_computed (base prefix path : string) :
  has_authority base prefix path → authority_and_path base = (prefix, path).
Proof.
  intros (scheme & host & -> & -> & Hscheme & Hhost & Hne).
  unfold authority_and_path. rewrite !append_assoc.
  change ("//" +:+ host +:+ "/" +:+ path)
    with (String Str.slash (String Str.slash (host +:+ String Str.slash path))).
  destruct (segment_app scheme (String Str.slash (host +:+ String Str.slash path))
              Hscheme) as [-> ->].
  rewrite Ascii.eqb_refl.
  destruct (segment_app host path Hhost) as [-> ->].
  by destruct host as [|x host].
Qed.

Lemma base_parts_computed (base : string) :
  base_parts base (authority base) (path_of base).
Proof.
  unfold authority, path_of.
  assert (Hnone : authority_and_path base = ("", base) →
                  base_parts base ("", base).1 ("", base).2).
  { intros Hcomp. right. split_and!; [done | done |].
    intros p q Hpq. pose proof Hpq as (scheme & host & -> & _).
    apply has_authority_computed in Hpq. rewrite Hcomp in Hpq.
    injection Hpq as Hp _. by destruct scheme. }
  destruct (segment_split base) as (Hbase & Hscheme & _).
  unfold authority_and_path in *.
  destruct (after_segment base) as [|a [|b r]] eqn:Hafter; [by apply Hnone ..|].
  destruct (Ascii.eqb b Str.slash) eqn:Hb; [|by apply Hnone].
  apply Ascii.eqb_eq in Hb as ->.
  destruct (segment_split r) as (Hr & Hhost & _).
  destruct (segment r) as [|x host] eqn:Hseg; [by apply Hnone |].
  destruct (after_segment r) as [|a' path] eqn:Hafter'; [by apply Hnone |].
  assert (a = Str.slash) as ->.
  { destruct (segment_split base) as (_ & _ & [H|[r' H]]); rewrite Hafter in H;
      [done | by injection H]. }
  assert (a' = Str.slash) as ->.
  { destruct (segment_split r) as (_ & _ & [H|[r' H]]); rewrite Hafter' in H;
      [done | by injection H]. }
  left. exists (segment base), (String x host). cbn [fst snd].
  split_and!; [done | | done | done | done].
  rewrite Hbase at 1. rewrite !append_assoc. f_equal.
  change ("//" +:+ String x host +:+ "/" +:+ path)
    with (String Str.slash (String Str.slash (String x host +:+ String Str.slash path))).
  by rewrite <-Hr.
Qed.

(** X3. Resolving [.] gives back the base less one trailing slash of its
    path: the answer, when there is one, is the scheme and authority of the
    base (which end in a slash that is kept) followed by the path without
    its last character when that is a slash, and by the whole path
    otherwise. *)
Theorem _resolveRelativeId_dot (base resolved : string) :
  _resolveRelativeId base "." = Normal resolved →
  base = authority base +:+ path_of base ∧
  resolved = authority base +:+ chop_slash (path_of base).
Proof.
  intros Hres. pose proof (base_parts_computed base) as Hparts. split.
  - destruct Hparts as [(scheme & host & _ & Hbase & _)|(-> & -> & _)]; done.
  - by apply (_resolveRelativeId_self base).
Qed.

Lemma _resolveRelativeId_dot_witness :
  "http://x.com/a/" = authority "http://x.com/a/" +:+ path_of "http://x.com/a/" ∧
  "http://x.com/a" = authority "http://x.com/a/" +:+ chop_slash (path_of "http://x.com/a/").
Proof. apply _resolveRelativeId_dot. by vm_compute. Defined.

(** ** define, in general *)

Section Define.
Variable URL : string → string → option string.
Variable call : nat → list value → completion value.

(** X5. An anonymous module in a script that carries an [as] attribute is
    named by the alias, and its relative dependencies are resolved against
    the directory of the alias, not against the location of the document
    (which need not even have a base URI). *)
Theorem define_aliased (h : host) (s : script) (alias : string)
    (id dependencies factory : value) (st st' : state) (r : completion unit)
    (k : nat) (c : closure) :
  match _currentScript h with Some s => Some s | None => currentScript h end = Some s →
  attr_as s = Some alias →
  (∀ x, id ≠ VStr x) →
  define URL call h id dependencies factory st = (r, st') →
  length (calls st) ≤ k → calls st' !! k = Some c →
  c_moduleId c = alias ∧ c_base c = directory alias.
Proof.
  intros Hs Has Hid Hdef Hk Hc.
  destruct (define_closure URL call h id dependencies factory st r st' k c
              Hdef Hk Hc) as (inferredId & Hinf & Hdir & Hmid & _).
  unfold _inferModuleId in Hinf. rewrite Hs, Has in Hinf. injection Hinf as <-.
  rewrite dirname_longest_prefix in Hdir.
  destruct (has_line_terminator (directory alias)); [done |].
  injection Hdir as <-. split; [|done].
  rewrite Hmid. destruct id; try done. by destruct (Hid s0).
Qed.

End Define.

Lemma define_aliased_witness :
  c_moduleId aliased_closure = "lib/thingy" ∧
  c_base aliased_closure = directory "lib/thingy".
Proof.
  apply (define_aliased relative_URL factories aliased_script
           {| attr_as := Some "lib/thingy"; attr_src := Some "thingo.js";
              ownerDocument := None |} "lib/thingy"
           VUndefined (VArr ["./x"]) (VFun 1) init
           (define relative_URL factories aliased_script
              VUndefined (VArr ["./x"]) (VFun 1) init).2
           (Normal tt) 0 aliased_closure).
  - by vm_compute.
  - by vm_compute.
  - done.
  - by vm_compute.
  - vm_compute. lia.
  - by vm_compute.
Defined.

(** ** Dependencies that are all registered *)

Section Registered.
Variable URL : string → string → option string.
Variable call : nat → list value → completion value.

Lemma array_set_snoc (vs : list value) (v : value) :
  array_set (Some <$> vs) (length vs) v = Some <$> (vs ++ [v]).
Proof.
  unfold array_set. rewrite length_fmap. rewrite decide_False by lia.
  replace (length vs - length vs) with 0 by lia. by rewrite fmap_app.
Qed.

Lemma arguments_Some (vs : list value) : arguments (Some <$> vs) = vs.
Proof.
  unfold arguments. rewrite <-list_fmap_compose. by rewrite list_fmap_id.
Qed.

Lemma forEach_cons {A} (g : A → nat → M unit) (x : A) (xs : list A) (i : nat)
    (st : state) :
  forEach g (x :: xs) i st =
    match g x i st with
    | (Normal _, st1) => forEach g xs (S i) st1
    | (Throw e, st1) => (Throw e, st1)
    end.
Proof. reflexivity. Qed.

(** A registered dependency settles at once, with its export. *)
Lemma request_dependency_registered (k : nat) (moduleId base d : string) (i : nat)
    (st : state) (target : string) (v : value) :
  resolve_dependency base d = Normal target → reserved target = false →
  _modules st !! target = Some v →
  request_dependency call k moduleId base d i st
    = on_dependency call k i target None v st.
Proof.
  intros Hres (H1 & H2 & H3)%reserved_false Hv.
  unfold request_dependency, _require. munfold. rewrite Hres. cbv beta iota.
  by rewrite H1, H2, H3, Hv.
Qed.

(** A success that is not the last one fills its slot and waits. *)
Lemma on_dependency_waiting (k i : nat) (id : string) (v : value) (st : state)
    (c : closure) :
  calls st !! k = Some c → requireError c = false →
  unresolvedDependencies c ≠ 1%Z →
  on_dependency call k i id None v st =
    (Normal tt,
     set_calls (λ l, <[k := resolve_slot i v c]> l)
       (set_trace (λ t, t ++ [Settled k i None v; Log ("Loaded " +:+ id)]) st)).
Proof.
  intros Hc Hre Hun. unfold on_dependency. munfold. cbn.
  rewrite Hc. cbn. rewrite Hre. cbn.
  replace (unresolvedDependencies c - 1 =? 0)%Z with false
    by (symmetry; apply Z.eqb_neq; lia).
  unfold set_calls, set_trace. cbn. by rewrite <-(assoc_L (++)).
Qed.

(** The last success runs the factory on the slots and commits what it
    returns, or lets through what it throws. *)
Lemma on_dependency_last (k i : nat) (id : string) (v : value) (st : state)
    (c : closure) (f : nat) :
  calls st !! k = Some c → requireError c = false →
  unresolvedDependencies c = 1%Z → c_factory c = VFun f →
  let args := arguments (array_set (modules c) i v) in
  let tr := [Settled k i None v; Log ("Loaded " +:+ id);
             Log ("All dependencies resolved for " +:+ c_moduleId c);
             Applied k (VFun f) args] in
  let st1 := set_calls (λ l, <[k := resolve_slot i v c]> l) st in
  on_dependency call k i id None v st =
    match call f args with
    | Normal module =>
        (Normal tt,
         set_modules (λ m, <[c_moduleId c := module]> m)
           (set_trace (λ t, t ++ tr ++ [Completed k None module;
                                        Written k (c_moduleId c) module]) st1))
    | Throw e => (Throw e, set_trace (λ t, t ++ tr) st1)
    end.
Proof.
  intros Hc Hre Hun Hf. unfold on_dependency, apply, define_callback. munfold.
  cbn. rewrite Hc. cbn. rewrite Hre. cbn. rewrite Hun, Hf.
  change (1 - 1 =? 0)%Z with true. cbn.
  destruct (call f _); unfold set_modules, set_calls, set_trace; cbn;
    by rewrite <-!(assoc_L (++)).
Qed.

(** The loop of [_runFactory] from position [length seen] on, when what is
    left to request is registered: every dependency settles at once, and
    the last one runs the factory. *)
Lemma forEach_registered (k : nat) (moduleId base : string) (f : nat)
    (xs : list string) (seen vs : list value) (st : state) (c : closure) :
  calls st !! k = Some c → c_moduleId c = moduleId → c_factory c = VFun f →
  requireError c = false → modules c = Some <$> seen →
  unresolvedDependencies c = Z.of_nat (length xs) → xs ≠ [] →
  Forall2 (registered base st) xs vs →
  ∃ st' tr,
    forEach (request_dependency call k moduleId base) xs (length seen) st
      = (answer (call f (seen ++ vs)), st') ∧
    _modules st' = commit moduleId (call f (seen ++ vs)) (_modules st) ∧
    scripts st' = scripts st ∧ heap st' = heap st ∧
    length (calls st') = length (calls st) ∧
    trace st' = trace st ++ tr ∧
    applied k tr = [(VFun f, seen ++ vs)].
Proof.
  revert seen vs st c. induction xs as [|d xs IH]; [done |].
  intros seen vs st c Hc Hmid Hfac Hre Hmod Hun _ Hreg.
  apply Forall2_cons_inv_l in Hreg as (v & vs' & (t & Hres & Hrsv & Hv) & Hreg & ->).
  rewrite forEach_cons, (request_dependency_registered _ _ _ _ _ _ t v) by done.
  destruct xs as [|d' xs].
  - apply Forall2_nil_inv_l in Hreg as ->.
    rewrite (on_dependency_last _ _ _ _ _ c f) by done.
    rewrite Hmod, array_set_snoc, arguments_Some, Hmid.
    destruct (call f (seen ++ [v])) as [m|e] eqn:Hcall; cbn.
    + eexists _, _. split_and!; try reflexivity.
      * cbn. by rewrite length_insert.
      * by unfold applied; cbn; rewrite decide_True.
    + eexists _, _. split_and!; try reflexivity.
      * cbn. by rewrite length_insert.
      * by unfold applied; cbn; rewrite decide_True.
  - rewrite (on_dependency_waiting _ _ _ _ _ c) by (try done; cbn [length] in Hun; lia).
    match goal with
    | |- context [forEach _ _ _ ?s] => set (st1 := s)
    end.
    assert (H1 : calls st1 !! k = Some (resolve_slot (length seen) v c)).
    { subst st1. cbn. apply list_lookup_insert_eq. by eapply lookup_lt_Some. }
    assert (H2 : modules (resolve_slot (length seen) v c) = Some <$> (seen ++ [v])).
    { cbn. by rewrite Hmod, array_set_snoc. }
    assert (H3 : unresolvedDependencies (resolve_slot (length seen) v c)
                 = Z.of_nat (length (d' :: xs))).
    { cbn [unresolvedDependencies resolve_slot length] in *. lia. }
    assert (H4 : Forall2 (registered base st1) (d' :: xs) vs').
    { eapply Forall2_impl; [exact Hreg |]. intros ? ? (t' & ? & ? & ?). by exists t'. }
    destruct (IH (seen ++ [v]) vs' st1 (resolve_slot (length seen) v c)
                H1 Hmid Hfac Hre H2 H3 ltac:(done) H4)
      as (st' & tr & Hrun & Hm & Hs & Hh & Hl & Ht & Ha).
    rewrite length_app in Hrun. cbn [length] in Hrun.
    replace (length seen + 1) with (S (length seen)) in Hrun by lia.
    rewrite <-(assoc_L (++)) in Hrun, Hm, Ha. cbn in Hrun, Hm, Ha.
    exists st', ([Settled k (length seen) None v; Log ("Loaded " +:+ t)] ++ tr).
    split_and!; try done.
    { rewrite Hl. subst st1. cbn. by rewrite length_insert. }
    { rewrite Ht. subst st1. cbn. by rewrite <-!(assoc_L (++)). }
Qed.


(** A call of [define] whose dependencies are all registered runs its
    factory before it returns. *)
Lemma define_registered (h : host) (id : value) (dependencies : list string)
    (f : nat) (vs : list value) (st : state) (inferredId base : string) :
  _inferModuleId URL h = Normal inferredId → dirname inferredId = Normal base →
  let id' := match id with VStr s => s | _ => inferredId end in
  Str.contains Str.backslash id' = false → _modules st !! id' = None →
  Forall2 (registered base st) dependencies vs →
  ∃ st' tr,
    define URL call h id (VArr dependencies) (VFun f) st
      = (answer (call f vs), st') ∧
    _modules st' = commit id' (call f vs) (_modules st) ∧
    scripts st' = scripts st ∧ heap st' = heap st ∧
    trace st' = trace st ++ tr ∧
    applied (length (calls st)) tr = [(VFun f, vs)].
Proof.
  intros Hinf Hdir id' Hid Hnew Hreg.
  unfold define. munfold. rewrite Hinf. cbv beta iota. fold id'.
  rewrite Hid. cbn [_modules]. rewrite Hnew.
  rewrite bool_decide_eq_false_2 by (intros [? [=]]).
  rewrite Hdir. cbv beta iota.
  change (js_or (js_or (VFun f) (VArr dependencies)) id) with (VFun f).
  unfold _runFactory. munfold. cbn [is_function negb].
  destruct dependencies as [|d ds].
  - apply Forall2_nil_inv_l in Hreg as ->.
    change (Z.of_nat (length []) =? 0)%Z with true. cbv beta iota.
    unfold apply, define_callback. munfold. cbn.
    destruct (call f []) as [m|e]; cbn.
    + eexists _, _. split_and!; try reflexivity.
      * cbn. rewrite <-!(assoc_L (++)). reflexivity.
      * by unfold applied; cbn; rewrite decide_True.
    + eexists _, _. split_and!; try reflexivity.
      by unfold applied; cbn; rewrite decide_True.
  - replace (Z.of_nat (length (d :: ds)) =? 0)%Z with false
      by (symmetry; apply Z.eqb_neq; cbn [length]; lia).
    cbv beta iota.
    match goal with
    | |- context [forEach _ _ _ ?s] => set (st1 := s)
    end.
    destruct (forEach_registered (length (calls st)) id' base f (d :: ds) [] vs st1
      {| c_moduleId := id'; c_base := base; c_dependencies := d :: ds;
         c_factory := VFun f;
         unresolvedDependencies := Z.of_nat (length (d :: ds));
         modules := []; requireError := false |})
      as (st' & tr & Hrun & Hm & Hs & Hh & Hl & Ht & Ha); try done.
    { subst st1. cbn. by apply list_lookup_middle. }
    exists st', tr. by split_and!.
Qed.

(** X6. A module whose dependencies are all registered is defined before
    [define] returns: the factory is applied, once, to the exports of the
    dependencies in the order of their declaration, what it returns is
    registered under the id of the module, and no script is appended. *)
Theorem define_registered_commits (h : host) (id : value)
    (dependencies : list string) (f : nat) (vs : list value) (module : value)
    (st : state) (inferredId base : string) :
  _inferModuleId URL h = Normal inferredId → dirname inferredId = Normal base →
  let id' := match id with VStr s => s | _ => inferredId end in
  Str.contains Str.backslash id' = false → _modules st !! id' = None →
  Forall2 (registered base st) dependencies vs →
  call f vs = Normal module →
  ∃ st' tr,
    define URL call h id (VArr dependencies) (VFun f) st = (Normal tt, st') ∧
    _modules st' = <[id' := module]> (_modules st) ∧
    scripts st' = scripts st ∧
    trace st' = trace st ++ tr ∧
    applied (length (calls st)) tr = [(VFun f, vs)].
Proof.
  intros Hinf Hdir id' Hid Hnew Hreg Hcall.
  destruct (define_registered h id dependencies f vs st inferredId base
              Hinf Hdir Hid Hnew Hreg) as (st' & tr & Hdef & Hm & Hs & _ & Ht & Ha).
  rewrite Hcall in Hdef, Hm. exists st', tr. by split_and!.
Qed.

(** X7. When the factory of such a module throws, the exception leaves
    [define], the registry is as it was (the id is still free), and no
    script is appended. *)
Theorem define_factory_throws (h : host) (id : value)
    (dependencies : list string) (f : nat) (vs : list value) (e : exn)
    (st : state) (inferredId base : string) :
  _inferModuleId URL h = Normal inferredId → dirname inferredId = Normal base →
  let id' := match id with VStr s => s | _ => inferredId end in
  Str.contains Str.backslash id' = false → _modules st !! id' = None →
  Forall2 (registered base st) dependencies vs →
  call f vs = Throw e →
  ∃ st',
    define URL call h id (VArr dependencies) (VFun f) st = (Throw e, st') ∧
    _modules st' = _modules st ∧
    scripts st' = scripts st.
Proof.
  intros Hinf Hdir id' Hid Hnew Hreg Hcall.
  destruct (define_registered h id dependencies f vs st inferredId base
              Hinf Hdir Hid Hnew Hreg) as (st' & tr & Hdef & Hm & Hs & _).
  rewrite Hcall in Hdef, Hm. exists st'. by split_and!.
Qed.

End Registered.

Lemma define_registered_commits_witness :
  ∃ st' tr,
    define relative_URL factories app_page (VStr "m") (VArr ["a"; "./b"]) (VFun 1) stocked
      = (Normal tt, st') ∧
    _modules st' = <["m" := VNum 2]> (_modules stocked) ∧
    scripts st' = scripts stocked ∧
    trace st' = trace stocked ++ tr ∧
    applied (length (calls stocked)) tr = [(VFun 1, [VNum 1; VNum 2])].
Proof.
  apply (define_registered_commits relative_URL factories app_page (VStr "m")
           ["a"; "./b"] 1 [VNum 1; VNum 2] (VNum 2) stocked
           "http://h/app/index.html" "http://h/app/").
  - by vm_compute.
  - by vm_compute.
  - by vm_compute.
  - by vm_compute.
  - repeat constructor; [exists "a" | exists "http://h/app/b"]; by vm_compute.
  - by vm_compute.
Defined.

Lemma define_factory_throws_witness :
  ∃ st',
    define relative_URL factories app_page (VStr "m") (VArr ["a"; "./b"]) (VFun 3) stocked
      = (Throw (Raised (VStr "factory failed")), st') ∧
    _modules st' = _modules stocked ∧
    scripts st' = scripts stocked.
Proof.
  apply (define_factory_throws relative_URL factories app_page (VStr "m")
           ["a"; "./b"] 3 [VNum 1; VNum 2] (Raised (VStr "factory failed")) stocked
           "http://h/app/index.html" "http://h/app/").
  - by vm_compute.
  - by vm_compute.
  - by vm_compute.
  - by vm_compute.
  - repeat constructor; [exists "a" | exists "http://h/app/b"]; by vm_compute.
  - by vm_compute.
Defined.

(** ** Every operation is made of steps *)

Ltac step_emit := eapply rtc_r; [|apply change_emit; done].

Section Steps.
Variable URL : string → string → option string.
Variable call : nat → list value → completion value.

Lemma define_callback_evolves k c err v st :
  calls st !! k = Some c →
  evolves st (define_callback k (c_moduleId c) err v st).2.
Proof.
  intros Hc. unfold define_callback. msimpl. destruct err as [e|]; msimpl.
  - step_emit. reflexivity.
  - eapply rtc_r; [|by apply (change_write _ k c)]. step_emit. reflexivity.
Qed.

Lemma apply_evolves k f args st : evolves st (apply call k f args st).2.
Proof.
  unfold apply. msimpl. destruct f; msimpl; step_emit; reflexivity.
Qed.

Lemma apply_calls k f args st : calls (apply call k f args st).2 = calls st.
Proof. unfold apply. msimpl. by destruct f. Qed.

Lemma on_dependency_evolves k i id err v st :
  evolves st (on_dependency call k i id err v st).2.
Proof.
  unfold on_dependency. msimpl.
  destruct (calls st !! k) as [c|] eqn:Hc; msimpl; [|step_emit; reflexivity].
  destruct (requireError c); msimpl; [step_emit; reflexivity |].
  pose proof (lookup_lt_Some _ _ _ Hc) as Hk.
  destruct err as [e|]; msimpl.
  - etrans; [|apply (define_callback_evolves k (set_requireError true c))].
    + eapply rtc_r; [|by apply (change_slot _ k c)]. step_emit. reflexivity.
    + cbn. by apply list_lookup_insert_eq.
  - assert (Hslot : evolves st
      (set_calls (λ l, <[k := resolve_slot i v c]> l)
         (set_trace (λ t, t ++ [Log ("Loaded " +:+ id)])
            (set_trace (λ t, t ++ [Settled k i None v]) st)))).
    { eapply rtc_r; [|by apply (change_slot _ k c)].
      step_emit. step_emit. reflexivity. }
    destruct (_ =? 0)%Z; msimpl; [|done].
    match goal with
    | |- context [apply call k ?f ?args ?s] =>
        pose proof (apply_evolves k f args s) as Happly;
        pose proof (apply_calls k f args s) as Hcalls;
        destruct (apply call k f args s) as [[m|e] st1]
    end; msimpl.
    + etrans; [|apply (define_callback_evolves k (resolve_slot i v c))].
      * etrans; [|exact Happly]. step_emit. exact Hslot.
      * rewrite Hcalls. cbn. by apply list_lookup_insert_eq.
    + etrans; [|exact Happly]. step_emit. exact Hslot.
Qed.

Lemma _require_evolves id moduleId k i st :
  evolves st (_require call id moduleId k i st).2.
Proof.
  unfold _require, new_object, loadScript.
  destruct (String.eqb id "exports"); msimpl.
  { etrans; [|apply on_dependency_evolves]. apply rtc_once, change_heap. }
  destruct (String.eqb id "require"); msimpl; [reflexivity |].
  destruct (String.eqb id "module"); msimpl.
  { etrans; [|apply on_dependency_evolves]. apply rtc_once, change_heap. }
  destruct (_modules st !! id); msimpl; [apply on_dependency_evolves |].
  eapply rtc_r; [|apply change_append]. step_emit. reflexivity.
Qed.

Lemma forEach_evolves moduleId base k xs i st :
  evolves st (forEach (request_dependency call k moduleId base) xs i st).2.
Proof.
  revert i st. induction xs as [|x xs IH]; intros i st; [reflexivity |].
  rewrite forEach_cons. unfold request_dependency at 1. msimpl.
  destruct (resolve_dependency base x) as [target|e]; msimpl; [|reflexivity].
  pose proof (_require_evolves target moduleId k i st) as Hreq.
  destruct (_require call target moduleId k i st) as [[[]|e] st1]; msimpl; [|done].
  etrans; [exact Hreq | apply IH].
Qed.

Lemma _runFactory_evolves moduleId base dependencies factory st :
  Str.contains Str.backslash moduleId = false →
  evolves st (_runFactory call moduleId base dependencies factory st).2.
Proof.
  intros Hid. unfold _runFactory. msimpl.
  set (c0 := {| c_moduleId := moduleId; c_base := base;
                c_dependencies := dependencies; c_factory := factory;
                unresolvedDependencies := Z.of_nat (length dependencies);
                modules := []; requireError := false |}).
  assert (Hpush : evolves st (set_calls (λ l, l ++ [c0]) st))
    by (by apply rtc_once, change_call).
  assert (Hc0 : calls (set_calls (λ l, l ++ [c0]) st) !! length (calls st) = Some c0)
    by (cbn; by apply list_lookup_middle).
  destruct (negb (is_function factory)); msimpl.
  { etrans; [exact Hpush |]. by apply (define_callback_evolves _ c0). }
  destruct (_ =? 0)%Z; msimpl.
  - match goal with
    | |- context [apply call ?k ?f ?args ?s] =>
        pose proof (apply_evolves k f args s) as Happly;
        pose proof (apply_calls k f args s) as Hcalls;
        destruct (apply call k f args s) as [[m|e] st1]
    end; msimpl.
    + etrans; [etrans; [exact Hpush | exact Happly] |].
      apply (define_callback_evolves _ c0). by rewrite Hcalls.
    + etrans; [exact Hpush | exact Happly].
  - etrans; [exact Hpush | apply forEach_evolves].
Qed.

Lemma define_evolves h id dependencies factory st :
  evolves st (define URL call h id dependencies factory st).2.
Proof.
  unfold define. msimpl.
  destruct (_inferModuleId URL h); msimpl; [|reflexivity].
  destruct (Str.contains _ _) eqn:Hid; msimpl; [reflexivity |].
  destruct (bool_decide _); msimpl; [reflexivity |].
  destruct (dirname _); msimpl; [|reflexivity].
  by apply _runFactory_evolves.
Qed.

Lemma onload_evolves r st : evolves st (onload call r st).2.
Proof.
  unfold onload. msimpl.
  destruct (scripts st !! r) as [[q|]|]; msimpl; try reflexivity.
  destruct (truthy _); msimpl;
    (etrans; [|apply on_dependency_evolves]); apply rtc_once, change_loaded.
Qed.

Lemma step_evolves st a : evolves st (step URL call st a).
Proof.
  unfold step.
  assert (Hp : evolves st (perform URL call a st).2).
  { destruct a; cbn; [apply define_evolves | apply onload_evolves]. }
  destruct (perform URL call a st) as [[[]|e] st']; cbn in *; [done |].
  step_emit. exact Hp.
Qed.

Lemma run_evolves st acts : evolves st (run URL call st acts).
Proof.
  revert st. induction acts as [|a acts IH]; intros st; cbn; [reflexivity |].
  etrans; [apply step_evolves | apply IH].
Qed.
End Steps.

(** ** What the steps keep *)

Lemma writes_snoc id tr e :
  writes id (tr ++ [e]) =
    writes id tr ++ match e with
                    | Written _ id' m => if decide (id' = id) then [m] else []
                    | _ => []
                    end.
Proof.
  unfold writes. rewrite omap_app. f_equal. destruct e; try done.
  cbn. by case_decide.
Qed.

Lemma change_registry_reflects st st' :
  change st st' → registry_reflects st → registry_reflects st'.
Proof.
  unfold registry_reflects.
  intros Hch Hst id.
  destruct Hch as [st e He| | | | | |st k c m Hc];
    cbn [_modules trace set_trace set_modules set_heap set_scripts set_calls];
    try done.
  - rewrite writes_snoc, Hst. destruct e; rewrite ?app_nil_r; try done.
    by destruct (He k id0 module).
  - rewrite writes_snoc. destruct (decide (c_moduleId c = id)) as [->|Hne].
    + by rewrite lookup_insert_eq, last_snoc.
    + rewrite lookup_insert_ne by done. by rewrite app_nil_r.
Qed.

Lemma change_registry_grows st st' id :
  change st st' → is_Some (_modules st !! id) → is_Some (_modules st' !! id).
Proof.
  intros Hch Hid. destruct Hch as [| | | | | |st k c m Hc]; cbn; try done.
  destruct (decide (c_moduleId c = id)) as [->|Hne].
  - by rewrite lookup_insert_eq.
  - by rewrite lookup_insert_ne.
Qed.

Lemma change_clean_ids st st' : change st st' → clean_ids st → clean_ids st'.
Proof.
  intros Hch [Hcalls Hreg].
  destruct Hch as [| | | |st c Hc|st k c c' Hc Hs|st k c m Hc]; cbn; try done.
  - split; [|done]. intros k c' [[_ Hk]|[_ <-]]%lookup_snoc_Some; eauto.
  - split; [|done]. intros k' c0 Hc0. cbn in Hc0.
    destruct (decide (k' = k)) as [->|Hne].
    + rewrite list_lookup_insert_eq in Hc0 by (by eapply lookup_lt_Some).
      injection Hc0 as <-. unfold static in Hs. injection Hs as -> _ _ _. eauto.
    + rewrite list_lookup_insert_ne in Hc0 by done. eauto.
  - split; [done |]. intros id. cbn.
    destruct (decide (c_moduleId c = id)) as [<-|Hne]; [eauto |].
    rewrite lookup_insert_ne by done. apply Hreg.
Qed.

(** ** The registry along a run *)

Section Registry.
Variable URL : string → string → option string.
Variable call : nat → list value → completion value.

Lemma run_registry_reflects (acts : list action) :
  registry_reflects (run URL call init acts).
Proof.
  assert (Hinit : registry_reflects init) by done.
  revert Hinit. generalize (run_evolves URL call init acts).
  generalize (run URL call init acts). generalize init.
  intros st st' Hev. induction Hev as [|st1 st2 st3 Hch _ IH]; [done |].
  intros Hst. by apply IH, (change_registry_reflects st1).
Qed.

(** X8. In every run the registry holds, under each id, the value that was
    written there last, and holds nothing under an id that was never
    written: nothing but the writes of the calls of [define] changes it. *)
Theorem registry_last_write (acts : list action) (id : string) :
  _modules (run URL call init acts) !! id
    = last (writes id (trace (run URL call init acts))).
Proof. apply run_registry_reflects. Qed.

(** X9. A module, once registered, stays registered, whatever the loader
    does next and from whatever state: no entry of the registry is ever
    removed (its value may be overwritten). *)
Theorem registry_never_forgets (st : state) (acts : list action) (id : string) :
  is_Some (_modules st !! id) → is_Some (_modules (run URL call st acts) !! id).
Proof.
  generalize (run_evolves URL call st acts). generalize (run URL call st acts).
  intros st' Hev. induction Hev as [|st1 st2 st3 Hch _ IH]; [done |].
  intros Hid. by apply IH, (change_registry_grows st1).
Qed.

(** X10. In every run, no id in the registry holds a backslash. *)
Theorem registry_ids_clean (acts : list action) (id : string) :
  is_Some (_modules (run URL call init acts) !! id) →
  Str.contains Str.backslash id = false.
Proof.
  assert (Hinit : clean_ids init).
  { split; [by intros k c [=] |]. intros id' [v Hv]. cbn in Hv.
    by rewrite lookup_empty in Hv. }
  assert (Hclean : clean_ids (run URL call init acts)).
  { revert Hinit. generalize (run_evolves URL call init acts).
    generalize (run URL call init acts). generalize init.
    intros st st' Hev. induction Hev as [|st1 st2 st3 Hch _ IH]; [done |].
    intros Hst. by apply IH, (change_clean_ids st1). }
  apply Hclean.
Qed.

End Registry.

Lemma registry_never_forgets_witness :
  is_Some (_modules (run relative_URL factories stocked racing_run) !! "a").
Proof.
  apply (registry_never_forgets relative_URL factories stocked racing_run "a").
  exists (VNum 1). by vm_compute.
Defined.

Lemma registry_ids_clean_witness : Str.contains Str.backslash "m" = false.
Proof.
  apply (registry_ids_clean relative_URL factories racing_run "m").
  exists (VNum 7). by vm_compute.
Defined.

(** ** The outcome of every call *)

Section Outcome.
Variable URL : string → string → option string.
Variable call : nat → list value → completion value.

Lemma outcome_static c c' A C W :
  static c' = static c → outcome call c A C W → outcome call c' A C W.
Proof.
  unfold static. intros [= Hm _ _ Hf] Hout.
  destruct Hout as [|e|Hnf|f args e Hfe Hcall|f args m Hfe Hcall]; rewrite <-?Hm.
  - apply outcome_pending.
  - apply outcome_failed.
  - rewrite <-Hf. apply outcome_value. by rewrite Hf.
  - eapply outcome_threw; [congruence | done].
  - eapply outcome_defined; [congruence | done].
Qed.

(** What one settlement does, in full. *)
Lemma on_dependency_settlement k i id err v st c :
  calls st !! k = Some c →
  ∃ c' A C W,
    settlement call c err c' A C W ∧ static c' = static c ∧
    calls (on_dependency call k i id err v st).2 = <[k := c']> (calls st) ∧
    ∀ k0,
      applied k0 (trace (on_dependency call k i id err v st).2)
        = applied k0 (trace st) ++ (if decide (k = k0) then A else []) ∧
      completed k0 (trace (on_dependency call k i id err v st).2)
        = completed k0 (trace st) ++ (if decide (k = k0) then C else []) ∧
      written k0 (trace (on_dependency call k i id err v st).2)
        = written k0 (trace st) ++ (if decide (k = k0) then W else []).
Proof.
  intros Hc. unfold on_dependency, define_callback, apply.
  msimpl. rewrite Hc. msimpl.
  destruct (requireError c) eqn:Hre; msimpl.
  { exists c, [], [], []. split_and!; try done; [constructor | by rewrite list_insert_id |].
    intros k0. split_and!; views. }
  destruct err as [e|]; msimpl.
  { exists (set_requireError true c), [], [(Some e, VUndefined)], [].
    split_and!; try done; [by constructor |]. intros k0. split_and!; views. }
  destruct (_ =? 0)%Z eqn:Hz; msimpl.
  2:{ exists (resolve_slot i v c), [], [], [].
      split_and!; try done; [constructor |]. intros k0. split_and!; views. }
  destruct (c_factory c) as [| | | | | | |f] eqn:Hf; msimpl;
    try (exists (resolve_slot i v c),
           [(c_factory c, arguments (array_set (modules c) i v))], [], [];
         rewrite Hf; split_and!; try done;
         [rewrite <-Hf; apply settlement_stuck; [done | by rewrite Hf]
         |intros k0; split_and!; views]).
  destruct (call f _) as [m|e] eqn:Hcall; msimpl.
  - exists (resolve_slot i v c),
      [(VFun f, arguments (array_set (modules c) i v))],
      [(None, m)], [(c_moduleId c, m)].
    split_and!; try done; [by eapply settlement_defined |].
    intros k0. split_and!; views.
  - exists (resolve_slot i v c),
      [(VFun f, arguments (array_set (modules c) i v))], [], [].
    split_and!; try done; [by eapply settlement_threw |].
    intros k0. split_and!; views.
Qed.
(** A call one of whose positions is still to settle, and that has not
    failed, has done nothing yet. *)
Lemma call_inv_untouched c J S P A C W i :
  call_inv c J S P A C W → i < J → i ∉ S.*1 ++ P → requireError c = false →
  A = [] ∧ C = [] ∧ W = [] ∧ is_function (c_factory c) = true.
Proof.
  intros [HJ Hnd Hb Hlen Hok Hfail] Hi Hni Hre.
  pose proof (settled_room c J S P i HJ Hnd Hb Hi Hni) as Hroom.
  pose proof (frontier_pos c i ltac:(lia)) as Hfun.
  destruct (Hok Hre) as (_ & _ & _ & Hnone & _).
  by destruct (Hnone Hfun Hroom) as (-> & -> & ->).
Qed.

Lemma outcome_settle c J S P A0 C0 W0 i err c' A C W :
  call_inv c J S P A0 C0 W0 → i < J → i ∉ S.*1 ++ P →
  outcome call c A0 C0 W0 → settlement call c err c' A C W →
  static c' = static c →
  outcome call c' (A0 ++ A) (C0 ++ C) (W0 ++ W).
Proof.
  intros Hinv Hi Hni Hout Hset Hs.
  pose proof (call_inv_untouched _ _ _ _ _ _ _ _ Hinv Hi Hni) as Hnone.
  apply (outcome_static c); [done |].
  destruct Hset as [|e Hre _|args Hre Hnf|f args e Hre Hf Hcall|f args m Hre Hf Hcall].
  - by rewrite !app_nil_r.
  - destruct (Hnone Hre) as (-> & -> & -> & _). apply outcome_failed.
  - destruct (Hnone Hre) as (_ & _ & _ & Hfun). congruence.
  - destruct (Hnone Hre) as (-> & -> & -> & _). by eapply outcome_threw.
  - destruct (Hnone Hre) as (-> & -> & -> & _). by eapply outcome_defined.
Qed.

Lemma on_dependency_outcomes o k i id err v st c :
  loader_inv o st → outcomes call st → calls st !! k = Some c →
  i < bound o k c →
  i ∉ (settled k (trace st)).*1 ++ pending k (scripts st) →
  outcomes call (on_dependency call k i id err v st).2.
Proof.
  intros [_ Hinv] Hout Hc Hi Hni.
  destruct (on_dependency_settlement k i id err v st c Hc)
    as (c' & A & C & W & Hset & Hs & Hcalls & Hviews).
  intros k0 c0 Hc0. rewrite Hcalls in Hc0.
  destruct (Hviews k0) as (-> & -> & ->).
  destruct (decide (k = k0)) as [<-|Hne].
  - rewrite list_lookup_insert_eq in Hc0 by (by eapply lookup_lt_Some).
    injection Hc0 as <-. eapply outcome_settle; eauto.
  - rewrite list_lookup_insert_ne in Hc0 by done.
    rewrite !app_nil_r. by apply Hout.
Qed.

Lemma outcomes_silent st st' e :
  calls st' = calls st → trace st' = trace st ++ [e] → silent e →
  outcomes call st → outcomes call st'.
Proof.
  intros Hcalls Htrace He Hout k c Hc. rewrite Hcalls in Hc. rewrite Htrace.
  destruct (silent_snoc k (trace st) e He) as (_ & -> & -> & ->).
  by apply Hout.
Qed.

Lemma _require_outcomes id moduleId k j st c :
  loader_inv (Some (k, j)) st → outcomes call st →
  calls st !! k = Some c → j < frontier c →
  outcomes call (_require call id moduleId k j st).2.
Proof.
  intros Hinv Hout Hc Hj.
  pose proof (loader_inv_position _ _ _ _ Hinv Hc) as Hpos.
  pose proof (loader_inv_advance _ _ _ _ Hinv Hc Hj) as Hadv.
  assert (Hsettle : ∀ f v,
    outcomes call (on_dependency call k j id None v (set_heap f st)).2).
  { intros f v. eapply on_dependency_outcomes;
      [exact Hadv | exact Hout | exact Hc | | exact Hpos].
    unfold bound. rewrite decide_True by done. lia. }
  unfold _require, new_object.
  destruct (String.eqb id "exports"); msimpl; [apply Hsettle |].
  destruct (String.eqb id "require"); msimpl; [done |].
  destruct (String.eqb id "module"); msimpl; [apply Hsettle |].
  destruct (_modules st !! id); msimpl.
  - apply (Hsettle (λ h, h)).
  - unfold loadScript. msimpl.
    by apply (outcomes_silent st _
      (ScriptAppended ("components/jquery/dist/" +:+ id +:+ ".js"))).
Qed.

Lemma forEach_outcomes moduleId base xs k j st c :
  loader_inv (Some (k, j)) st → outcomes call st → calls st !! k = Some c →
  j + length xs ≤ frontier c →
  outcomes call (forEach (request_dependency call k moduleId base) xs j st).2.
Proof.
  revert j st c. induction xs as [|d xs IH]; intros j st c Hinv Hout Hc Hj; msimpl.
  { done. }
  unfold request_dependency at 1. msimpl.
  destruct (resolve_dependency base d) as [target|e]; msimpl; [|done].
  pose proof (_require_inv call target moduleId k j st c Hinv Hc ltac:(lia)) as Hinv'.
  pose proof (_require_outcomes target moduleId k j st c Hinv Hout Hc ltac:(lia))
    as Hout'.
  pose proof (_require_keeps call target moduleId k j st) as [_ Hkeep].
  destruct (Hkeep k c Hc) as (c' & Hc' & Hs).
  destruct (_require call target moduleId k j st) as [[[]|e] st1]; msimpl.
  - eapply IH; [exact Hinv' | exact Hout' | exact Hc' |].
    rewrite (frontier_static _ _ Hs). lia.
  - done.
Qed.
Lemma outcomes_direct st st' c0 evs :
  loader_inv None st → outcomes call st →
  calls st' = calls st ++ [c0] → trace st' = trace st ++ evs →
  Forall (direct_event (length (calls st))) evs →
  outcome call c0 (applied (length (calls st)) evs)
    (completed (length (calls st)) evs) (written (length (calls st)) evs) →
  outcomes call st'.
Proof.
  intros [Hfresh _] Hout Hcalls Htrace Hevs Hnew k c Hc.
  rewrite Hcalls in Hc. rewrite Htrace.
  apply lookup_snoc_Some in Hc as [[Hlt Hc]|[-> <-]].
  - destruct (direct_views _ evs (trace st) Hevs k) as (_ & Hother).
    destruct (Hother ltac:(lia)) as (-> & -> & ->). by apply Hout.
  - destruct (Hfresh (length (calls st)) ltac:(lia)) as (_ & _ & HA & HC & HW).
    unfold applied, completed, written in *. rewrite !omap_app, HA, HC, HW.
    exact Hnew.
Qed.

Lemma _runFactory_outcomes moduleId base dependencies factory st :
  loader_inv None st → outcomes call st →
  outcomes call (_runFactory call moduleId base dependencies factory st).2.
Proof.
  intros Hinv Hout. unfold _runFactory. msimpl.
  set (c0 := {| c_moduleId := moduleId; c_base := base;
                c_dependencies := dependencies; c_factory := factory;
                unresolvedDependencies := Z.of_nat (length dependencies);
                modules := []; requireError := false |}).
  pose proof (loader_inv_push st c0 Hinv (call_inv_new _ _ _ _)) as Hpush.
  assert (Hc0 : calls (set_calls (λ l, l ++ [c0]) st) !! length (calls st)
                = Some c0).
  { cbn. by apply list_lookup_middle. }
  assert (Hout0 : outcomes call (set_calls (λ l, l ++ [c0]) st)).
  { apply (outcomes_direct st _ c0 []); try done.
    - cbn. by rewrite app_nil_r.
    - apply outcome_pending. }
  destruct (is_function factory) eqn:Hf; msimpl.
  2:{ unfold define_callback. msimpl.
      apply (outcomes_direct st _ c0
        [Completed (length (calls st)) None factory;
         Written (length (calls st)) moduleId factory]); try done.
      - cbn. by rewrite <-(assoc_L (++)).
      - by repeat constructor.
      - unfold applied, completed, written. cbn. rewrite !decide_True by done.
        by apply (outcome_value call c0). }
  destruct (Z.of_nat (length dependencies) =? 0)%Z eqn:Hz; msimpl.
  - unfold apply, define_callback. msimpl.
    destruct factory as [| | | | | | |f]; try done. msimpl.
    destruct (call f []) as [m|e] eqn:Hcall; msimpl.
    + apply (outcomes_direct st _ c0
        [Applied (length (calls st)) (VFun f) [];
         Completed (length (calls st)) None m;
         Written (length (calls st)) moduleId m]); try done.
      * cbn. by rewrite <-!(assoc_L (++)).
      * by repeat constructor.
      * unfold applied, completed, written. cbn. rewrite !decide_True by done.
        by apply (outcome_defined call c0 f [] m).
    + apply (outcomes_direct st _ c0
        [Applied (length (calls st)) (VFun f) []]); try done.
      * by repeat constructor.
      * unfold applied, completed, written. cbn. rewrite !decide_True by done.
        by apply (outcome_threw call c0 f [] e).
  - eapply forEach_outcomes; [exact Hpush | exact Hout0 | exact Hc0 |].
    unfold frontier. cbn. rewrite Hf. lia.
Qed.

Lemma define_outcomes h id dependencies factory st :
  loader_inv None st → outcomes call st →
  outcomes call (define URL call h id dependencies factory st).2.
Proof.
  intros Hinv Hout. unfold define. msimpl.
  destruct (_inferModuleId URL h); msimpl; [|done].
  destruct (Str.contains _ _); msimpl; [done |].
  destruct (bool_decide _); msimpl; [done |].
  destruct (dirname _); msimpl; [|done].
  by apply _runFactory_outcomes.
Qed.

Lemma onload_outcomes r st :
  loader_inv None st → outcomes call st → outcomes call (onload call r st).2.
Proof.
  intros Hinv Hout. unfold onload. msimpl.
  destruct (scripts st !! r) as [[q|]|] eqn:Hq; msimpl; try done.
  destruct (loaded_inv r q st Hinv Hq) as (c & Hc & Hlt & Hinv' & Hni).
  destruct (truthy _); msimpl; by eapply on_dependency_outcomes.
Qed.

Lemma step_outcomes st a :
  loader_inv None st → outcomes call st → outcomes call (step URL call st a).
Proof.
  intros Hinv Hout. unfold step.
  assert (Hp : outcomes call (perform URL call a st).2).
  { destruct a; cbn; [by apply define_outcomes | by apply onload_outcomes]. }
  destruct (perform URL call a st) as [[[]|e] st']; cbn in *; [done |].
  by apply (outcomes_silent st' _ (Uncaught e)).
Qed.

Lemma run_outcomes st acts :
  loader_inv None st → outcomes call st → outcomes call (run URL call st acts).
Proof.
  revert st. induction acts as [|a acts IH]; intros st Hinv Hout; cbn; [done |].
  apply IH; [by apply step_inv | by apply step_outcomes].
Qed.

Lemma init_outcomes : outcomes call init.
Proof. intros k c Hc. cbn in Hc. by rewrite lookup_nil in Hc. Qed.

(** X11. Along any run of the loader, whatever the page does, every call
    of [_runFactory] is in one of five situations: it waits for
    dependencies and has done nothing; a dependency failed, its completion
    callback has run once, with the error, and nothing else has happened;
    its factory is not a function and has been written to the registry as
    the module, once; its factory has been invoked once and threw; or its
    factory has been invoked once, its completion callback once, and the
    value it returned has been written once to the registry under the id of
    the module. So no factory runs twice and no call writes twice. *)
Theorem factory_runs_once (acts : list action) (k : nat) (c : closure) :
  let st := run URL call init acts in
  calls st !! k = Some c →
  outcome call c (applied k (trace st)) (completed k (trace st))
    (written k (trace st)).
Proof.
  intros st Hc. by apply (run_outcomes init acts init_inv init_outcomes).
Qed.
End Outcome.

(** ** Where the registered values come from *)

Section Origin.
Variable URL : string → string → option string.
Variable call : nat → list value → completion value.

Lemma elem_of_writes id m tr :
  m ∈ writes id tr → ∃ k, (id, m) ∈ written k tr.
Proof.
  unfold writes, written. intros (e & He & Hm)%list_elem_of_omap.
  destruct e as [| | | | k id' m' | |]; try done.
  case_decide; [|done]. simplify_eq. exists k.
  apply list_elem_of_omap. exists (Written k id m). split; [done |].
  by rewrite decide_True.
Qed.

(** X12. Every value found in the registry after a run was put there by a
    call of [define] for that very id: either as the value given to
    [define] in place of a factory, or as the value the factory of that call
    returned, on the one invocation it got. *)
Theorem registered_value_origin (acts : list action) (id : string) (m : value) :
  let st := run URL call init acts in
  _modules st !! id = Some m →
  ∃ k c, calls st !! k = Some c ∧ c_moduleId c = id ∧
    (is_function (c_factory c) = false ∧ c_factory c = m ∨
     ∃ f args, c_factory c = VFun f ∧ applied k (trace st) = [(VFun f, args)] ∧
               call f args = Normal m).
Proof.
  intros st Hm. unfold st in Hm.
  rewrite (run_registry_reflects URL call acts id) in Hm.
  apply last_Some_elem_of, elem_of_writes in Hm as [k Hk]. fold st in Hk.
  destruct (run_inv URL call init acts init_inv) as [Hfresh _]. fold st in Hfresh.
  destruct (calls st !! k) as [c|] eqn:Hc.
  2:{ apply lookup_ge_None in Hc.
      destruct (Hfresh k Hc) as (_ & _ & _ & _ & HW). rewrite HW in Hk.
      by apply elem_of_nil in Hk. }
  pose proof (run_outcomes URL call init acts init_inv (init_outcomes call) k c Hc)
    as Hout. fold st in Hout.
  exists k, c. split; [done |].
  destruct Hout as [|e|Hnf|f args e Hf Hcall|f args m' Hf Hcall];
    try (by apply elem_of_nil in Hk);
    apply list_elem_of_singleton in Hk; injection Hk as -> ->.
  - split; [done |]. by left.
  - split; [done |]. right. by exists f, args.
Qed.
End Origin.

(** ** A factory waits for all its dependencies *)

Lemma NoDup_full (l : list nat) (n i : nat) :
  NoDup l → (∀ j, j ∈ l → j < n) → length l = n → i < n → i ∈ l.
Proof.
  intros Hnd Hb Hlen Hi.
  assert (l ≡ₚ seq 0 n) as ->.
  { apply submseteq_length_Permutation.
    - apply NoDup_submseteq; [done |]. intros j Hj. apply elem_of_seq.
      specialize (Hb j Hj). lia.
    - rewrite length_seq. lia. }
  apply elem_of_seq. lia.
Qed.

Section Waits.
Variable URL : string → string → option string.
Variable call : nat → list value → completion value.

Lemma applied_settled (acts : list action) (k : nat) (c : closure)
    (f : value) (args : list value) :
  let st := run URL call init acts in
  calls st !! k = Some c →
  c_dependencies c ≠ [] →
  (f, args) ∈ applied k (trace st) →
  f = c_factory c ∧
  errors (settled k (trace st)) = [] ∧
  length args = length (c_dependencies c) ∧
  ∀ i, i < length (c_dependencies c) →
    ∃ v, args !! i = Some v ∧ Settled k i None v ∈ trace st.
Proof.
  intros st Hc Hne Hin.
  destruct (run_inv URL call init acts init_inv) as [_ Hinv].
  fold st in Hinv. specialize (Hinv k c Hc).
  pose proof (run_outcomes URL call init acts init_inv (init_outcomes call) k c Hc)
    as Hout. fold st in Hout.
  pose proof (inv_nodup _ _ _ _ _ _ _ Hinv) as Hnd.
  apply NoDup_app in Hnd as (Hnd & _ & _).
  pose proof (inv_bound _ _ _ _ _ _ _ Hinv) as Hb.
  pose proof (inv_frontier _ _ _ _ _ _ _ Hinv) as HJ.
  pose proof (inv_length _ _ _ _ _ _ _ Hinv) as Hlen.
  pose proof (frontier_le c) as Hfl. unfold bound in Hb, HJ.
  set (S := settled k (trace st)) in *.
  assert (HbS : ∀ i, i ∈ S.*1 → i < length (c_dependencies c)).
  { intros i Hi. specialize (Hb i ltac:(apply elem_of_app; by left)). lia. }
  assert (Hfun : is_function (c_factory c) = true).
  { destruct Hout as [|e|Hnf|f' args' e Hf _|f' args' m Hf _];
      try (by apply elem_of_nil in Hin); by rewrite Hf. }
  assert (Hre : requireError c = false).
  { destruct (requireError c) eqn:Hre; [exfalso | done].
    destruct (inv_failed _ _ _ _ _ _ _ Hinv Hre) as (e & _ & HA & _).
    rewrite HA in Hin. by apply elem_of_nil in Hin. }
  destruct (inv_ok _ _ _ _ _ _ _ Hinv Hre) as (Herr & Hread & _ & Hnone & Happ).
  assert (HlenS : length S = length (c_dependencies c)).
  { apply Nat.le_antisymm.
    - rewrite <-(length_fmap fst). by apply NoDup_bounded_length.
    - apply Nat.nlt_ge. intros Hlt. destruct (Hnone Hfun Hlt) as (HA & _).
      rewrite HA in Hin. by apply elem_of_nil in Hin. }
  assert (Hpos : 0 < length (c_dependencies c)).
  { destruct (c_dependencies c); [done | cbn; lia]. }
  rewrite (Happ Hpos HlenS) in Hin.
  apply list_elem_of_singleton in Hin. injection Hin as -> ->.
  assert (Hall : ∀ i, i < length (c_dependencies c) →
                 ∃ v, read (modules c) i = Some v ∧ (i, (None, v)) ∈ S).
  { intros i Hi.
    assert (i ∈ S.*1) as ([i' [err v]] & Hi' & HiS)%list_elem_of_fmap.
    { apply (NoDup_full _ (length (c_dependencies c))); try done.
      by rewrite length_fmap. }
    cbn in Hi'. subst i'. destruct err as [e|].
    - assert (e ∈ errors S) as He by (apply errors_elem_of; eauto).
      rewrite Herr in He. by apply elem_of_nil in He.
    - exists v. split; [by apply Hread | done]. }
  split_and!; [done | done | |].
  - unfold arguments. rewrite length_fmap. apply Nat.le_antisymm; [done |].
    apply Nat.nlt_ge. intros Hlt.
    destruct (Hall (length (modules c)) Hlt) as (v & Hv & _).
    unfold read in Hv. by rewrite lookup_ge_None_2 in Hv by lia.
  - intros i Hi. destruct (Hall i Hi) as (v & Hv & HS). exists v. split.
    + unfold arguments, read in *. rewrite list_lookup_fmap.
      by destruct (modules c !! i) as [[w|]|]; simplify_eq.
    + by apply elem_of_settled.
Qed.
(** X13. A factory never runs early: in any run, when the factory of a call
    with a non-empty dependency list has been invoked, every one of the
    declared dependencies has settled, none with an error, and the argument
    at each position is the value its dependency settled with. *)
Theorem factory_waits (acts : list action) (k : nat) (c : closure)
    (f : value) (args : list value) :
  let st := run URL call init acts in
  calls st !! k = Some c →
  c_dependencies c ≠ [] →
  (f, args) ∈ applied k (trace st) →
  f = c_factory c ∧
  errors (settled k (trace st)) = [] ∧
  length args = length (c_dependencies c) ∧
  ∀ i, i < length (c_dependencies c) →
    ∃ v, args !! i = Some v ∧ Settled k i None v ∈ trace st.
Proof. apply applied_settled. Qed.
End Waits.

(** ** Where settlements and scripts come from *)

#[local] Instance grown_preorder : PreOrder grown.
Proof.
  split.
  - intros st. split_and!; [exists []; by rewrite app_nil_r ..|eauto].
  - intros st1 st2 st3 ([t1 Ht1] & [h1 Hh1] & Hc1) ([t2 Ht2] & [h2 Hh2] & Hc2).
    split_and!.
    + exists (t1 ++ t2). by rewrite Ht2, Ht1, (assoc_L (++)).
    + exists (h1 ++ h2). by rewrite Hh2, Hh1, (assoc_L (++)).
    + intros k c Hc. destruct (Hc1 k c Hc) as (c' & Hc' & Hs).
      destruct (Hc2 k c' Hc') as (c'' & Hc'' & Hs'). exists c''. split; congruence.
Qed.

Lemma change_grown st st' : change st st' → grown st st'.
Proof.
  intros Hch.
  destruct Hch as [st e _|st props|st q|st r|st c _|st k c c' Hc Hs|st k c m Hc];
    (split_and!; cbn;
     [first [by eexists | exists []; by rewrite app_nil_r]
     |first [by eexists | exists []; by rewrite app_nil_r]
     |]); eauto.
  - intros k c' Hc'. exists c'. split; [by apply lookup_app_l_Some | done].
  - intros k0 c0 Hc0. destruct (decide (k0 = k)) as [->|Hne].
    + exists c'. rewrite list_lookup_insert_eq by (by eapply lookup_lt_Some).
      split; congruence.
    + exists c0. by rewrite list_lookup_insert_ne.
Qed.

Lemma evolves_grown st st' : evolves st st' → grown st st'.
Proof.
  induction 1 as [|st1 st2 st3 Hch _ IH]; [reflexivity |].
  etrans; [by apply change_grown | done].
Qed.

Lemma evolves_registry_reflects st st' :
  evolves st st' → registry_reflects st → registry_reflects st'.
Proof.
  induction 1 as [|st1 st2 st3 Hch _ IH]; [done |].
  intros Hst. by apply IH, (change_registry_reflects st1).
Qed.

Lemma writes_app id tr tr' : writes id (tr ++ tr') = writes id tr ++ writes id tr'.
Proof. apply omap_app. Qed.

Lemma delivered_grown st st' target moduleId err v :
  grown st st' → delivered st target moduleId err v →
  delivered st' target moduleId err v.
Proof.
  intros ([tr Htr] & [h Hh] & _). unfold delivered.
  destruct err as [e|]; [done |].
  destruct (String.eqb target "exports").
  { intros (l & -> & Hl). exists l. split; [done |].
    rewrite Hh. by apply lookup_app_l_Some. }
  destruct (String.eqb target "module").
  { intros (l & -> & Hl). exists l. split; [done |].
    rewrite Hh. by apply lookup_app_l_Some. }
  intros [Hr Hv]. split; [done |]. rewrite Htr, writes_app.
  apply elem_of_app. by left.
Qed.

Lemma script_for_static c c' q : static c' = static c → script_for c q → script_for c' q.
Proof.
  unfold static, script_for. intros [= Hm Hb Hd _]. by rewrite Hm, Hb, Hd.
Qed.

Lemma settled_for_grown st st' k i err v :
  grown st st' → settled_for st k i err v → settled_for st' k i err v.
Proof.
  intros Hg (c & d & target & Hc & Hd & Hres & Hdel).
  pose proof Hg as (_ & _ & Hcalls).
  destruct (Hcalls k c Hc) as (c' & Hc' & Hs).
  pose proof Hs as [= Hm Hb Hds _]. exists c', d, target.
  rewrite Hm, Hb, Hds. split_and!; try done. by eapply delivered_grown.
Qed.

(** The invariant is kept by whatever only adds to the state, given that
    what it adds is accounted for. *)
Lemma sourced_grown st st' :
  sourced st → grown st st' →
  (∀ r q, scripts st' !! r = Some (Some q) →
     scripts st !! r = Some (Some q) ∨
     ∃ c, calls st' !! r_call q = Some c ∧ script_for c q) →
  (∀ k i err v, (i, (err, v)) ∈ settled k (trace st') →
     (i, (err, v)) ∈ settled k (trace st) ∨ settled_for st' k i err v) →
  sourced st'.
Proof.
  intros [Hscr Hset] Hg Hscr' Hset'. pose proof Hg as (_ & _ & Hcalls). split.
  - intros r q Hq. destruct (Hscr' r q Hq) as [Hold|Hnew]; [|done].
    destruct (Hscr r q Hold) as (c & Hc & Hfor).
    destruct (Hcalls _ c Hc) as (c' & Hc' & Hs).
    exists c'. split; [done |]. by eapply script_for_static.
  - intros k i err v Hin. destruct (Hset' k i err v Hin) as [Hold|Hnew]; [|done].
    eapply settled_for_grown; [done |]. by apply Hset.
Qed.

Section Sourced.
Variable URL : string → string → option string.
Variable call : nat → list value → completion value.

Lemma on_dependency_sourced k i id err v st c d target :
  sourced st → calls st !! k = Some c → c_dependencies c !! i = Some d →
  resolve_dependency (c_base c) d = Normal target →
  delivered st target (c_moduleId c) err v →
  sourced (on_dependency call k i id err v st).2.
Proof.
  intros Hsrc Hc Hd Hres Hdel.
  pose proof (evolves_grown _ _ (on_dependency_evolves call k i id err v st)) as Hg.
  destruct (on_dependency_effect call k i id err v st c Hc)
    as (c' & A & C & W & _ & _ & Hscripts & Hviews).
  apply (sourced_grown st); [done | done | |].
  - intros r q Hq. left. by rewrite <-Hscripts.
  - intros k0 i0 err0 v0 Hin. destruct (Hviews k0) as (Hsettled & _).
    rewrite Hsettled in Hin. apply elem_of_app in Hin as [Hin|Hin]; [by left |].
    right. case_decide; [|by apply elem_of_nil in Hin].
    apply list_elem_of_singleton in Hin. simplify_eq.
    eapply settled_for_grown; [done |]. by exists c, d, target.
Qed.

Lemma _require_sourced target k j st c d :
  sourced st → registry_reflects st →
  calls st !! k = Some c → c_dependencies c !! j = Some d →
  resolve_dependency (c_base c) d = Normal target →
  sourced (_require call target (c_moduleId c) k j st).2.
Proof.
  intros Hsrc Hreg Hc Hd Hres.
  assert (Hheap : ∀ props,
    sourced (set_heap (λ h, h ++ [props]) st)).
  { intros props. apply (sourced_grown st); [done | | by left | by left].
    apply change_grown, change_heap. }
  unfold _require, new_object.
  destruct (String.eqb target "exports") eqn:H1; msimpl.
  { eapply on_dependency_sourced; [apply Hheap | exact Hc | exact Hd | exact Hres |].
    unfold delivered. rewrite H1. eexists. split; [done |].
    cbn. by apply list_lookup_middle. }
  destruct (String.eqb target "require") eqn:H2; msimpl; [done |].
  destruct (String.eqb target "module") eqn:H3; msimpl.
  { eapply on_dependency_sourced; [apply Hheap | exact Hc | exact Hd | exact Hres |].
    unfold delivered. rewrite H1, H3. eexists. split; [done |].
    cbn. by apply list_lookup_middle. }
  assert (Hr : reserved target = false) by (unfold reserved; by rewrite H1, H2, H3).
  destruct (_modules st !! target) as [m|] eqn:Hm; msimpl.
  - eapply on_dependency_sourced; [exact Hsrc | exact Hc | exact Hd | exact Hres |].
    unfold delivered. rewrite H1, H3. split; [done |].
    apply last_Some_elem_of. by rewrite <-Hreg.
  - unfold loadScript. msimpl.
    apply (sourced_grown st); [done | | |].
    3:{ intros k0 i0 err0 v0 Hin. left. cbn in Hin.
        by destruct (silent_snoc k0 (trace st)
             (ScriptAppended ("components/jquery/dist/" +:+ target +:+ ".js")) I)
          as (<- & _). }
    + etrans; [apply change_grown,
                 (change_emit st (ScriptAppended
                    ("components/jquery/dist/" +:+ target +:+ ".js"))); done |].
      apply change_grown, change_append.
    + intros r q Hq. cbn in Hq.
      apply lookup_snoc_Some in Hq as [[_ Hq]|[_ Hq]]; [by left |].
      right. injection Hq as <-. exists c. split; [done |]. by exists d.
Qed.
Lemma forEach_sourced xs k j st c :
  sourced st → registry_reflects st → calls st !! k = Some c →
  (∀ n d, xs !! n = Some d → c_dependencies c !! (j + n) = Some d) →
  sourced (forEach (request_dependency call k (c_moduleId c) (c_base c)) xs j st).2.
Proof.
  revert j st c. induction xs as [|d xs IH]; intros j st c Hsrc Hreg Hc Hxs;
    [done |].
  rewrite forEach_cons. unfold request_dependency at 1. msimpl.
  destruct (resolve_dependency (c_base c) d) as [target|e] eqn:Hres; msimpl;
    [|done].
  assert (Hd : c_dependencies c !! j = Some d).
  { specialize (Hxs 0 d eq_refl). by rewrite Nat.add_0_r in Hxs. }
  pose proof (_require_sourced target k j st c d Hsrc Hreg Hc Hd Hres) as Hsrc'.
  pose proof (_require_evolves call target (c_moduleId c) k j st) as Hev.
  pose proof (evolves_registry_reflects _ _ Hev Hreg) as Hreg'.
  pose proof (evolves_grown _ _ Hev) as (_ & _ & Hcalls).
  destruct (Hcalls k c Hc) as (c' & Hc' & Hs).
  destruct (_require call target (c_moduleId c) k j st) as [[[]|e] st1];
    cbn in *; [|done].
  pose proof Hs as [= Hm Hb Hds _]. rewrite <-Hm, <-Hb.
  apply IH; [done | done | done |].
  intros n d' Hn. rewrite Hds. specialize (Hxs (S n) d' Hn).
  by rewrite Nat.add_succ_r in Hxs.
Qed.

Lemma _runFactory_sourced moduleId base dependencies factory st :
  Str.contains Str.backslash moduleId = false →
  sourced st → registry_reflects st →
  sourced (_runFactory call moduleId base dependencies factory st).2.
Proof.
  intros Hid Hsrc Hreg.
  pose proof (_runFactory_evolves call moduleId base dependencies factory st Hid)
    as Hev.
  revert Hev. unfold _runFactory. msimpl.
  set (c0 := {| c_moduleId := moduleId; c_base := base;
                c_dependencies := dependencies; c_factory := factory;
                unresolvedDependencies := Z.of_nat (length dependencies);
                modules := []; requireError := false |}).
  assert (Hdirect : ∀ st' evs,
    evolves st st' → scripts st' = scripts st → trace st' = trace st ++ evs →
    Forall (direct_event (length (calls st))) evs → sourced st').
  { intros st' evs Hev Hscripts Htrace Hevs.
    apply (sourced_grown st); [done | by apply evolves_grown | |].
    - intros r q Hq. left. by rewrite <-Hscripts.
    - intros k i err v Hin. left. rewrite Htrace in Hin.
      by destruct (direct_views _ evs (trace st) Hevs k) as (<- & _). }
  destruct (is_function factory) eqn:Hf; msimpl.
  2:{ unfold define_callback. msimpl. intros Hev.
      apply (Hdirect _ [Completed (length (calls st)) None factory;
                        Written (length (calls st)) moduleId factory]);
        [done | done | cbn; by rewrite <-(assoc_L (++)) | by repeat constructor]. }
  destruct (Z.of_nat (length dependencies) =? 0)%Z eqn:Hz; msimpl.
  - unfold apply, define_callback. msimpl.
    destruct factory as [| | | | | | |f]; try done. msimpl.
    destruct (call f []) as [m|e] eqn:Hcall; msimpl; intros Hev.
    + apply (Hdirect _ [Applied (length (calls st)) (VFun f) [];
                        Completed (length (calls st)) None m;
                        Written (length (calls st)) moduleId m]);
        [done | done | cbn; by rewrite <-!(assoc_L (++)) | by repeat constructor].
    + apply (Hdirect _ [Applied (length (calls st)) (VFun f) []]);
        [done | done | done | by repeat constructor].
  - intros _.
    assert (Hev0 : evolves st (set_calls (λ l, l ++ [c0]) st)).
    { by apply rtc_once, change_call. }
    apply (forEach_sourced dependencies (length (calls st)) 0 _ c0).
    + apply (Hdirect _ []); [done | done | by rewrite app_nil_r | done].
    + by apply (evolves_registry_reflects st).
    + cbn. by apply list_lookup_middle.
    + by intros n d Hn.
Qed.

Lemma define_sourced h id dependencies factory st :
  sourced st → registry_reflects st →
  sourced (define URL call h id dependencies factory st).2.
Proof.
  intros Hsrc Hreg. unfold define. msimpl.
  destruct (_inferModuleId URL h); msimpl; [|done].
  destruct (Str.contains _ _) eqn:Hid; msimpl; [done |].
  destruct (bool_decide _); msimpl; [done |].
  destruct (dirname _); msimpl; [|done].
  by apply _runFactory_sourced.
Qed.

Lemma onload_sourced r st :
  sourced st → registry_reflects st → sourced (onload call r st).2.
Proof.
  intros Hsrc Hreg. unfold onload. msimpl.
  destruct (scripts st !! r) as [[q|]|] eqn:Hq; msimpl; try done.
  pose proof Hsrc as [Hscr _].
  destruct (Hscr r q Hq) as (c & Hc & d & Hd & Hres & Hr & Hm & _).
  destruct (reserved_false _ Hr) as (H1 & _ & H3).
  assert (Hsrc' : sourced (set_scripts (λ l, <[r := None]> l) st)).
  { apply (sourced_grown st); [done | apply change_grown, change_loaded | | by left].
    intros r' q' Hq'. left. cbn in Hq'.
    destruct (decide (r' = r)) as [->|Hne].
    - rewrite list_lookup_insert_eq in Hq' by (by eapply lookup_lt_Some). done.
    - by rewrite list_lookup_insert_ne in Hq'. }
  destruct (truthy _) eqn:Htruthy; msimpl.
  - eapply on_dependency_sourced; [exact Hsrc' | exact Hc | exact Hd | exact Hres |].
    unfold delivered. rewrite H1, H3. split; [done |].
    change (trace (set_scripts _ st)) with (trace st).
    destruct (_modules st !! r_id q) as [m|] eqn:Hmod; [|done].
    apply last_Some_elem_of. by rewrite <-Hreg.
  - eapply on_dependency_sourced; [exact Hsrc' | exact Hc | exact Hd | exact Hres |].
    unfold delivered. by rewrite Hm.
Qed.

Lemma step_sourced st a :
  sourced st → registry_reflects st → sourced (step URL call st a).
Proof.
  intros Hsrc Hreg. unfold step.
  assert (Hp : sourced (perform URL call a st).2).
  { destruct a; cbn; [by apply define_sourced | by apply onload_sourced]. }
  destruct (perform URL call a st) as [[[]|e] st']; cbn in *; [done |].
  apply (sourced_grown st'); [done | by apply change_grown, change_emit | by left |].
  intros k i err v Hin. left. cbn in Hin.
  by destruct (silent_snoc k (trace st') (Uncaught e) I) as (<- & _).
Qed.

Lemma run_sourced st acts :
  sourced st → registry_reflects st → sourced (run URL call st acts).
Proof.
  revert st. induction acts as [|a acts IH]; intros st Hsrc Hreg; cbn; [done |].
  apply IH; [by apply step_sourced |].
  apply (evolves_registry_reflects st); [apply step_evolves | done].
Qed.

Lemma init_sourced : sourced init.
Proof.
  split.
  - intros r q Hq. cbn in Hq. by rewrite lookup_nil in Hq.
  - intros k i err v Hin. by apply elem_of_nil in Hin.
Qed.


(** X15. Every script that is waiting to load was appended for a declared
    dependency of a call: its handler will settle the position of that
    dependency, the id it will look up in the registry is the one the
    dependency resolves to against the base of the call, that id is not a
    reserved one, and its address is made of that id. *)
Theorem pending_script_source (acts : list action) (r : nat) (q : request) :
  let st := run URL call init acts in
  scripts st !! r = Some (Some q) →
  ∃ c d,
    calls st !! r_call q = Some c ∧ c_dependencies c !! r_index q = Some d ∧
    resolve_dependency (c_base c) d = Normal (r_id q) ∧
    reserved (r_id q) = false ∧ r_moduleId q = c_moduleId c ∧
    r_src q = "components/jquery/dist/" +:+ r_id q +:+ ".js".
Proof.
  intros st Hq.
  destruct (run_sourced init acts init_sourced) as [Hscr _]; [done |].
  destruct (Hscr r q Hq) as (c & Hc & d & Hfor). by exists c, d.
Qed.
End Sourced.

(** ** What a factory is given *)

Section Arguments.
Variable URL : string → string → option string.
Variable call : nat → list value → completion value.

End Arguments.

(** ** The exceptions that leave the loader *)

Section Throws.
Variable URL : string → string → option string.
Variable call : nat → list value → completion value.

Lemma on_dependency_throws k i id err v st c e st' :
  calls st !! k = Some c → is_function (c_factory c) = true →
  on_dependency call k i id err v st = (Throw e, st') →
  err = Some e ∨ ∃ f args, call f args = Throw e.
Proof.
  intros Hc Hf. unfold on_dependency, define_callback, apply.
  msimpl. rewrite Hc. msimpl.
  destruct (requireError c); msimpl; [done |].
  destruct err as [e0|]; msimpl; [intros [= -> _]; by left |].
  destruct (_ =? 0)%Z; msimpl; [|done].
  destruct (c_factory c) as [| | | | | | |f]; try done. msimpl.
  destruct (call f _) as [m|e0] eqn:Hcall; msimpl; [done |].
  intros [= -> _]. right. eauto.
Qed.

Lemma _resolveRelativeId_throws base id e :
  _resolveRelativeId base id = Throw e → e = NullDereference.
Proof.
  unfold _resolveRelativeId. destruct (negb _); [done |].
  destruct (Regex.exec Regex.re_base base); [|congruence].
  destruct (Regex.exec Regex.re_terms id) as [m|]; [|congruence].
  destruct (Regex.group 1 m); [done | congruence].
Qed.

Lemma _require_throws id moduleId k i st c e st' :
  calls st !! k = Some c → is_function (c_factory c) = true →
  _require call id moduleId k i st = (Throw e, st') →
  e = NotDefined "calback" ∨ ∃ f args, call f args = Throw e.
Proof.
  intros Hc Hf. unfold _require, new_object, loadScript.
  assert (Hsettle : ∀ g v,
    on_dependency call k i id None v (set_heap g st) = (Throw e, st') →
    e = NotDefined "calback" ∨ ∃ f args, call f args = Throw e).
  { intros g v Hthrow.
    by destruct (on_dependency_throws k i id None v (set_heap g st) c e st'
                   Hc Hf Hthrow) as [?|?]; [|right]. }
  destruct (String.eqb id "exports"); msimpl; [apply Hsettle |].
  destruct (String.eqb id "require"); msimpl; [intros [= <- _]; by left |].
  destruct (String.eqb id "module"); msimpl; [apply Hsettle |].
  destruct (_modules st !! id); msimpl; [apply (Hsettle (λ h, h)) | done].
Qed.

Lemma forEach_throws moduleId base xs k j st c e st' :
  calls st !! k = Some c → is_function (c_factory c) = true →
  forEach (request_dependency call k moduleId base) xs j st = (Throw e, st') →
  e = NullDereference ∨ e = NotDefined "calback" ∨
  ∃ f args, call f args = Throw e.
Proof.
  revert j st c. induction xs as [|d xs IH]; intros j st c Hc Hf; [done |].
  rewrite forEach_cons. unfold request_dependency at 1. msimpl.
  unfold resolve_dependency.
  destruct (negb (reserved d)); msimpl.
  - destruct (_resolveRelativeId base d) as [target|e0] eqn:Hres; msimpl.
    2:{ intros [= <- _]. left. by eapply _resolveRelativeId_throws. }
    pose proof (_require_keeps call target moduleId k j st) as [_ Hkeep].
    destruct (Hkeep k c Hc) as (c' & Hc' & Hs).
    pose proof (_require_throws target moduleId k j st c) as Hreq.
    destruct (_require call target moduleId k j st) as [[[]|e0] st1]; msimpl.
    + apply (IH _ _ c'); [done |]. injection Hs as _ _ _ Hfc. by rewrite Hfc.
    + intros [= <- <-]. right. by apply (Hreq e0 st1).
  - pose proof (_require_keeps call d moduleId k j st) as [_ Hkeep].
    destruct (Hkeep k c Hc) as (c' & Hc' & Hs).
    pose proof (_require_throws d moduleId k j st c) as Hreq.
    destruct (_require call d moduleId k j st) as [[[]|e0] st1]; msimpl.
    + apply (IH _ _ c'); [done |]. injection Hs as _ _ _ Hfc. by rewrite Hfc.
    + intros [= <- <-]. right. by apply (Hreq e0 st1).
Qed.

Lemma _runFactory_throws moduleId base dependencies factory st e st' :
  _runFactory call moduleId base dependencies factory st = (Throw e, st') →
  e = NullDereference ∨ e = NotDefined "calback" ∨
  ∃ f args, call f args = Throw e.
Proof.
  unfold _runFactory. msimpl.
  destruct (is_function factory) eqn:Hf; msimpl.
  2:{ unfold define_callback. by msimpl. }
  destruct (Z.of_nat (length dependencies) =? 0)%Z; msimpl.
  - unfold apply, define_callback. msimpl.
    destruct factory as [| | | | | | |f]; try done. msimpl.
    destruct (call f []) as [m|e0] eqn:Hcall; msimpl; [done |].
    intros [= <- _]. right. right. eauto.
  - apply (forEach_throws _ _ _ _ _ _
             {| c_moduleId := moduleId; c_base := base;
                c_dependencies := dependencies; c_factory := factory;
                unresolvedDependencies := Z.of_nat (length dependencies);
                modules := []; requireError := false |});
      [cbn; by apply list_lookup_middle | done].
Qed.

(** X17. The exceptions a call of [define] can end with: the one that
    stopped the inference of the module id, the error for a backslash in the
    id, the error for an id that is registered already, the engine's error
    for a property read on [null] (a line terminator in the inferred id or
    in the base of a relative dependency), the engine's error for the
    unbound name [calback] (a dependency on [require]), or what a factory
    threw. In particular [define] never reports a module that has not been
    loaded: that is left to the handlers of the scripts. *)
Theorem define_throws (h : host) (id dependencies factory : value)
    (st st' : state) (e : exn) :
  define URL call h id dependencies factory st = (Throw e, st') →
  _inferModuleId URL h = Throw e ∨
  e = delimiter_error ∨
  (∃ id', e = already_defined id' ∧ is_Some (_modules st !! id')) ∨
  e = NullDereference ∨ e = NotDefined "calback" ∨
  ∃ f args, call f args = Throw e.
Proof.
  unfold define. msimpl.
  destruct (_inferModuleId URL h) as [inferredId|e0]; msimpl;
    [|intros [= <- _]; by left].
  destruct (Str.contains _ _); msimpl; [intros [= <- _]; right; by left |].
  destruct (bool_decide _) eqn:Hin; msimpl.
  { intros [= <- _]. right. right. left. eexists. split; [done |].
    by apply bool_decide_eq_true in Hin. }
  destruct (dirname inferredId) as [base|e0] eqn:Hdir; msimpl.
  - intros Hrun. do 3 right. by eapply _runFactory_throws.
  - intros [= <- _]. do 3 right. left. unfold dirname in Hdir.
    destruct (Regex.exec _ _) as [m|]; [|congruence].
    destruct (Regex.group 1 m); congruence.
Qed.

(** X18. The exceptions the handler of a loaded script can end with, in any
    run: the error that says that the module the script was appended for has
    not been loaded (for the module that asked for it), or what the factory
    of the waiting call threw. *)
Theorem onload_throws (acts : list action) (r : nat) (st' : state) (e : exn) :
  let st := run URL call init acts in
  onload call r st = (Throw e, st') →
  ∃ q, scripts st !! r = Some (Some q) ∧
       (e = not_loaded (r_id q) (r_moduleId q) ∨
        ∃ f args, call f args = Throw e).
Proof.
  intros st.
  pose proof (run_inv URL call init acts init_inv) as Hinv. fold st in Hinv.
  unfold onload. msimpl.
  destruct (scripts st !! r) as [[q|]|] eqn:Hq; msimpl; try done.
  destruct (loaded_inv r q st Hinv Hq) as (c & Hc & Hlt & _ & _).
  pose proof (frontier_pos c _ Hlt) as Hf.
  destruct (truthy _); msimpl; intros Hthrow; exists q; (split; [done |]).
  - by destruct (on_dependency_throws _ _ _ _ _
                   (set_scripts (λ l, <[r := None]> l) st) c e st' Hc Hf Hthrow)
      as [?|?]; [|right].
  - destruct (on_dependency_throws _ _ _ _ _
                (set_scripts (λ l, <[r := None]> l) st) c e st' Hc Hf Hthrow)
      as [[= ->]|?]; [by left | by right].
Qed.
End Throws.

(** ** The further properties on the example pages *)

Lemma factory_runs_once_witness :
  outcome factories out_of_order_closure
    (applied 0 (trace (run relative_URL factories init out_of_order_run)))
    (completed 0 (trace (run relative_URL factories init out_of_order_run)))
    (written 0 (trace (run relative_URL factories init out_of_order_run))).
Proof.
  apply (factory_runs_once relative_URL factories out_of_order_run 0
           out_of_order_closure).
  by vm_compute.
Defined.

Lemma registered_value_origin_witness :
  ∃ k c,
    calls (run relative_URL factories init racing_run) !! k = Some c ∧
    c_moduleId c = "m" ∧
    (is_function (c_factory c) = false ∧ c_factory c = VNum 7 ∨
     ∃ f args,
       c_factory c = VFun f ∧
       applied k (trace (run relative_URL factories init racing_run))
         = [(VFun f, args)] ∧
       factories f args = Normal (VNum 7)).
Proof.
  apply (registered_value_origin relative_URL factories racing_run "m" (VNum 7)).
  by vm_compute.
Defined.

Lemma factory_waits_witness :
  VFun 0 = c_factory out_of_order_closure ∧
  errors (settled 0 (trace (run relative_URL factories init out_of_order_run))) = [] ∧
  length [VNum 1; VNum 2] = length (c_dependencies out_of_order_closure) ∧
  ∀ i, i < length (c_dependencies out_of_order_closure) →
    ∃ v, [VNum 1; VNum 2] !! i = Some v ∧
         Settled 0 i None v ∈ trace (run relative_URL factories init out_of_order_run).
Proof.
  apply (factory_waits relative_URL factories out_of_order_run 0
           out_of_order_closure (VFun 0) [VNum 1; VNum 2]).
  - by vm_compute.
  - done.
  - apply list_elem_of_In. vm_compute. tauto.
Defined.


Lemma pending_script_source_witness :
  ∃ c d,
    calls (run relative_URL factories init failing_run) !! 0 = Some c ∧
    c_dependencies c !! 0 = Some d ∧
    resolve_dependency (c_base c) d = Normal "http://h/app/x" ∧
    reserved "http://h/app/x" = false ∧ "m" = c_moduleId c ∧
    "components/jquery/dist/http://h/app/x.js"
      = "components/jquery/dist/" +:+ "http://h/app/x" +:+ ".js".
Proof.
  apply (pending_script_source relative_URL factories failing_run 0
           {| r_src := "components/jquery/dist/http://h/app/x.js";
              r_id := "http://h/app/x"; r_moduleId := "m";
              r_call := 0; r_index := 0 |}).
  by vm_compute.
Defined.


Lemma define_throws_witness :
  _inferModuleId relative_URL app_page = Throw (Raised (VStr "factory failed")) ∨
  Raised (VStr "factory failed") = delimiter_error ∨
  (∃ id', Raised (VStr "factory failed") = already_defined id' ∧
          is_Some (_modules init !! id')) ∨
  Raised (VStr "factory failed") = NullDereference ∨
  Raised (VStr "factory failed") = NotDefined "calback" ∨
  ∃ f args, factories f args = Throw (Raised (VStr "factory failed")).
Proof.
  apply (define_throws relative_URL factories app_page (VStr "m") (VArr [])
           (VFun 3) init
           (define relative_URL factories app_page (VStr "m") (VArr []) (VFun 3)
              init).2).
  by vm_compute.
Defined.

Lemma onload_throws_witness :
  ∃ q,
    scripts (run relative_URL factories init
               [Define app_page (VStr "m") (VArr ["./x"; "./y"]) (VFun 1)]) !! 1
      = Some (Some q) ∧
    (not_loaded "http://h/app/y" "m" = not_loaded (r_id q) (r_moduleId q) ∨
     ∃ f args, factories f args = Throw (not_loaded "http://h/app/y" "m")).
Proof.
  apply (onload_throws relative_URL factories
           [Define app_page (VStr "m") (VArr ["./x"; "./y"]) (VFun 1)] 1
           (onload factories 1
              (run relative_URL factories init
                 [Define app_page (VStr "m") (VArr ["./x"; "./y"]) (VFun 1)])).2).
  by vm_compute.
Defined.

(** ** What [define] requests *)

Section Requests.
Variable URL : string → string → option string.
Variable call : nat → list value → completion value.

(** One settlement: at most one dependency less to wait for, and the
    registry is only written when none is left. *)
Lemma on_dependency_step k i id v st c st1 :
  calls st !! k = Some c →
  on_dependency call k i id None v st = (Normal tt, st1) →
  Settled k i None v ∈ trace st1 ∧ scripts st1 = scripts st ∧
  ∃ c1, calls st1 !! k = Some c1 ∧ static c1 = static c ∧
        (unresolvedDependencies c - 1 ≤ unresolvedDependencies c1)%Z ∧
        (unresolvedDependencies c1 ≠ 0%Z → _modules st1 = _modules st).
Proof.
  intros Hc. pose proof (lookup_lt_Some _ _ _ Hc) as Hk.
  unfold on_dependency, define_callback, apply. msimpl. rewrite Hc. msimpl.
  destruct (requireError c); msimpl.
  { intros [= <-]. cbn. split_and!; [set_solver | done |].
    exists c. split_and!; [done | done | lia | done]. }
  destruct (_ =? 0)%Z eqn:Hz; msimpl.
  2:{ intros [= <-]. cbn. split_and!; [set_solver | done |].
      exists (resolve_slot i v c). rewrite list_lookup_insert_eq by done.
      split_and!; [done | done | cbn; lia | done]. }
  apply Z.eqb_eq in Hz.
  destruct (c_factory c) as [| | | | | | |f] eqn:Hf; msimpl; try done.
  destruct (call f _) as [m|e]; msimpl; [|done].
  intros [= <-]. cbn. split_and!; [set_solver | done |].
  exists (resolve_slot i v c). rewrite list_lookup_insert_eq by done.
  split_and!; [done | done | cbn; lia |]. cbn. lia.
Qed.

Lemma _require_step target moduleId k j st c st1 :
  calls st !! k = Some c →
  _require call target moduleId k j st = (Normal tt, st1) →
  (∃ tr, trace st1 = trace st ++ tr) ∧ (∃ ss, scripts st1 = scripts st ++ ss) ∧
  (∃ c1, calls st1 !! k = Some c1 ∧ static c1 = static c ∧
         (unresolvedDependencies c - 1 ≤ unresolvedDependencies c1)%Z ∧
         (unresolvedDependencies c1 ≠ 0%Z → _modules st1 = _modules st)) ∧
  (reserved target = false → requested st st1 target moduleId k j).
Proof.
  intros Hc Hreq.
  pose proof (_require_grows call target moduleId k j st) as (tr & Htr & _).
  rewrite Hreq in Htr. cbn in Htr. split; [by exists tr |].
  revert Hreq. unfold _require, new_object, requested.
  assert (Hsettle : ∀ g v,
    on_dependency call k j target None v (set_heap g st) = (Normal tt, st1) →
    Settled k j None v ∈ trace st1 ∧ (∃ ss, scripts st1 = scripts st ++ ss) ∧
    ∃ c1, calls st1 !! k = Some c1 ∧ static c1 = static c ∧
          (unresolvedDependencies c - 1 ≤ unresolvedDependencies c1)%Z ∧
          (unresolvedDependencies c1 ≠ 0%Z → _modules st1 = _modules st)).
  { intros g v Hon.
    destruct (on_dependency_step k j target v (set_heap g st) c st1 Hc Hon)
      as (Hin & Hscr & Hrest).
    split_and!; [done | exists []; by rewrite app_nil_r | done]. }
  destruct (String.eqb target "exports") eqn:H1; msimpl.
  { intros Hon. destruct (Hsettle _ _ Hon) as (_ & Hss & Hc1).
    split_and!; [done | done |]. unfold reserved. by rewrite H1. }
  destruct (String.eqb target "require") eqn:H2; msimpl; [done |].
  destruct (String.eqb target "module") eqn:H3; msimpl.
  { intros Hon. destruct (Hsettle _ _ Hon) as (_ & Hss & Hc1).
    split_and!; [done | done |]. unfold reserved. by rewrite H1, H2, H3. }
  destruct (_modules st !! target) as [v|] eqn:Hv; msimpl.
  - intros Hon. destruct (Hsettle (λ h, h) _ Hon) as (Hin & Hss & Hc1).
    by split_and!.
  - unfold loadScript. msimpl. intros [= <-]. cbn. split_and!.
    + by eexists.
    + exists c. split_and!; [done | done | lia | done].
    + intros _. unfold script_of. apply elem_of_app. right. by apply list_elem_of_singleton.
Qed.

Lemma forEach_scripts (k : nat) (moduleId base : string) (xs : list string)
    (j : nat) (st st' : state) (c : closure) :
  calls st !! k = Some c →
  forEach (request_dependency call k moduleId base) xs j st = (Normal tt, st') →
  ∃ ss, scripts st' = scripts st ++ ss.
Proof.
  revert j st c. induction xs as [|d0 xs IH]; intros j st c Hc.
  { intros [= <-]. exists []. by rewrite app_nil_r. }
  rewrite forEach_cons. unfold request_dependency at 1. msimpl.
  destruct (resolve_dependency base d0) as [t0|e0]; msimpl; [|done].
  destruct (_require call t0 moduleId k j st) as [[[]|e0] st1] eqn:Hreq; [|done].
  intros Hrest.
  destruct (_require_step t0 moduleId k j st c st1 Hc Hreq)
    as (_ & [ss Hss] & (c1 & Hc1 & _) & _).
  destruct (IH (S j) st1 c1 Hc1 Hrest) as [ss' Hss'].
  exists (ss ++ ss'). by rewrite Hss', Hss, (assoc_L (++)).
Qed.

(** The loop of [_runFactory], when it comes to its end: every dependency
    that is not a reserved word has been resolved against the base, and
    looked up or requested under the id it resolved to. *)
Lemma forEach_requests (k : nat) (moduleId base : string) (xs : list string)
    (j : nat) (st st' : state) (c : closure) :
  calls st !! k = Some c →
  (Z.of_nat (length xs) ≤ unresolvedDependencies c)%Z →
  forEach (request_dependency call k moduleId base) xs j st = (Normal tt, st') →
  ∀ n d, xs !! n = Some d → reserved d = false →
    ∃ target, _resolveRelativeId base d = Normal target ∧
              (reserved target = false → requested st st' target moduleId k (j + n)).
Proof.
  revert j st c. induction xs as [|d0 xs IH]; intros j st c Hc Hun; [done |].
  rewrite forEach_cons. unfold request_dependency at 1. msimpl.
  destruct (resolve_dependency base d0) as [t0|e0] eqn:Hres; msimpl; [|done].
  destruct (_require call t0 moduleId k j st) as [[[]|e0] st1] eqn:Hreq; [|done].
  intros Hrest.
  destruct (_require_step t0 moduleId k j st c st1 Hc Hreq)
    as ([tr Htr] & [ss Hss] & (c1 & Hc1 & Hs & Hun1 & Hreg) & Hdone).
  pose proof (forEach_grows call moduleId base k xs (S j) st1) as (tr' & Htr' & _).
  rewrite Hrest in Htr'. cbn in Htr'.
  cbn [length] in Hun.
  intros [|n] d Hd Hr.
  - injection Hd as ->. unfold resolve_dependency in Hres. rewrite Hr in Hres.
    cbn [negb] in Hres. exists t0. split; [done |]. intros Ht0.
    specialize (Hdone Ht0). unfold requested in *. rewrite Nat.add_0_r.
    destruct (_modules st !! t0) as [v|].
    + rewrite Htr'. set_solver.
    + destruct (forEach_scripts k moduleId base xs (S j) st1 st' c1 Hc1 Hrest)
        as [ss' ->].
      set_solver.
  - change (xs !! n = Some d) in Hd.
    pose proof (lookup_lt_Some _ _ _ Hd) as Hlen.
    destruct (IH (S j) st1 c1 Hc1 ltac:(lia) Hrest n d Hd Hr) as (target & Htarget & Hreq').
    exists target. split; [done |]. intros Ht. specialize (Hreq' Ht).
    unfold requested in *. rewrite Hreg in Hreq' by lia.
    by replace (j + S n) with (S j + n) by lia.
Qed.
(** A call of [define] that has returned has asked for every dependency
    that is not a reserved word under the id it resolves to against the
    directory of the inferred id. *)
Lemma define_requests (h : host) (id dependencies factory : value)
    (st st' : state) (inferredId base : string) :
  define URL call h id dependencies factory st = (Normal tt, st') →
  _inferModuleId URL h = Normal inferredId → dirname inferredId = Normal base →
  is_function (js_or (js_or factory dependencies) id) = true →
  ∀ i d,
    match dependencies with
    | VArr ds => ds
    | _ => match id with VArr ds => ds | _ => [] end
    end !! i = Some d →
    reserved d = false →
    ∃ target,
      _resolveRelativeId base d = Normal target ∧
      (reserved target = false →
       requested st st' target (match id with VStr s => s | _ => inferredId end)
         (length (calls st)) i).
Proof.
  intros Hdef Hinf Hdir Hfun. revert Hdef. unfold define. msimpl.
  rewrite Hinf. msimpl.
  destruct (Str.contains _ _); msimpl; [done |].
  destruct (bool_decide _); msimpl; [done |].
  rewrite Hdir. msimpl. unfold _runFactory. msimpl. rewrite Hfun. msimpl.
  set (deps := match dependencies with VArr ds => ds | _ => _ end).
  set (id' := match id with VStr s => s | _ => inferredId end).
  destruct (Z.of_nat (length deps) =? 0)%Z eqn:Hz; msimpl.
  { apply Z.eqb_eq in Hz. intros _ i d Hd.
    apply lookup_lt_Some in Hd. lia. }
  intros Hloop i d Hd Hr.
  set (c0 := {| c_moduleId := id'; c_base := base; c_dependencies := deps;
                c_factory := js_or (js_or factory dependencies) id;
                unresolvedDependencies := Z.of_nat (length deps);
                modules := []; requireError := false |}) in *.
  destruct (forEach_requests (length (calls st)) id' base deps 0
              (set_calls (λ l, l ++ [c0]) st) st' c0) with (n := i) (d := d)
    as (target & Htarget & Hreq); try done.
  - cbn. by apply list_lookup_middle.
  - exists target. split; [done |]. intros Ht. exact (Hreq Ht).
Qed.
(** Whatever its outcome, [_require] appends one script at most, and only
    for an id that is not a reserved word. *)
Lemma _require_appends target moduleId k j st c :
  calls st !! k = Some c →
  scripts (_require call target moduleId k j st).2 = scripts st ∨
  (reserved target = false ∧
   scripts (_require call target moduleId k j st).2
     = scripts st ++ [Some (script_of target moduleId k j)]).
Proof.
  intros Hc. unfold _require, new_object.
  assert (Hsettle : ∀ g v,
    scripts (on_dependency call k j target None v (set_heap g st)).2 = scripts st).
  { intros g v.
    by destruct (on_dependency_effect call k j target None v (set_heap g st) c Hc)
      as (c' & A & C & W & _ & _ & -> & _). }
  destruct (String.eqb target "exports") eqn:H1; msimpl; [left; apply Hsettle |].
  destruct (String.eqb target "require") eqn:H2; msimpl; [by left |].
  destruct (String.eqb target "module") eqn:H3; msimpl; [left; apply Hsettle |].
  destruct (_modules st !! target); msimpl; [left; apply (Hsettle (λ h, h)) |].
  right. unfold reserved. by rewrite H1, H2, H3.
Qed.

(** Whatever its outcome, the loop of [_runFactory] appends scripts only
    for dependencies of the list, under the ids they resolve to against
    the base. *)
Lemma forEach_appends (k : nat) (moduleId base : string) (xs : list string)
    (j : nat) (st : state) (c : closure) :
  calls st !! k = Some c →
  ∃ ss,
    scripts (forEach (request_dependency call k moduleId base) xs j st).2
      = scripts st ++ ss ∧
    ∀ q, Some q ∈ ss →
      ∃ n d, xs !! n = Some d ∧
             resolve_dependency base d = Normal (r_id q) ∧
             reserved (r_id q) = false ∧
             q = script_of (r_id q) moduleId k (j + n).
Proof.
  revert j st c. induction xs as [|d0 xs IH]; intros j st c Hc.
  { exists []. split; [by rewrite app_nil_r |]. by intros q ?%elem_of_nil. }
  rewrite forEach_cons. unfold request_dependency at 1. msimpl.
  destruct (resolve_dependency base d0) as [t0|e0] eqn:Hres; msimpl.
  2:{ exists []. split; [by rewrite app_nil_r |]. by intros q ?%elem_of_nil. }
  pose proof (_require_appends t0 moduleId k j st c Hc) as Happ.
  pose proof (_require_keeps call t0 moduleId k j st) as [_ Hkeep].
  destruct (Hkeep k c Hc) as (c1 & Hc1 & _).
  destruct (_require call t0 moduleId k j st) as [[[]|e0] st1]; cbn in *.
  - destruct (IH (S j) st1 c1 Hc1) as (ss & Hss & Hall).
    destruct Happ as [Hsame|[Ht0 Hnew]].
    + exists ss. split; [by rewrite Hss, Hsame |].
      intros q Hq. destruct (Hall q Hq) as (n & d & Hn & Hd & Hr & Hq').
      exists (S n), d. split_and!; try done.
      by replace (j + S n) with (S j + n) by lia.
    + exists (Some (script_of t0 moduleId k j) :: ss).
      split; [by rewrite Hss, Hnew, <-(assoc_L (++)) |].
      intros q [Hq|Hq]%elem_of_cons.
      * injection Hq as ->. exists 0, d0. cbn. rewrite Nat.add_0_r. by split_and!.
      * destruct (Hall q Hq) as (n & d & Hn & Hd & Hr & Hq').
        exists (S n), d. split_and!; try done.
        by replace (j + S n) with (S j + n) by lia.
  - destruct Happ as [Hsame|[Ht0 Hnew]].
    + exists []. split; [by rewrite app_nil_r |]. by intros q ?%elem_of_nil.
    + exists [Some (script_of t0 moduleId k j)]. split; [done |].
      intros q ->%list_elem_of_singleton%(inj Some).
      exists 0, d0. cbn. rewrite Nat.add_0_r. by split_and!.
Qed.

(** Whatever its outcome, a call of [define] appends scripts only for its
    dependencies, under the ids they resolve to against the directory of
    the inferred id. *)
Lemma define_appends (h : host) (id dependencies factory : value)
    (st st' : state) (r : completion unit) (inferredId base : string) :
  define URL call h id dependencies factory st = (r, st') →
  _inferModuleId URL h = Normal inferredId → dirname inferredId = Normal base →
  ∃ ss,
    scripts st' = scripts st ++ ss ∧
    ∀ q, Some q ∈ ss →
      ∃ i d,
        match dependencies with
        | VArr ds => ds
        | _ => match id with VArr ds => ds | _ => [] end
        end !! i = Some d ∧
        resolve_dependency base d = Normal (r_id q) ∧
        reserved (r_id q) = false ∧
        q = script_of (r_id q) (match id with VStr s => s | _ => inferredId end)
              (length (calls st)) i.
Proof.
  intros Hdef Hinf Hdir.
  assert (Hnone : scripts st' = scripts st →
    ∃ ss, scripts st' = scripts st ++ ss ∧
      ∀ q, Some q ∈ ss →
        ∃ i d,
          match dependencies with
          | VArr ds => ds
          | _ => match id with VArr ds => ds | _ => [] end
          end !! i = Some d ∧
          resolve_dependency base d = Normal (r_id q) ∧
          reserved (r_id q) = false ∧
          q = script_of (r_id q) (match id with VStr s => s | _ => inferredId end)
                (length (calls st)) i).
  { intros ->. exists []. split; [by rewrite app_nil_r |]. by intros q ?%elem_of_nil. }
  revert Hdef. unfold define. msimpl. rewrite Hinf. msimpl.
  destruct (Str.contains _ _); msimpl; [intros [= _ <-]; by apply Hnone |].
  destruct (bool_decide _); msimpl; [intros [= _ <-]; by apply Hnone |].
  rewrite Hdir. msimpl. unfold _runFactory. msimpl.
  set (deps := match dependencies with VArr ds => ds | _ => _ end) in *.
  set (id' := match id with VStr s => s | _ => inferredId end) in *.
  destruct (is_function _) eqn:Hfun; msimpl.
  2:{ unfold define_callback. msimpl. intros [= _ <-]. by apply Hnone. }
  destruct (Z.of_nat (length deps) =? 0)%Z; msimpl.
  { unfold apply, define_callback. msimpl.
    destruct (js_or _ id) as [| | | | | | |f]; try done. msimpl.
    destruct (call f []); msimpl; intros [= _ <-]; by apply Hnone. }
  set (c0 := {| c_moduleId := id'; c_base := base; c_dependencies := deps;
                c_factory := js_or (js_or factory dependencies) id;
                unresolvedDependencies := Z.of_nat (length deps);
                modules := []; requireError := false |}).
  intros Hloop.
  destruct (forEach_appends (length (calls st)) id' base deps 0
              (set_calls (λ l, l ++ [c0]) st) c0) as (ss & Hss & Hall).
  { cbn. by apply list_lookup_middle. }
  rewrite Hloop in Hss. cbn in Hss. exists ss. split; [done |].
  intros q Hq. destruct (Hall q Hq) as (n & d & Hn & Hd & Hr & Hq').
  by exists n, d.
Qed.
End Requests.

(** ** The base of a module *)

Lemma reserved_relative (s : string) : reserved (String Str.dot s) = false.
Proof. reflexivity. Qed.

Section Base.
Variable URL : string → string → option string.
Variable call : nat → list value → completion value.

(** C5. The base path. Whenever a call of [define] gets as far as
    [_runFactory], the base it works with is the inferred id of the
    defining unit up to and including its last slash (empty when there is
    none), whatever id the call declared; the declared id only names the
    module. And the base is what the dependencies are resolved against.
    Whatever the outcome of the call, every script it appends is the
    script of a declared dependency, for the id this dependency resolves
    to against that base. When the call has a factory function and
    returns, every declared dependency that is not a reserved word has
    been resolved against that base, and under the id this gave (when it
    is not a reserved word either) it has been looked up in the registry,
    and either settled with what was found there or requested by a script
    for that id. A unit inferred at [http://x.com/a/b.html] thus resolves
    the dependency [./c.html] to [http://x.com/a/c.html], and looks up or
    requests that id. *)
Theorem C5_base_from_inferred_location (h : host)
    (id dependencies factory : value) (st st' : state) (r : completion unit)
    (k : nat) (c : closure) :
  define URL call h id dependencies factory st = (r, st') →
  length (calls st) ≤ k → calls st' !! k = Some c →
  ∃ inferredId rest,
    _inferModuleId URL h = Normal inferredId ∧
    inferredId = c_base c +:+ rest ∧
    Str.contains Str.slash rest = false ∧
    (c_base c = "" ∨ ∃ p, c_base c = p +:+ "/") ∧
    c_moduleId c = match id with VStr s => s | _ => inferredId end ∧
    (∃ ss,
       scripts st' = scripts st ++ ss ∧
       ∀ q, Some q ∈ ss →
         ∃ i d,
           match dependencies with
           | VArr ds => ds
           | _ => match id with VArr ds => ds | _ => [] end
           end !! i = Some d ∧
           resolve_dependency (c_base c) d = Normal (r_id q) ∧
           reserved (r_id q) = false ∧
           q = script_of (r_id q) (c_moduleId c) k i) ∧
    (r = Normal tt →
     is_function (js_or (js_or factory dependencies) id) = true →
     ∀ i d,
       match dependencies with
       | VArr ds => ds
       | _ => match id with VArr ds => ds | _ => [] end
       end !! i = Some d →
       reserved d = false →
       ∃ target,
         _resolveRelativeId (c_base c) d = Normal target ∧
         (reserved target = false → requested st st' target (c_moduleId c) k i)) ∧
    (inferredId = "http://x.com/a/b.html" →
     resolve_dependency (c_base c) "./c.html" = Normal "http://x.com/a/c.html" ∧
     (r = Normal tt →
      is_function (js_or (js_or factory dependencies) id) = true →
      ∀ i,
        match dependencies with
        | VArr ds => ds
        | _ => match id with VArr ds => ds | _ => [] end
        end !! i = Some "./c.html" →
        requested st st' "http://x.com/a/c.html" (c_moduleId c) k i)).
Proof.
  intros Hdef Hk Hc.
  destruct (define_closure URL call h id dependencies factory st r st' k c
              Hdef Hk Hc) as (inferredId & Hinf & Hdir & Hid & _ & ->).
  destruct (dirname_spec inferredId (c_base c) Hdir) as (rest & Hsplit & Hrest & Hp).
  exists inferredId, rest. split_and!; try done.
  - rewrite Hid.
    by apply (define_appends URL call h id dependencies factory st st' r
                inferredId (c_base c)).
  - intros -> Hfun i d Hd Hr. rewrite Hid.
    by apply (define_requests URL call h id dependencies factory st st'
                inferredId (c_base c)).
  - intros ->.
    assert (dirname "http://x.com/a/b.html" = Normal "http://x.com/a/") as Hd
      by (by vm_compute).
    rewrite Hd in Hdir. injection Hdir as Hbase. rewrite <-Hbase.
    split; [by vm_compute |].
    intros -> Hfun i Hi. rewrite Hid.
    destruct (define_requests URL call h id dependencies factory st st'
                "http://x.com/a/b.html" "http://x.com/a/" Hdef Hinf Hd Hfun
                i "./c.html" Hi eq_refl) as (target & Htarget & Hreq).
    assert (target = "http://x.com/a/c.html") as ->.
    { assert (_resolveRelativeId "http://x.com/a/" "./c.html"
              = Normal "http://x.com/a/c.html") as E by (by vm_compute).
      rewrite E in Htarget. by injection Htarget. }
    by apply Hreq.
Qed.

(** C6, amended. [_resolveRelativeId] does not strip the last segment of
    the base it is given. Given an id [../d], with [d] a plain name, it
    answers, when it answers, with the scheme and authority of the base,
    then the path of the base less one trailing slash and less the last
    segment of what is then left, then [d]: on [a/b/c] it answers [a/b/d],
    and on [a/b/] it answers [a/d]. The last segment of the location of
    the defining unit is dropped earlier, by [define], which works with the
    directory of the inferred id as base: a call that has a factory
    function and returns has looked up or requested its dependency [../d]
    under the id that [../d] gives against that directory. A unit inferred
    at [a/b/c] has base [a/b/], against which [../d] resolves to [a/d]. *)
Theorem C6_directory_then_walk :
  (∀ base d resolved : string,
     is_name d → _resolveRelativeId base ("../" +:+ d) = Normal resolved →
     base = authority base +:+ path_of base ∧
     resolved = authority base +:+ directory (chop_slash (path_of base)) +:+ d) ∧
  (∀ (h : host) (id dependencies factory : value) (st st' : state)
     (r : completion unit) (k : nat) (c : closure),
     define URL call h id dependencies factory st = (r, st') →
     length (calls st) ≤ k → calls st' !! k = Some c →
     ∃ inferredId,
       _inferModuleId URL h = Normal inferredId ∧
       c_base c = directory inferredId ∧
       (r = Normal tt →
        is_function (js_or (js_or factory dependencies) id) = true →
        ∀ i d,
          match dependencies with
          | VArr ds => ds
          | _ => match id with VArr ds => ds | _ => [] end
          end !! i = Some ("../" +:+ d) →
          is_name d →
          let target :=
            authority (c_base c)
            +:+ directory (chop_slash (path_of (c_base c))) +:+ d in
          reserved target = false →
          requested st st' target (c_moduleId c) k i) ∧
       (inferredId = "a/b/c" →
        c_base c = "a/b/" ∧
        resolve_dependency (c_base c) "../d" = Normal "a/d")) ∧
  _resolveRelativeId "a/b/c" "../d" = Normal "a/b/d" ∧
  _resolveRelativeId "a/b/" "../d" = Normal "a/d".
Proof.
  split_and!; [| |by vm_compute ..].
  - intros base d resolved Hd Hres.
    pose proof (base_parts_computed base) as Hparts. split.
    + destruct Hparts as [(scheme & host & _ & Hbase & _)|(-> & -> & _)]; done.
    + by apply (_resolveRelativeId_parent base).
  - intros h id dependencies factory st st' r k c Hdef Hk Hc.
    destruct (define_closure URL call h id dependencies factory st r st' k c
                Hdef Hk Hc) as (inferredId & Hinf & Hdir & Hid & _ & ->).
    exists inferredId. split; [done |].
    assert (Hbase : c_base c = directory inferredId).
    { rewrite dirname_longest_prefix in Hdir.
      destruct (has_line_terminator (directory inferredId)); [done |].
      by injection Hdir. }
    split_and!; [done | |].
    + intros -> Hfun i d Hi Hd target Ht. rewrite Hid.
      destruct (define_requests URL call h id dependencies factory st st'
                  inferredId (c_base c) Hdef Hinf Hdir Hfun
                  i ("../" +:+ d) Hi (reserved_relative _))
        as (target' & Htarget & Hreq).
      pose proof (_resolveRelativeId_parent (c_base c) _ _ d target'
                    (base_parts_computed (c_base c)) Hd Htarget) as E.
      fold target in E. subst target'. by apply Hreq.
    + intros ->. rewrite Hbase. split; by vm_compute.
Qed.
End Base.

(** The module [widget] of the example page asks for its dependency
    [./c.html] under the location of the page, and a unit inferred at
    [a/b/c] asks for [../d] under [a/d]. *)
Example widget_requests_sibling :
  scripts (define relative_URL factories example_page
             (VStr "widget") (VArr ["./c.html"]) (VFun 1) init).2
  = [Some (script_of "http://x.com/a/c.html" "widget" 0 0)].
Proof. by vm_compute. Qed.

Example nested_requests_parent :
  scripts (define relative_URL factories (inline_script (Some "a/b/c"))
             VUndefined (VArr ["../d"]) (VFun 1) init).2
  = [Some (script_of "a/d" "a/b/c" 0 0)].
Proof. by vm_compute. Qed.

Lemma C5_witness :
  ∃ inferredId rest,
    _inferModuleId relative_URL example_page = Normal inferredId ∧
    inferredId = c_base widget_closure +:+ rest ∧
    Str.contains Str.slash rest = false ∧
    (c_base widget_closure = "" ∨ ∃ p, c_base widget_closure = p +:+ "/") ∧
    c_moduleId widget_closure = "widget" ∧
    (∃ ss,
       scripts (define relative_URL factories example_page
                  (VStr "widget") (VArr ["./c.html"]) (VFun 1) init).2
         = scripts init ++ ss ∧
       ∀ q, Some q ∈ ss →
         ∃ i d,
           ["./c.html"] !! i = Some d ∧
           resolve_dependency (c_base widget_closure) d = Normal (r_id q) ∧
           reserved (r_id q) = false ∧
           q = script_of (r_id q) (c_moduleId widget_closure) 0 i) ∧
    (Normal tt = Normal tt →
     is_function (js_or (js_or (VFun 1) (VArr ["./c.html"])) (VStr "widget")) = true →
     ∀ i d,
       ["./c.html"] !! i = Some d →
       reserved d = false →
       ∃ target,
         _resolveRelativeId (c_base widget_closure) d = Normal target ∧
         (reserved target = false →
          requested init
            (define relative_URL factories example_page
               (VStr "widget") (VArr ["./c.html"]) (VFun 1) init).2
            target (c_moduleId widget_closure) 0 i)) ∧
    (inferredId = "http://x.com/a/b.html" →
     resolve_dependency (c_base widget_closure) "./c.html"
       = Normal "http://x.com/a/c.html" ∧
     (Normal tt = Normal tt →
      is_function (js_or (js_or (VFun 1) (VArr ["./c.html"])) (VStr "widget")) = true →
      ∀ i,
        ["./c.html"] !! i = Some "./c.html" →
        requested init
          (define relative_URL factories example_page
             (VStr "widget") (VArr ["./c.html"]) (VFun 1) init).2
          "http://x.com/a/c.html" (c_moduleId widget_closure) 0 i)).
Proof.
  apply (C5_base_from_inferred_location relative_URL factories example_page
           (VStr "widget") (VArr ["./c.html"]) (VFun 1) init
           (define relative_URL factories example_page
              (VStr "widget") (VArr ["./c.html"]) (VFun 1) init).2
           (Normal tt) 0 widget_closure).
  - by vm_compute.
  - vm_compute. lia.
  - by vm_compute.
Defined.

Lemma C6_witness :
  ("a/b/c" = authority "a/b/c" +:+ path_of "a/b/c" ∧
   "a/b/d" = authority "a/b/c" +:+ directory (chop_slash (path_of "a/b/c")) +:+ "d") ∧
  ∃ inferredId,
    _inferModuleId relative_URL (inline_script (Some "a/b/c")) = Normal inferredId ∧
    c_base nested_closure = directory inferredId ∧
    (Normal tt = Normal tt →
     is_function (js_or (js_or (VFun 1) (VArr ["../d"])) VUndefined) = true →
     ∀ i d,
       ["../d"] !! i = Some ("../" +:+ d) →
       is_name d →
       let target :=
         authority (c_base nested_closure)
         +:+ directory (chop_slash (path_of (c_base nested_closure))) +:+ d in
       reserved target = false →
       requested init
         (define relative_URL factories (inline_script (Some "a/b/c"))
            VUndefined (VArr ["../d"]) (VFun 1) init).2
         target (c_moduleId nested_closure) 0 i) ∧
    (inferredId = "a/b/c" →
     c_base nested_closure = "a/b/" ∧
     resolve_dependency (c_base nested_closure) "../d" = Normal "a/d").
Proof.
  destruct (C6_directory_then_walk relative_URL factories) as (Hwalk & Hdefine & _).
  split.
  - apply (Hwalk "a/b/c" "d" "a/b/d"); [by split_and! | by vm_compute].
  - apply (Hdefine (inline_script (Some "a/b/c")) VUndefined (VArr ["../d"]) (VFun 1)
             init
             (define relative_URL factories (inline_script (Some "a/b/c"))
                VUndefined (VArr ["../d"]) (VFun 1) init).2
             (Normal tt) 0 nested_closure).
    + by vm_compute.
    + vm_compute. lia.
    + by vm_compute.
Defined.
